(** * shopify-reviews-scraper: a shallow embedding of the pipeline

    The development follows the repository file by file:
    - [config.js]        the constants the two phases read;
    - [utils.js]         [delay], [retry], the checkpoint store;
    - [scrapeReviews.js] [scrapeAppReviews], [scrapeAllReviews];
    - [discoverApps.js]  [collectAllApps], [discoverApps] (the latest of the
                         three revisions kept in the file).

    Asynchronous code is sequential here: every [await] is a plain monadic
    bind, the program being single-threaded throughout.  Effects are explicit:
    a computation takes a state and returns an outcome (a value, a thrown
    error, or an exhausted loop budget) together with the new state. *)

From Stdlib Require Import ZArith Lia.
From stdpp Require Import base list strings gmap.

Local Open Scope Z_scope.

(** ** Outcomes and the state-and-exception monad *)

Inductive Outcome (E A : Type) : Type :=
| Ret (a : A)          (* normal completion *)
| Throw (e : E)        (* an exception propagates *)
| OutOfFuel.           (* the loop budget of the model ran out *)

Arguments Ret {E A} a.
Arguments Throw {E A} e.
Arguments OutOfFuel {E A}.

Definition M (S E A : Type) : Type := S -> Outcome E A * S.

Definition ret {S E A} (a : A) : M S E A := fun s => (Ret a, s).

Definition throw {S E A} (e : E) : M S E A := fun s => (Throw e, s).

Definition bind {S E A B} (m : M S E A) (k : A -> M S E B) : M S E B :=
  fun s =>
    match m s with
    | (Ret a, s1) => k a s1
    | (Throw e, s1) => (Throw e, s1)
    | (OutOfFuel, s1) => (OutOfFuel, s1)
    end.

(** [try { body } finally { cleanup }]: the cleanup runs whatever the body
    did; the body's outcome stands unless the cleanup itself throws. *)
Definition finally {S E A B} (body : M S E A) (cleanup : M S E B) : M S E A :=
  fun s =>
    match body s with
    | (OutOfFuel, s1) => (OutOfFuel, s1)
    | (r, s1) =>
        match cleanup s1 with
        | (Ret _, s2) => (r, s2)
        | (Throw e, s2) => (Throw e, s2)
        | (OutOfFuel, s2) => (OutOfFuel, s2)
        end
    end.

(** An effect that only changes the state. *)
Definition effect {S E} (f : S -> S) : M S E unit := fun s => (Ret tt, f s).

Declare Scope js_scope.
Delimit Scope js_scope with js.
Notation "x <- m ;; k" := (bind m (fun x => k))
  (at level 100, m at next level, right associativity) : js_scope.
Notation "m ;;; k" := (bind m (fun _ => k))
  (at level 100, right associativity) : js_scope.
Local Open Scope js_scope.

(** ** utils.js: [retry]

<<
async function retry(fn, maxRetries = 3, baseDelayMs = 5000) {
  for (let attempt = 1; attempt <= maxRetries; attempt++) {
    try {
      return await fn();
    } catch (err) {
      if (attempt === maxRetries) {
        throw err;
      }
      const waitMs = baseDelayMs * Math.pow(2, attempt - 1);
      console.warn(`  Attempt ... failed: ${err.message}. Retrying in ...`);
      await new Promise((resolve) => setTimeout(resolve, waitMs));
    }
  }
}
>>

    The function is generic in the state its operation acts on and in what
    the operation throws, which in JavaScript is any value.  The warning
    reads [err.message]: for [null] and [undefined] that read throws a
    [TypeError], which leaves the [catch] block and with it [retry];
    [message_throws err] is the error that evaluating the warning's text
    throws, if it throws.  The two effects of [retry], [console.warn] and
    the wait it asks of [setTimeout], are the section's variables as well.
    A call that falls off the end of the loop yields [undefined], which is
    [None] here; a value the operation returns is [Some] of it. *)

Section Retry.
Context {S E A : Type}.
Variable message_throws : E -> option E.
Variable console_warn : Z -> Z -> E -> Z -> S -> S.
Variable setTimeout : Z -> S -> S.
Variable fn : M S E A.
Variables maxRetries baseDelayMs : Z.

Fixpoint retry_from (fuel : nat) (attempt : Z) : M S E (option A) :=
  fun s =>
    match fuel with
    | O => (OutOfFuel, s)
    | Datatypes.S fuel' =>
        if attempt <=? maxRetries then
          match fn s with
          | (Ret a, s1) => (Ret (Some a), s1)
          | (Throw err, s1) =>
              if attempt =? maxRetries then (Throw err, s1)
              else
                let waitMs := baseDelayMs * 2 ^ (attempt - 1) in
                match message_throws err with
                | Some typeError => (Throw typeError, s1)
                | None =>
                    let s2 := console_warn attempt maxRetries err waitMs s1 in
                    let s3 := setTimeout waitMs s2 in
                    retry_from fuel' (attempt + 1) s3
                end
          | (OutOfFuel, s1) => (OutOfFuel, s1)
          end
        else (Ret None, s)
    end.

(** The loop runs at most [maxRetries] times and tests its condition once
    more. *)
Definition retry : M S E (option A) :=
  retry_from (Datatypes.S (Z.to_nat maxRetries)) 1.

End Retry.

(** *** Observing a run of [retry]

    To count invocations, an operation [f] on a state [S0] is run on
    [S0 * list Obs]: [probe f] notes every invocation and what it threw,
    and the two effects of [retry] note themselves: the warning, and the
    delay asked of [setTimeout].  The operation has no access to the
    notes. *)

Inductive Obs (E : Type) : Type :=
| Invoked (failure : option E)
| Warned (attempt maxRetries : Z) (err : E) (waitMs : Z)
| Waited (waitMs : Z).

Arguments Invoked {E} failure.
Arguments Warned {E} attempt maxRetries err waitMs.
Arguments Waited {E} waitMs.

Definition probe {S0 E A} (f : M S0 E A) : M (S0 * list (Obs E)) E A :=
  fun '(s, tr) =>
    match f s with
    | (Ret a, s1) => (Ret a, (s1, tr ++ [Invoked None]))
    | (Throw e, s1) => (Throw e, (s1, tr ++ [Invoked (Some e)]))
    | (OutOfFuel, s1) => (OutOfFuel, (s1, tr))
    end.

Definition note_warn {S0 E} (attempt maxRetries : Z) (err : E) (waitMs : Z)
  : S0 * list (Obs E) -> S0 * list (Obs E) :=
  fun '(s, tr) => (s, tr ++ [Warned attempt maxRetries err waitMs]).

Definition note_wait {S0 E} (waitMs : Z)
  : S0 * list (Obs E) -> S0 * list (Obs E) :=
  fun '(s, tr) => (s, tr ++ [Waited waitMs]).

Definition observed_retry {S0 E A} (message_throws : E -> option E) (f : M S0 E A)
    (maxRetries baseDelayMs : Z)
  : M (S0 * list (Obs E)) E (option A) :=
  retry message_throws note_warn note_wait (probe f) maxRetries baseDelayMs.

(** Errors that are [Error] objects: reading their message never throws. *)
Definition readable {E} : E -> option E := fun _ => None.

Definition is_invocation {E} (o : Obs E) : bool :=
  match o with Invoked _ => true | _ => false end.

(** How often the operation was invoked. *)
Definition invocations {E} (tr : list (Obs E)) : nat :=
  length (filter (fun o => is_invocation o = true) tr).

(** The delays asked of [setTimeout], in the order they were asked. *)
Fixpoint waits {E} (tr : list (Obs E)) : list Z :=
  match tr with
  | [] => []
  | Waited ms :: tr' => ms :: waits tr'
  | _ :: tr' => waits tr'
  end.

(** The delays asked of [setTimeout], grouped by the invocation they
    precede: the i-th entry lists the delays asked for since the previous
    invocation (since the start, for the first) when invocation i was made;
    delays asked for after the last invocation would form one more entry. *)
Fixpoint gaps {E} (tr : list (Obs E)) : list (list Z) :=
  match tr with
  | [] => []
  | Invoked _ :: tr' => [] :: gaps tr'
  | Waited ms :: tr' =>
      match gaps tr' with
      | [] => [[ms]]
      | g :: gs => (ms :: g) :: gs
      end
  | Warned _ _ _ _ :: tr' => gaps tr'
  end.

(** The error of the last invocation, if it failed. *)
Definition last_failure {E} (tr : list (Obs E)) : option E :=
  match last (filter (fun o => is_invocation o = true) tr) with
  | Some (Invoked (Some e)) => Some e
  | _ => None
  end.

(** An operation that always fails, throwing the number of the call. *)
Definition always_failing : M nat nat unit :=
  fun n => (Throw (Datatypes.S n), Datatypes.S n).

(** What an operation may throw, as far as [retry] can tell: [null], an
    [Error] object, or the [TypeError] that reading a property of [null]
    raises. *)
Inductive Thrown : Type :=
| ThrownNull
| ThrownError (n : nat)
| ThrownTypeError.

Definition message_of_thrown (err : Thrown) : option Thrown :=
  match err with
  | ThrownNull => Some ThrownTypeError
  | ThrownError _ | ThrownTypeError => None
  end.

(** An operation that always rejects with [null]; it counts its calls. *)
Definition rejecting_null : M nat Thrown unit :=
  fun n => (Throw ThrownNull, Datatypes.S n).

(** ** Values

    The numbers of this program are page counts and review counts: integers,
    or [NaN] when [parseInt] finds no digits.  Fractions never arise, so a
    number is an integer or [NaN].  A double holds every integer up to
    [2^53] in absolute value as it is; what the program computes from a
    larger count is not modelled. *)

Inductive number : Type :=
| Int (z : Z)
| NaN.

(** [a <= b] and [a >= b] for an integer [a]: both are false on [NaN]. *)
Definition num_le (a : Z) (b : number) : bool :=
  match b with Int z => a <=? z | NaN => false end.

Definition num_ge (a : Z) (b : number) : bool :=
  match b with Int z => z <=? a | NaN => false end.

(** The integers that a double holds exactly, with all the integers between
    them and zero. *)
Definition safe_integer (z : Z) : bool := Z.abs z <=? 2 ^ 53.

Definition safe (n : number) : bool :=
  match n with Int z => safe_integer z | NaN => true end.

(** [Math.ceil(a / b)] for a positive integer [b]: the ceiling of the
    quotient.  This is what the doubles give for a safe [a] and [b = 10]:
    the quotient is below [2^50], where doubles are at most [1/8] apart,
    and a quotient that is not an integer is at least [1/10] away from
    the next one, so rounding it does not reach an integer on the other
    side. *)
Definition Math_ceil_div (a : number) (b : Z) : number :=
  match a with Int z => Int (- ((- z) / b)) | NaN => NaN end.

(** [pageNum <= maxPages] where [maxPages] may be [undefined]: [undefined]
    converts to [NaN], and every comparison with [NaN] is false. *)
Definition le_maybe_undefined (a : Z) (b : option Z) : bool :=
  match b with Some z => a <=? z | None => false end.

(** JSON documents, as [JSON.parse] returns them.  An object lists each of
    its keys once. *)
Inductive prim : Type :=
| PNull
| PBool (b : bool)
| PNum (n : Z)
| PStr (s : string).

#[local] Unset Elimination Schemes.
Inductive json : Type :=
| JPrim (p : prim)
| JArr (items : list json)
| JObj (fields : list (string * json)).
#[local] Set Elimination Schemes.

#[global] Instance prim_eq_dec : EqDecision prim.
Proof. solve_decision. Defined.

Definition JStr (s : string) : json := JPrim (PStr s).
Definition JNum (n : Z) : json := JPrim (PNum n).

Fixpoint assoc {V} (k : string) (kvs : list (string * V)) : option V :=
  match kvs with
  | [] => None
  | (k', v) :: rest => if decide (k = k') then Some v else assoc k rest
  end.

(** ** config.js *)

Inductive Url : Type :=
| ReviewsUrl (slug : string)                      (* REVIEWS.url(slug) *)
| ReviewsPageUrl (slug : string) (page : Z)       (* REVIEWS.urlPage(slug, page) *)
| CategoryUrl                                     (* the URL constant of discoverApps.js *)
| Href (href : string).                           (* a link read off a rendered page *)

(** The character that delimits attribute values in a selector. *)
Definition dq : string := String (Ascii.ascii_of_nat 34) EmptyString.

Module SEARCH.
(** [SEARCH] declares [url], [appCard], [appNameAttr], [appHandleAttr],
    [appLinkAttr] and [loadMoreButton], and nothing else: [SEARCH.maxPages]
    and [SEARCH.nextPageLink], which [collectAllApps] reads, are
    [undefined]. *)
Definition maxPages : option Z := None.
Definition nextPageLink : option string := None.
End SEARCH.

Module REVIEWS.
Definition url (slug : string) : Url := ReviewsUrl slug.
Definition urlPage (slug : string) (page : Z) : Url := ReviewsPageUrl slug page.
Definition nextPageLink : string :=
  "[data-pagination-controls] a[rel=" ++ dq ++ "next" ++ dq ++ "]".
End REVIEWS.

Module PAGINATION.
Definition reviewsPerPage : Z := 10.
End PAGINATION.

Module DELAY.
Definition minMs : Z := 3000.
Definition maxMs : Z := 5000.
End DELAY.

(** ** The world the program runs in *)

Inductive Error : Type :=
| NavigationError (msg : string)   (* page.goto: a timeout, a network failure *)
| SyntaxError                      (* JSON.parse on text that is not JSON *)
| TypeError                        (* a property of null, a call of a non-function *)
| SystemError (code : string).     (* fs: EACCES, EISDIR, ... *)

(** What is found at a path where the program expects a file.  A text
    that [JSON.parse] accepts is identified with the document it parses to,
    which is also the document [JSON.stringify] wrote.  What cannot be
    opened is there with the code of the error that opening it raises: a
    directory ([EISDIR]), a file the process has no access to ([EACCES]).
    A file that can be read can be written. *)
Inductive File : Type :=
| JsonFile (doc : json)
| Malformed                        (* text that JSON.parse rejects: empty, cut short *)
| Unreadable (code : string).      (* present, but opening it fails *)

(** What the selectors of [extractReviewsFromPage] find in one
    [div[data-merchant-review]] block. *)
Record ReviewBlock : Type := mkReviewBlock {
  rating : option Z;
  reviewDate : string;
  reviewText : string;
  reviewerName : string;
  reviewerLocation : string;
  usageDuration : string;
  developerResponse : string;
  developerResponseDate : string;
}.

Record App : Type := mkApp {
  name : string;
  slug : string;
  description : string;
  review_count : Z;
}.

Record FilteredApp : Type := mkFilteredApp {
  f_name : string;
  f_slug : string;
  f_reason : string;
  f_review_count : Z;
}.

(** A rendered document, seen through the queries the program makes of it.
    The closures the program evaluates inside the page are functions of the
    document alone; the document carries their results. *)
Record Document : Type := mkDocument {
  (* document.querySelector(selector): the href of the first match *)
  querySelector : string -> option string;
  (* the first closure of getTotalReviewCount: JSON-LD ratingCount *)
  jsonLdCount : option number;
  (* the second closure of getTotalReviewCount: the heading, never NaN *)
  headingCount : option Z;
  (* the review blocks, in document order *)
  reviewBlocks : list ReviewBlock;
  (* the closure of extractAppsFromPage: { apps, filtered } *)
  appCards : list App * list FilteredApp;
}.

Definition blank : Document :=
  mkDocument (fun _ => None) None None [] ([], []).

(** The remote's answer to one navigation. *)
Inductive Response : Type :=
| Rendered (d : Document)
| Failed (msg : string).

Inductive LogMsg : Type :=
| LogOpening (slug : string) (url : Url)
| LogTotal (totalCount totalPages : number)
| LogPage (pageNum : Z) (batch total : nat)
| LogAllScraped
| LogApp (i n : nat) (name slug : string)
| LogSearchPage (pageNum : Z)
| LogFound (batch newCount filtered total : nat)
| LogSkipped (f : FilteredApp)
| LogNoMorePages
| LogResuming (n : nat)
| LogNavigating (url : Url)
| LogNoApps
| LogDiscovered (n : nat).

Inductive Event : Type :=
| Launch (headless : bool)                 (* puppeteer.launch *)
| BrowserClose                             (* browser.close *)
| NewPage                                  (* browser.newPage *)
| PageClose                                (* page.close *)
| Goto (url : Url)                         (* page.goto, each attempt *)
| Scroll                                   (* window.scrollTo *)
| Delay (minMs maxMs : Z)                  (* delay: a random wait in [minMs, maxMs] *)
| Timeout (waitMs : Z)                     (* the wait of retry *)
| ConsoleWarn (attempt maxRetries : Z) (err : Error) (waitMs : Z)
| Log (msg : LogMsg)
| WriteFile (path : string) (doc : json).  (* fs.writeFileSync *)

Record World : Type := mkWorld {
  disk : gmap string File;      (* what is at a path; the directories on the
                                   way to a file are not listed *)
  remote : list Response;       (* the remote's answers, in the order asked *)
  document : Document;          (* what the open page shows *)
  events : list Event;          (* what happened so far, oldest first *)
}.

Definition emit (e : Event) (w : World) : World :=
  mkWorld (disk w) (remote w) (document w) (events w ++ [e]).

Definition JS (A : Type) : Type := M World Error A.

(** *** puppeteer *)

Definition launch (headless : bool) : JS unit := effect (emit (Launch headless)).

Definition browser_close : JS unit := effect (emit BrowserClose).

Definition newPage : JS unit :=
  effect (fun w => emit NewPage (mkWorld (disk w) (remote w) blank (events w))).

Definition page_close : JS unit := effect (emit PageClose).

(** [page.goto(url, ...)]: the next answer of the remote decides; once the
    remote has stopped answering every navigation times out. *)
Definition goto (url : Url) : JS unit :=
  fun w =>
    let w1 := emit (Goto url) w in
    match remote w1 with
    | Rendered d :: rest =>
        (Ret tt, mkWorld (disk w1) rest d (events w1))
    | Failed msg :: rest =>
        (Throw (NavigationError msg), mkWorld (disk w1) rest (document w1) (events w1))
    | [] => (Throw (NavigationError "timeout"), w1)
    end.

(** [page.$(selector)], as the test for null the program makes of it. *)
Definition page_has (selector : string) : JS bool :=
  fun w => (Ret (bool_decide (is_Some (querySelector (document w) selector))), w).

Definition scrollToBottom : JS unit := effect (emit Scroll).

(** ** utils.js *)

(** *** path

    [path.join] and [path.dirname] of Node, for POSIX paths.  [path.join]
    puts a separator between its non-empty arguments and normalises the
    result: empty segments and [.] go away, [..] takes the segment before
    it away. *)

Definition is_separator (c : Ascii.ascii) : bool :=
  Ascii.eqb c (Ascii.ascii_of_nat 47).   (* the character / *)

(** The segments between the separators of [path]; [segment] is what was
    read of the current one. *)
Fixpoint split_from (segment path : string) : list string :=
  match path with
  | EmptyString => [segment]
  | String c rest =>
      if is_separator c then segment :: split_from EmptyString rest
      else split_from (segment +:+ String c EmptyString) rest
  end.

Definition segments (path : string) : list string := split_from EmptyString path.

(** One step of [normalizeString]; [res] holds the segments kept so far,
    the last one first. *)
Definition normalize_step (allowAboveRoot : bool) (res : list string) (segment : string)
  : list string :=
  if decide (segment = EmptyString) then res
  else if decide (segment = ".") then res
  else if decide (segment = "..") then
    match res with
    | lastSegment :: before =>
        if decide (lastSegment = "..")
        then (if allowAboveRoot then ".." :: res else res)
        else before
    | [] => if allowAboveRoot then [".."] else []
    end
  else segment :: res.

Definition normalizeString (path : string) (allowAboveRoot : bool) : string :=
  String.concat "/" (rev (fold_left (normalize_step allowAboveRoot) (segments path) [])).

Definition isAbsolute (path : string) : bool :=
  match path with
  | String c _ => is_separator c
  | EmptyString => false
  end.

Fixpoint trailingSeparator (path : string) : bool :=
  match path with
  | EmptyString => false
  | String c EmptyString => is_separator c
  | String _ rest => trailingSeparator rest
  end.

Definition path_normalize (path : string) : string :=
  if decide (path = EmptyString) then "."
  else
    let normalized := normalizeString path (negb (isAbsolute path)) in
    if decide (normalized = EmptyString) then
      if isAbsolute path then "/"
      else if trailingSeparator path then "./" else "."
    else
      let normalized :=
        if trailingSeparator path then normalized +:+ "/" else normalized in
      if isAbsolute path then "/" +:+ normalized else normalized.

(** [path.join(dir, file)] *)
Definition path_join (dir file : string) : string :=
  let joined :=
    if decide (dir = EmptyString) then file
    else if decide (file = EmptyString) then dir
    else dir +:+ "/" +:+ file in
  if decide (joined = EmptyString) then "." else path_normalize joined.

Fixpoint drop_while (f : Ascii.ascii -> bool) (cs : list Ascii.ascii) : list Ascii.ascii :=
  match cs with
  | [] => []
  | c :: rest => if f c then drop_while f rest else cs
  end.

(** [path.dirname(path)]: the path without its last segment and the
    separators around it; the first character is never taken away. *)
Definition path_dirname (path : string) : string :=
  match String.list_ascii_of_string path with
  | [] => "."
  | first :: others =>
      let hasRoot := is_separator first in
      match drop_while (fun c => negb (is_separator c))
              (drop_while is_separator (rev others)) with
      | [] => if hasRoot then "/" else "."
      | _ :: before =>
          if hasRoot && bool_decide (before = []) then "//"
          else String.string_of_list_ascii (first :: rev before)
      end
  end.

(** Paths are written from the root of the project, the parent of
    [__dirname]: [DATA_DIR] is [path.join(__dirname, '..', 'data')].  A
    path that leaves the project with [..] is kept as it is written. *)
Definition DATA_DIR : string := "data".
Definition REVIEWS_DIR : string := path_join DATA_DIR "reviews".

(** A string without a separator. *)
Fixpoint no_separator (s : string) : bool :=
  match s with
  | EmptyString => true
  | String c rest => negb (is_separator c) && no_separator rest
  end.

(** The name of a file: one segment, which [path.join] leaves as it is. *)
Definition file_name (name : string) : bool :=
  no_separator name
  && negb (bool_decide (name = EmptyString \/ name = "." \/ name = "..")).

Definition delay (minMs maxMs : Z) : JS unit := effect (emit (Delay minMs maxMs)).

Definition log (msg : LogMsg) : JS unit := effect (emit (Log msg)).

(** [retry] as the two phases call it, with its default arguments; what
    [page.goto] throws are [Error] objects. *)
Definition retry_goto (url : Url) : JS unit :=
  _ <- retry readable
             (fun attempt maxRetries err waitMs =>
                emit (ConsoleWarn attempt maxRetries err waitMs))
             (fun waitMs => emit (Timeout waitMs))
             (goto url) 3 5000 ;;
  ret tt.

(**
<<
function loadCheckpoint(filename, defaultValue = null) {
  const filePath = path.join(DATA_DIR, filename);
  if (fs.existsSync(filePath)) {
    return JSON.parse(fs.readFileSync(filePath, 'utf-8'));
  }
  return defaultValue;
}
>> *)
Definition existsSync (filePath : string) : JS bool :=
  fun w => (Ret (bool_decide (is_Some (disk w !! filePath))), w).

Definition readFileSync_then_parse (filePath : string) : JS json :=
  fun w =>
    match disk w !! filePath with
    | Some (JsonFile doc) => (Ret doc, w)
    | Some Malformed => (Throw SyntaxError, w)
    | Some (Unreadable code) => (Throw (SystemError code), w)
    | None => (Throw (SystemError "ENOENT"), w)
    end.

Definition loadCheckpoint (filename : string) (defaultValue : json) : JS json :=
  let filePath := path_join DATA_DIR filename in
  present <- existsSync filePath ;;
  if present then readFileSync_then_parse filePath
  else ret defaultValue.

(** *** fs, writing

    [fs.mkdirSync(dir, { recursive: true })] makes the directories on the
    way to [dir] that are not there, and [dir] itself.  It throws when one
    of them is there and is not a directory. *)

(** The directories down to [dir], outermost first. *)
Definition directories_to (dir : string) : list string :=
  let segs := segments dir in
  filter (fun d => d <> EmptyString)
         ((fun k => String.concat "/" (take k segs)) <$> seq 1 (length segs)).

Definition is_directory (f : File) : bool :=
  match f with
  | Unreadable code => bool_decide (code = "EISDIR")
  | JsonFile _ | Malformed => false
  end.

Fixpoint mkdir_error (d : gmap string File) (dirs : list string) : option string :=
  match dirs with
  | [] => None
  | dir :: inner =>
      match d !! dir with
      | None => mkdir_error d inner
      | Some f =>
          if is_directory f then mkdir_error d inner
          else Some (match inner with [] => "EEXIST" | _ :: _ => "ENOTDIR" end)
      end
  end.

Definition mkdirSync (dir : string) : JS unit :=
  fun w =>
    match mkdir_error (disk w) (directories_to dir) with
    | Some code => (Throw (SystemError code), w)
    | None => (Ret tt, w)
    end.

(** A path whose last segment is empty, [.] or [..] names a directory. *)
Definition names_directory (filePath : string) : bool :=
  match last (segments filePath) with
  | Some segment =>
      bool_decide (segment = EmptyString \/ segment = "." \/ segment = "..")
  | None => true
  end.

(** [fs.writeFileSync(filePath, JSON.stringify(data, null, 2), 'utf-8')]
    replaces what a file holds, or makes the file.  It throws where there
    is no file to open: at a path that names a directory, and at what
    cannot be opened.  A write that throws leaves everything as it was. *)
Definition writeFileSync (filePath : string) (data : json) : JS unit :=
  fun w =>
    if names_directory filePath then (Throw (SystemError "EISDIR"), w)
    else
      match disk w !! filePath with
      | Some (Unreadable code) => (Throw (SystemError code), w)
      | _ =>
          (Ret tt,
           emit (WriteFile filePath data)
                (mkWorld (<[filePath := JsonFile data]> (disk w)) (remote w)
                         (document w) (events w)))
      end.

(**
<<
function saveCheckpoint(filename, data) {
  const filePath = path.join(DATA_DIR, filename);
  fs.mkdirSync(path.dirname(filePath), { recursive: true });
  fs.writeFileSync(filePath, JSON.stringify(data, null, 2), 'utf-8');
}
>> *)
Definition saveCheckpoint (filename : string) (data : json) : JS unit :=
  let filePath := path_join DATA_DIR filename in
  mkdirSync (path_dirname filePath) ;;;
  writeFileSync filePath data.

(** [saveAppReviews] does the same under [REVIEWS_DIR], with the slug as
    the name of the file. *)
Definition saveAppReviews (slug : string) (reviews : list json) : JS unit :=
  let filePath := path_join REVIEWS_DIR (slug ++ ".json") in
  mkdirSync (path_dirname filePath) ;;;
  writeFileSync filePath (JArr reviews).

(** The world after a write that went through. *)
Definition written (filePath : string) (data : json) (w : World) : World :=
  emit (WriteFile filePath data)
       (mkWorld (<[filePath := JsonFile data]> (disk w)) (remote w)
                (document w) (events w)).

(** ** scrapeReviews.js *)

Record Options : Type := mkOptions {
  headless : option bool;            (* default true *)
  resume : option bool;              (* default true *)
  startFromSlug : option string;     (* default null *)
  delayMin : option Z;               (* default DELAY.minMs *)
  delayMax : option Z;               (* default DELAY.maxMs *)
}.

Definition no_options : Options := mkOptions None None None None None.

(** [getTotalReviewCount]: the JSON-LD count if there is one (be it [NaN]),
    else the count of the heading, else [null]. *)
Definition count_hint (d : Document) : option number :=
  let fromJsonLd := jsonLdCount d in
  match fromJsonLd with
  | Some n => Some n
  | None =>
      let fromHeading := headingCount d in
      Int <$> fromHeading
  end.

Definition getTotalReviewCount : JS (option number) :=
  fun w => (Ret (count_hint (document w)), w).

(** The object [extractReviewsFromPage] pushes for one block. *)
Definition review_of_block (appName appSlug : string) (b : ReviewBlock) : json :=
  JObj [ ("app_name", JStr appName);
         ("app_slug", JStr appSlug);
         ("reviewer_name", JStr (reviewerName b));
         ("reviewer_location", JStr (reviewerLocation b));
         ("rating", match rating b with Some r => JNum r | None => JStr EmptyString end);
         ("review_date", JStr (reviewDate b));
         ("usage_duration", JStr (usageDuration b));
         ("review_text", JStr (reviewText b));
         ("developer_response", JStr (developerResponse b));
         ("developer_response_date", JStr (developerResponseDate b)) ].

Definition extractReviewsFromPage (appName appSlug : string) : JS (list json) :=
  fun w => (Ret (review_of_block appName appSlug <$> reviewBlocks (document w)), w).

(**
<<
    while (pageNum <= maxPages) {
      if (pageNum > 1) {
        const pageUrl = REVIEWS.urlPage(appSlug, pageNum);
        await retry(async () => { await page.goto(pageUrl, ...); });
        await delay(delayMin, delayMax);
      }
      const batch = await extractReviewsFromPage(page, appName, appSlug);
      allReviews.push(...batch);
      log(`  Page ${pageNum}: ...`);
      if (batch.length === 0) break;
      if (totalPages != null && pageNum >= totalPages) break;
      const nextLink = await page.$('[data-pagination-controls] a[rel="next"]');
      if (!nextLink) break;
      pageNum++;
    }
    return allReviews;
>> *)
Section ReviewPages.
Variables appName appSlug : string.
Variables delayMin delayMax : Z.
Variable totalPages : option number.
Variable maxPages : number.

(** The navigation that opens an iteration. *)
Definition enter_page (pageNum : Z) : JS unit :=
  if 1 <? pageNum then
    let pageUrl := REVIEWS.urlPage appSlug pageNum in
    retry_goto pageUrl ;;;
    delay delayMin delayMax
  else ret tt.

Fixpoint review_pages (fuel : nat) (pageNum : Z) (allReviews : list json)
  : JS (list json) :=
  match fuel with
  | O => fun w => (OutOfFuel, w)
  | Datatypes.S fuel' =>
      if num_le pageNum maxPages then
        enter_page pageNum ;;;
        batch <- extractReviewsFromPage appName appSlug ;;
        let allReviews := allReviews ++ batch in
        log (LogPage pageNum (length batch) (length allReviews)) ;;;
        if bool_decide (length batch = 0%nat) then ret allReviews
        else if match totalPages with
                | Some tp => num_ge pageNum tp
                | None => false
                end
        then ret allReviews
        else
          nextLink <- page_has REVIEWS.nextPageLink ;;
          if negb nextLink then ret allReviews
          else review_pages fuel' (pageNum + 1) allReviews
      else ret allReviews
  end.

End ReviewPages.

(** [extractReviewsFromPage] on a given document. *)
Definition reviews_on (appName appSlug : string) (d : Document) : list json :=
  review_of_block appName appSlug <$> reviewBlocks d.

(** [page.$(REVIEWS.nextPageLink)] finds a link on a given document. *)
Definition has_next (d : Document) : bool :=
  bool_decide (is_Some (querySelector d REVIEWS.nextPageLink)).

(** [totalPages] and [maxPages] of [scrapeAppReviews] for a given count. *)
Definition totalPages_for (totalCount : option number) : option number :=
  match totalCount with
  | Some n => Some (Math_ceil_div n PAGINATION.reviewsPerPage)
  | None => None
  end.

Definition maxPages_for (totalCount : option number) : number :=
  match totalPages_for totalCount with Some tp => tp | None => Int 500 end.

(** The loop runs at most [maxPages] times and tests its condition once
    more. *)
Definition page_budget (maxPages : number) : nat :=
  match maxPages with
  | Int z => Datatypes.S (Z.to_nat z)
  | NaN => 1
  end.

Definition scrapeAppReviews (app : App) (options : Options) : JS (list json) :=
  let delayMin := default DELAY.minMs (delayMin options) in
  let delayMax := default DELAY.maxMs (delayMax options) in
  let appName := name app in
  let appSlug := slug app in
  newPage ;;;
  finally
    (let url := REVIEWS.url appSlug in
     log (LogOpening appSlug url) ;;;
     retry_goto url ;;;
     delay delayMin delayMax ;;;
     totalCount <- getTotalReviewCount ;;
     let totalPages :=
       match totalCount with
       | Some n => Some (Math_ceil_div n PAGINATION.reviewsPerPage)
       | None => None
       end in
     match totalCount, totalPages with
     | Some n, Some tp => log (LogTotal n tp)
     | _, _ => ret tt
     end ;;;
     let maxPages := match totalPages with Some tp => tp | None => Int 500 end in
     review_pages appName appSlug delayMin delayMax totalPages maxPages
       (page_budget maxPages) 1 [])
    page_close.

(** *** The set of scraped slugs and the map from slug to reviews

    A [Set] keeps its members in insertion order and compares them by
    SameValueZero: primitives by value, objects by identity.  The objects
    of a parsed array are all distinct, and the program adds only strings,
    so two members that are objects are never the same one. *)
Definition same_value_zero (a b : json) : bool :=
  match a, b with
  | JPrim p, JPrim q => bool_decide (p = q)
  | _, _ => false
  end.

Definition set_has (x : json) (s : list json) : bool :=
  existsb (same_value_zero x) s.

Definition set_add (x : json) (s : list json) : list json :=
  if set_has x s then s else s ++ [x].

Definition new_Set (items : list json) : list json :=
  fold_left (fun s x => set_add x s) items [].

(** A key of the [Map]: [r.app_slug] is [undefined], a primitive, or an
    object, which is then a key of its own (named by the position of [r]
    in the checkpoint). *)
Inductive Key : Type :=
| KUndefined
| KPrim (p : prim)
| KRef (position : nat).

#[global] Instance Key_eq_dec : EqDecision Key.
Proof. solve_decision. Defined.

(** A [Map] keeps its entries in the order their keys were first set. *)
Definition map_has {V} (k : Key) (m : list (Key * V)) : bool :=
  existsb (fun kv => bool_decide (fst kv = k)) m.

Fixpoint map_set {V} (k : Key) (v : V) (m : list (Key * V)) : list (Key * V) :=
  match m with
  | [] => [(k, v)]
  | (k', v') :: rest =>
      if decide (k' = k) then (k, v) :: rest else (k', v') :: map_set k v rest
  end.

(** [bySlug.get(k).push(r)] *)
Fixpoint map_push {V} (k : Key) (r : V) (m : list (Key * list V)) : list (Key * list V) :=
  match m with
  | [] => []
  | (k', v') :: rest =>
      if decide (k' = k) then (k', v' ++ [r]) :: rest else (k', v') :: map_push k r rest
  end.

(** [r.app_slug] for the record at [position]; [None] when the read throws
    (a property of [null]). *)
Definition app_slug_of (position : nat) (r : json) : option Key :=
  match r with
  | JPrim PNull => None
  | JPrim _ => Some KUndefined
  | JArr _ => Some KUndefined
  | JObj fields =>
      match assoc "app_slug" fields with
      | None => Some KUndefined
      | Some (JPrim p) => Some (KPrim p)
      | Some _ => Some (KRef position)
      end
  end.

(**
<<
  allReviews.forEach((r) => {
    if (!bySlug.has(r.app_slug)) bySlug.set(r.app_slug, []);
    bySlug.get(r.app_slug).push(r);
  });
>> *)
Fixpoint group_from (position : nat) (records : list json)
    (bySlug : list (Key * list json)) : Outcome Error (list (Key * list json)) :=
  match records with
  | [] => Ret bySlug
  | r :: rest =>
      match app_slug_of position r with
      | None => Throw TypeError
      | Some k =>
          let bySlug := if negb (map_has k bySlug) then map_set k [] bySlug else bySlug in
          let bySlug := map_push k r bySlug in
          group_from (Datatypes.S position) rest bySlug
      end
  end.

(** Only an array has [forEach]. *)
Definition group_by_slug (allReviews : json) : JS (list (Key * list json)) :=
  fun w =>
    match allReviews with
    | JArr records => (group_from 0 records [], w)
    | _ => (Throw TypeError, w)
    end.

(** [bySlug.forEach((arr) => flat.push(...arr))] *)
Definition flatten (bySlug : list (Key * list json)) : list json :=
  concat (snd <$> bySlug).

Definition slug_key (slug : string) : Key := KPrim (PStr slug).

(** A string is truthy unless empty; [null] is falsy. *)
Definition truthy (s : option string) : bool :=
  match s with
  | Some EmptyString => false
  | Some _ => true
  | None => false
  end.

(** [apps.filter(...)] of [scrapeAllReviews]. *)
Definition toProcess_of (startFromSlug : option string) (scrapedSet : list json)
    (apps : list App) : list App :=
  if truthy startFromSlug then
    List.filter
      (fun a => bool_decide (Some (slug a) = startFromSlug)
                || negb (set_has (JStr (slug a)) scrapedSet)) apps
  else
    List.filter (fun a => negb (set_has (JStr (slug a)) scrapedSet)) apps.

(**
<<
    for (let i = 0; i < toProcess.length; i++) {
      const app = toProcess[i];
      log(`[${i + 1}/${toProcess.length}] ${app.name} (${app.slug})`);
      const reviews = await scrapeAppReviews(browser, app, options);
      bySlug.set(app.slug, reviews);
      scrapedSet.add(app.slug);
      saveCheckpoint('scraped_app_slugs.json', [...scrapedSet]);
      saveAppReviews(app.slug, reviews);
      const flat = [];
      bySlug.forEach((arr) => flat.push(...arr));
      saveCheckpoint('all_reviews.json', flat);
    }
>>
    The loop goes down the rest of [toProcess]; [i] counts what is done and
    [total] is [toProcess.length]. *)
Fixpoint scrape_each (options : Options) (total i : nat) (rest : list App)
    (scrapedSet : list json) (bySlug : list (Key * list json))
  : JS (list (Key * list json)) :=
  match rest with
  | [] => ret bySlug
  | app :: rest' =>
      log (LogApp (i + 1) total (name app) (slug app)) ;;;
      reviews <- scrapeAppReviews app options ;;
      let bySlug := map_set (slug_key (slug app)) reviews bySlug in
      let scrapedSet := set_add (JStr (slug app)) scrapedSet in
      saveCheckpoint "scraped_app_slugs.json" (JArr scrapedSet) ;;;
      saveAppReviews (slug app) reviews ;;;
      let flat := flatten bySlug in
      saveCheckpoint "all_reviews.json" (JArr flat) ;;;
      scrape_each options total (Datatypes.S i) rest' scrapedSet bySlug
  end.

Definition scrapeAllReviews (apps : list App) (options : Options) : JS json :=
  let headless := default true (headless options) in
  let resume := default true (resume options) in
  let startFromSlug := startFromSlug options in
  scraped <- (if resume then loadCheckpoint "scraped_app_slugs.json" (JArr [])
              else ret (JArr [])) ;;
  let scrapedSet := new_Set (match scraped with JArr items => items | _ => [] end) in
  let toProcess := toProcess_of startFromSlug scrapedSet apps in
  if bool_decide (length toProcess = 0%nat) && bool_decide (0 < length apps)%nat then
    log LogAllScraped ;;;
    loadCheckpoint "all_reviews.json" (JArr [])
  else
    launch headless ;;;
    allReviews <- (if resume then loadCheckpoint "all_reviews.json" (JArr [])
                   else ret (JArr [])) ;;
    bySlug <- group_by_slug allReviews ;;
    finally
      (bySlug <- scrape_each options (length toProcess) 0 toProcess scrapedSet bySlug ;;
       let flat := flatten bySlug in
       ret (JArr flat))
      browser_close.

(** ** discoverApps.js (third revision) *)

Definition extractAppsFromPage : JS (list App * list FilteredApp) :=
  fun w => (Ret (appCards (document w)), w).

(**
<<
    let newCount = 0;
    for (const app of batch) {
      if (!seen.has(app.slug)) {
        seen.add(app.slug);
        allApps.push(app);
        newCount++;
      }
    }
>> *)
Fixpoint merge_batch (batch : list App) (allApps : list App) (seen : list string)
    (newCount : nat) : list App * list string * nat :=
  match batch with
  | [] => (allApps, seen, newCount)
  | app :: rest =>
      if negb (bool_decide (slug app ∈ seen)) then
        merge_batch rest (allApps ++ [app]) (seen ++ [slug app]) (Datatypes.S newCount)
      else merge_batch rest allApps seen newCount
  end.

(** [filteredBatch.forEach(f => log(...))] *)
Fixpoint log_skipped (filteredBatch : list FilteredApp) : JS unit :=
  match filteredBatch with
  | [] => ret tt
  | f :: rest => log (LogSkipped f) ;;; log_skipped rest
  end.

(** A selector that is [undefined] is looked up as the text "undefined". *)
Definition selector_text (selector : option string) : string :=
  default "undefined" selector.

(** [nextLink ? nextLink.href : null] *)
Definition next_page_url (selector : option string) : JS (option string) :=
  fun w => (Ret (querySelector (document w) (selector_text selector)), w).

(**
<<
  while (pageNum <= maxPages) {
    log(`  Search page ${pageNum}...`);
    await page.evaluate(() => window.scrollTo(0, document.body.scrollHeight));
    await delay(1000, 2000);
    const result = await extractAppsFromPage(page);
    ... (the merge above, the log lines) ...
    if (newCount === 0 && pageNum > 1) break;
    const nextPageUrl = await page.evaluate(...SEARCH.nextPageLink)...;
    if (!nextPageUrl) {
      log(`  No more pages found.`);
      break;
    }
    pageNum++;
    await retry(async () => { await page.goto(nextPageUrl, ...); });
    await delay(DELAY.minMs, DELAY.maxMs);
  }
  return allApps;
>>
    The two values the loop takes from [SEARCH] are the section's variables;
    [collectAllApps] below gives them the values config.js gives them. *)
Section SearchPages.
Variable maxPages : option Z.
Variable nextPageLink : option string.

Fixpoint search_pages (fuel : nat) (pageNum : Z) (allApps : list App)
    (seen : list string) : JS (list App) :=
  match fuel with
  | O => fun w => (OutOfFuel, w)
  | Datatypes.S fuel' =>
      if le_maybe_undefined pageNum maxPages then
        log (LogSearchPage pageNum) ;;;
        scrollToBottom ;;;
        delay 1000 2000 ;;;
        result <- extractAppsFromPage ;;
        let batch := fst result in
        let filteredBatch := snd result in
        let '(allApps, seen, newCount) := merge_batch batch allApps seen 0 in
        log (LogFound (length batch) newCount (length filteredBatch) (length allApps)) ;;;
        (if bool_decide (0 < length filteredBatch)%nat then log_skipped filteredBatch
         else ret tt) ;;;
        if bool_decide (newCount = 0%nat) && (1 <? pageNum) then ret allApps
        else
          nextPageUrl <- next_page_url nextPageLink ;;
          if negb (truthy nextPageUrl) then
            log LogNoMorePages ;;;
            ret allApps
          else
            let pageNum := pageNum + 1 in
            retry_goto (Href (default EmptyString nextPageUrl)) ;;;
            delay DELAY.minMs DELAY.maxMs ;;;
            search_pages fuel' pageNum allApps seen
      else ret allApps
  end.

Definition search_budget : nat :=
  match maxPages with
  | Some z => Datatypes.S (Z.to_nat z)
  | None => 1
  end.

Definition collect_with : JS (list App) := search_pages search_budget 1 [] [].

End SearchPages.

Definition collectAllApps : JS (list App) :=
  collect_with SEARCH.maxPages SEARCH.nextPageLink.

(**
<<
    const unique = [];
    const bySlug = new Map();
    for (const a of apps) {
      if (!bySlug.has(a.slug)) {
        bySlug.set(a.slug, a);
        unique.push(a);
      }
    }
>> *)
Fixpoint unique_from (apps : list App) (bySlug : list (string * App))
    (unique : list App) : list App :=
  match apps with
  | [] => unique
  | a :: rest =>
      if negb (bool_decide (is_Some (assoc (slug a) bySlug))) then
        unique_from rest (bySlug ++ [(slug a, a)]) (unique ++ [a])
      else unique_from rest bySlug unique
  end.

Definition unique_by_slug (apps : list App) : list App := unique_from apps [] [].

(** The object [extractAppsFromPage] pushes for one card. *)
Definition json_of_app (a : App) : json :=
  JObj [ ("name", JStr (name a));
         ("slug", JStr (slug a));
         ("description", JStr (description a));
         ("review_count", JNum (review_count a)) ].

(** [checkpoint && Array.isArray(checkpoint) && checkpoint.length > 0] *)
Definition nonempty_array (checkpoint : json) : bool :=
  match checkpoint with
  | JArr (_ :: _) => true
  | _ => false
  end.

(** [discoverApps] returns the checkpoint as it was loaded, or else the
    apps it found, which it has saved as the new checkpoint. *)
Definition discoverApps (options : Options) : JS json :=
  let headless := default true (headless options) in
  let resume := default true (resume options) in
  checkpoint <- (if resume then loadCheckpoint "apps.json" (JPrim PNull)
                 else ret (JPrim PNull)) ;;
  if nonempty_array checkpoint then
    log (LogResuming (match checkpoint with JArr items => length items | _ => 0%nat end)) ;;;
    ret checkpoint
  else
    launch headless ;;;
    finally
      (newPage ;;;
       let url := CategoryUrl in
       log (LogNavigating url) ;;;
       retry_goto url ;;;
       delay DELAY.minMs DELAY.maxMs ;;;
       apps <- collectAllApps ;;
       apps <- (if bool_decide (length apps = 0%nat) then
                  log LogNoApps ;;;
                  result <- extractAppsFromPage ;;
                  ret (apps ++ fst result)
                else ret apps) ;;
       let unique := unique_by_slug apps in
       log (LogDiscovered (length unique)) ;;;
       saveCheckpoint "apps.json" (JArr (json_of_app <$> unique)) ;;;
       ret (JArr (json_of_app <$> unique)))
      browser_close.

(** ** Reading a run

    What a computation adds to [events] is all that statements about runs
    need: a computation [emits Q] when every event it adds satisfies [Q],
    whatever the state it starts from and however it ends. *)

Definition emits {A} (Q : Event -> Prop) (m : JS A) : Prop :=
  forall w r w', m w = (r, w') ->
    exists ev, events w' = events w ++ ev /\ Forall Q ev.

(** A computation is total when the budget of its loops never runs out. *)
Definition total {A} (m : JS A) : Prop :=
  forall w, fst (m w) <> OutOfFuel.

(** The writes of a run, in order. *)
Fixpoint writes (ev : list Event) : list (string * json) :=
  match ev with
  | [] => []
  | WriteFile path doc :: ev' => (path, doc) :: writes ev'
  | _ :: ev' => writes ev'
  end.

(** The data directory after the given writes. *)
Definition replay (ws : list (string * json)) (d : gmap string File) : gmap string File :=
  fold_left (fun d w => <[fst w := JsonFile (snd w)]> d) ws d.

(** The world after the given writes went through. *)
Definition after_writes (ws : list (string * json)) (w : World) : World :=
  fold_left (fun w pw => written (fst pw) (snd pw) w) ws w.

Definition write_event (pw : string * json) : Event := WriteFile (fst pw) (snd pw).

(** The three writes of one turn of the loop of [scrapeAllReviews], in the
    order the loop makes them. *)
Definition turn (appSlug : string) (scrapedSet reviews flat : list json)
  : list (string * json) :=
  [ (path_join DATA_DIR "scraped_app_slugs.json", JArr scrapedSet);
    (path_join REVIEWS_DIR (appSlug ++ ".json"), JArr reviews);
    (path_join DATA_DIR "all_reviews.json", JArr flat) ].

(** The data directory that a process killed after its first [k] writes
    leaves behind. *)
Definition disk_after_crash (k : nat) (before : gmap string File) (ev : list Event)
  : gmap string File :=
  replay (take k (writes ev)) before.

(** The number of records in each version of the combined checkpoint that
    a run writes, in order. *)
Fixpoint combined_sizes (ev : list Event) : list nat :=
  match ev with
  | [] => []
  | WriteFile path (JArr records) :: ev' =>
      if decide (path = path_join DATA_DIR "all_reviews.json")
      then length records :: combined_sizes ev'
      else combined_sizes ev'
  | _ :: ev' => combined_sizes ev'
  end.

(** The slugs of the apps a run started on, in order. *)
Fixpoint started (ev : list Event) : list string :=
  match ev with
  | [] => []
  | Log (LogApp _ _ _ slug) :: ev' => slug :: started ev'
  | _ :: ev' => started ev'
  end.

(** The pages of reviews a run extracted, in order. *)
Fixpoint pages_read (ev : list Event) : list Z :=
  match ev with
  | [] => []
  | Log (LogPage pageNum _ _) :: ev' => pageNum :: pages_read ev'
  | _ :: ev' => pages_read ev'
  end.

(** The navigations of a run, each attempt, in order. *)
Fixpoint navigations (ev : list Event) : list Url :=
  match ev with
  | [] => []
  | Goto url :: ev' => url :: navigations ev'
  | _ :: ev' => navigations ev'
  end.

(** [pageNum] is within the number of pages that the count [hint] gives,
    if there is a hint. *)
Definition within_hint (hint : option number) (pageNum : Z) : Prop :=
  forall n, hint = Some n ->
    num_le pageNum (Math_ceil_div n PAGINATION.reviewsPerPage) = true.

(** The events of scraping the app [appSlug] when the count read off its
    first page is [hint]. *)
Definition app_event (appSlug : string) (hint : option number) (e : Event) : Prop :=
  match e with
  | NewPage | PageClose | Delay _ _ | Timeout _ | ConsoleWarn _ _ _ _ => True
  | Goto (ReviewsUrl s) => s = appSlug
  | Goto (ReviewsPageUrl s p) => s = appSlug /\ 2 <= p /\ within_hint hint p
  | Goto _ => False
  | Log (LogOpening s _) => s = appSlug
  | Log (LogTotal n tp) =>
      hint = Some n /\ tp = Math_ceil_div n PAGINATION.reviewsPerPage
  | Log (LogPage p _ _) => 1 <= p /\ within_hint hint p
  | Log _ => False
  | Launch _ | BrowserClose | Scroll | WriteFile _ _ => False
  end.

(** A computation [scrapes appSlug] when what it adds to [events] are
    events of scraping that app, for the count it read. *)
Definition scrapes {A} (appSlug : string) (m : JS A) : Prop :=
  forall w r w', m w = (r, w') ->
    exists hint ev, events w' = events w ++ ev /\ Forall (app_event appSlug hint) ev.

(** ** Sample data *)

Definition sample_block (reviewer : string) : ReviewBlock :=
  mkReviewBlock (Some 5) "January 5, 2024" "Works well" reviewer "Canada"
    "3 months using the app" EmptyString EmptyString.

(** A page of reviews with [n] blocks, the given count in its JSON-LD and,
    if [next], a link to the next page. *)
Definition review_page (count : option number) (n : nat) (next : bool) : Document :=
  mkDocument
    (fun selector =>
       if decide (selector = REVIEWS.nextPageLink)
       then (if next then Some "/printful/reviews?page=next" else None)
       else None)
    count None (replicate n (sample_block "A. Merchant")) ([], []).

Definition printful : App := mkApp "Printful" "printful" EmptyString 25.

Definition fresh_world (answers : list Response) : World :=
  mkWorld ∅ answers blank [].

(** A count of 25 and a next link on every page, the fourth included. *)
Definition world_25 : World :=
  fresh_world [ Rendered (review_page (Some (Int 25)) 10 true);
                Rendered (review_page (Some (Int 25)) 10 true);
                Rendered (review_page (Some (Int 25)) 5 true);
                Rendered (review_page (Some (Int 25)) 10 true) ].

(** A count of 50, and a second page without a single review. *)
Definition world_empty_second : World :=
  fresh_world [ Rendered (review_page (Some (Int 50)) 10 true);
                Rendered (review_page (Some (Int 50)) 0 true);
                Rendered (review_page (Some (Int 50)) 10 true) ].

(** A data directory whose combined checkpoint was cut short while it was
    being written. *)
Definition world_malformed : World :=
  mkWorld {[ path_join DATA_DIR "all_reviews.json" := Malformed ]} [] blank [].

(** The apps a resumed run has left to do when the slugs in [scraped] are
    done. *)
Definition remaining (scraped : list string) (apps : list App) : list App :=
  List.filter (fun a => negb (bool_decide (slug a ∈ scraped))) apps.

(** The same when [startFromSlug] is given: the app of that slug is left to
    do as well, scraped or not. *)
Definition remaining_from (startFromSlug : option string) (scraped : list string)
    (apps : list App) : list App :=
  List.filter (fun a => negb (bool_decide (slug a ∈ scraped))
                        || (truthy startFromSlug
                            && bool_decide (Some (slug a) = startFromSlug))) apps.

(** Three apps, two of which a previous run has scraped. *)
Definition app_A : App := mkApp "App A" "A" EmptyString 12.
Definition app_B : App := mkApp "App B" "B" EmptyString 7.
Definition app_C : App := mkApp "App C" "C" EmptyString 3.

Definition world_resumed : World :=
  mkWorld {[ path_join DATA_DIR "scraped_app_slugs.json" := JsonFile (JArr [JStr "A"; JStr "B"]) ]}
          [ Rendered (review_page None 2 false) ] blank [].

(** The same two scraped, and a run asked to start from [A]. *)
Definition from_A : Options := mkOptions None None (Some "A") None None.

Definition world_restarted : World :=
  mkWorld {[ path_join DATA_DIR "scraped_app_slugs.json" := JsonFile (JArr [JStr "A"; JStr "B"]) ]}
          [ Rendered (review_page None 1 false);
            Rendered (review_page None 2 false) ] blank [].

(** All three scraped, and the combined checkpoint of that run. *)
Definition world_all_done : World :=
  mkWorld {[ path_join DATA_DIR "scraped_app_slugs.json"
               := JsonFile (JArr [JStr "A"; JStr "B"; JStr "C"]);
             path_join DATA_DIR "all_reviews.json"
               := JsonFile (JArr [review_of_block "App A" "A" (sample_block "A. Merchant")]) ]}
          [ Rendered (review_page None 2 false) ] blank [].







(** A combined checkpoint that holds two reviews of an app which the set
    of scraped slugs does not list; this time the app has no reviews. *)
Definition world_preexisting : World :=
  mkWorld {[ path_join DATA_DIR "all_reviews.json"
               := JsonFile (JArr [ review_of_block "Printify" "printify" (sample_block "B. Seller");
                                   review_of_block "Printify" "printify" (sample_block "C. Buyer") ]) ]}
          [ Rendered (review_page None 1 false);
            Rendered (review_page None 0 false) ] blank [].

(** [A] is scraped and its review is in the combined checkpoint; [B] and
    [C] are still to do. *)
Definition world_A_done : World :=
  mkWorld {[ path_join DATA_DIR "scraped_app_slugs.json" := JsonFile (JArr [JStr "A"]);
             path_join DATA_DIR "all_reviews.json"
               := JsonFile (JArr [review_of_block "App A" "A" (sample_block "A. Merchant")]) ]}
          [ Rendered (review_page None 2 false);
            Rendered (review_page None 1 false) ] blank [].

(** One app with two reviews on its first page and none on the second. *)
Definition world_two_reviews : World :=
  fresh_world [ Rendered (review_page None 2 true);
                Rendered (review_page None 0 false) ].

Definition two_reviews : list json :=
  reviews_on "Printful" "printful" (review_page None 2 true).

(** The same remote, met by the run that follows a crash. *)
Definition world_after_crash (left_behind : gmap string File) : World :=
  mkWorld left_behind
          [ Rendered (review_page None 2 true);
            Rendered (review_page None 0 false) ] blank [].

(** The catalog: two pages of cards with one app in common, the first with
    a link to the second. *)
Definition app_a : App := mkApp "Alpha Prints" "a" "Print on demand for all" 10.
Definition app_b : App := mkApp "Beta Prints" "b" "Custom products, printed" 20.
Definition app_c : App := mkApp "Gamma Prints" "c" "Print and ship worldwide" 30.

Definition next_link : string := "a[rel=" ++ dq ++ "next" ++ dq ++ "]".

Definition listing_page (cards : list App) (next : option string) : Document :=
  mkDocument
    (fun selector => if decide (selector = next_link) then next else None)
    None None [] (cards, []).

Definition world_catalog : World :=
  fresh_world [ Rendered (listing_page [app_a; app_b] (Some "/categories/pod/all?page=2"));
                Rendered (listing_page [app_b; app_c] None) ].

(** ** More of the code

    What follows serves the properties proved beyond the claims. *)



(** The events of [scrapeAppReviews] before its loop: the log line, the
    attempts at the first navigation, the delay, the count that was read. *)
Definition opening_event (appSlug : string) (e : Event) : Prop :=
  match e with
  | Log (LogOpening s _) => s = appSlug
  | Log (LogTotal _ _) => True
  | Goto (ReviewsUrl s) => s = appSlug
  | Delay _ _ | Timeout _ | ConsoleWarn _ _ _ _ => True
  | _ => False
  end.

(** The events of its loop: the attempts at the navigations to the pages
    after the first, the delays, one log line for each page read. *)
Definition paging_event (appSlug : string) (e : Event) : Prop :=
  match e with
  | Log (LogPage _ _ _) => True
  | Goto (ReviewsPageUrl s _) => s = appSlug
  | Delay _ _ | Timeout _ | ConsoleWarn _ _ _ _ => True
  | _ => False
  end.

(** A record of the app: what [extractReviewsFromPage] makes of a block. *)
Definition record_of (appName appSlug : string) (r : json) : Prop :=
  exists b, r = review_of_block appName appSlug b.


(** A remote that does not answer at all. *)
Definition world_down : World := fresh_world [].

(** A computation [keeps_disk] when no run of it changes a file. *)
Definition keeps_disk {A} (m : JS A) : Prop :=
  forall w r w', m w = (r, w') -> disk w' = disk w.

Definition scraped_path : string := path_join DATA_DIR "scraped_app_slugs.json".
Definition combined_path : string := path_join DATA_DIR "all_reviews.json".
Definition apps_path : string := path_join DATA_DIR "apps.json".
Definition per_app_path (appSlug : string) : string :=
  path_join REVIEWS_DIR (appSlug ++ ".json").

(** The set of slugs once the loop has completed the apps of [done]. *)
Definition mark_all (done : list App) (scrapedSet : list json) : list json :=
  fold_left (fun s a => set_add (JStr (slug a)) s) done scrapedSet.

(** The files [scrapeAllReviews] may write for the apps of [apps]. *)
Definition review_file (apps : list App) (path : string) : Prop :=
  path = scraped_path \/ path = combined_path
  \/ exists a, a ∈ apps /\ path = per_app_path (slug a).

(** [t] is the three writes of a turn of the loop for the app [a]. *)
Definition turn_for (a : App) (t : list (string * json)) : Prop :=
  exists scrapedSet reviews flat, t = turn (slug a) scrapedSet reviews flat.

(** [t] is what a turn for [a] wrote when it did not get to its end: none
    of the three writes, or the first, or the first two. *)
Definition cut_turn_for (a : App) (t : list (string * json)) : Prop :=
  exists scrapedSet reviews flat k,
    (k < 3)%nat /\ t = take k (turn (slug a) scrapedSet reviews flat).

(** No set of scraped slugs yet, and a combined checkpoint cut short. *)
Definition world_cut_short : World :=
  mkWorld {[ combined_path := Malformed ]} [ Rendered (review_page None 2 false) ] blank [].

(** A remote that answers for the first app and then no more. *)
Definition world_one_answer : World :=
  fresh_world [ Rendered (review_page None 2 false) ].

(** The file of the app [B] is a directory. *)
Definition world_blocked : World :=
  mkWorld {[ per_app_path "B" := Unreadable "EISDIR" ]}
          [ Rendered (review_page None 2 false) ] blank [].

(** The listing pages a run of the discovery loop searched, in order. *)
Fixpoint pages_searched (ev : list Event) : list Z :=
  match ev with
  | [] => []
  | Log (LogSearchPage pageNum) :: ev' => pageNum :: pages_searched ev'
  | _ :: ev' => pages_searched ev'
  end.

(** The catalog of [world_catalog] once the first page is shown. *)
Definition world_catalog_shown : World :=
  mkWorld ∅ [Rendered (listing_page [app_b; app_c] None)]
          (listing_page [app_a; app_b] (Some "/categories/pod/all?page=2")) [].

(** [bySlug.get(k)] *)
Fixpoint map_get {V} (k : Key) (m : list (Key * V)) : option V :=
  match m with
  | [] => None
  | (k', v) :: rest => if decide (k' = k) then Some v else map_get k rest
  end.

(** The records of a checkpoint that have [k] as their [app_slug], in the
    order of the checkpoint; its first record is the one at [position]. *)
Fixpoint records_with (k : Key) (position : nat) (records : list json) : list json :=
  match records with
  | [] => []
  | r :: rest =>
      if decide (app_slug_of position r = Some k)
      then r :: records_with k (Datatypes.S position) rest
      else records_with k (Datatypes.S position) rest
  end.

(** What is at a path, whatever it holds: nothing, a file, or something
    that cannot be opened. *)
Inductive Kind : Type :=
| Absent
| RegularFile
| Unopenable (code : string).

Definition kind_at (d : gmap string File) (path : string) : Kind :=
  match d !! path with
  | None => Absent
  | Some (Unreadable code) => Unopenable code
  | Some (JsonFile _) | Some Malformed => RegularFile
  end.

(** Two states of the world that differ at most in what the files hold:
    the files are at the same places. *)
Definition same_but_contents (w1 w2 : World) : Prop :=
  remote w1 = remote w2 /\ document w1 = document w2 /\ events w1 = events w2
  /\ forall path, kind_at (disk w1) path = kind_at (disk w2) path.

(** A computation that does not read the files: what it returns, and what
    it does to the world, do not depend on what the files hold. *)
Definition blind {A} (m : JS A) : Prop :=
  forall w1 w2, same_but_contents w1 w2 ->
    fst (m w1) = fst (m w2) /\ same_but_contents (snd (m w1)) (snd (m w2)).

(** The world of [world_preexisting], its combined checkpoint cut short. *)
Definition world_preexisting_cut : World :=
  mkWorld {[ path_join DATA_DIR "all_reviews.json" := Malformed ]}
          [ Rendered (review_page None 1 false);
            Rendered (review_page None 0 false) ] blank [].

Definition fresh_start : Options := mkOptions None (Some false) None None None.

(** * Properties *)

(** ** [retry] *)

Section RetryFacts.
Context {S E A : Type}.
Variable message_throws : E -> option E.
Variable console_warn : Z -> Z -> E -> Z -> S -> S.
Variable setTimeout : Z -> S -> S.
Variable fn : M S E A.
Variables maxRetries baseDelayMs : Z.

(** Past the bound the loop condition is false at once. *)
Lemma retry_from_past_bound fuel attempt s :
  maxRetries < attempt ->
  retry_from message_throws console_warn setTimeout fn maxRetries baseDelayMs
    (Datatypes.S fuel) attempt s = (Ret None, s).
Proof.
  intros Hlt. simpl.
  destruct (Z.leb_spec attempt maxRetries) as [Hle|_]; [lia|reflexivity].
Qed.

(** The budget [retry] gives its loop is never used up by the loop itself. *)
Lemma retry_from_fuel fuel attempt s :
  (Z.to_nat (maxRetries + 1 - attempt) < fuel)%nat ->
  (forall s0, fst (fn s0) <> OutOfFuel) ->
  fst (retry_from message_throws console_warn setTimeout fn maxRetries baseDelayMs
         fuel attempt s) <> OutOfFuel.
Proof.
  intros Hfuel Hfn. revert attempt s Hfuel.
  induction fuel as [|fuel IH]; intros attempt s Hfuel; [lia|].
  simpl. destruct (Z.leb_spec attempt maxRetries) as [Hle|Hgt]; [|discriminate].
  specialize (Hfn s). destruct (fn s) as [[a|err|] s1]; simpl in *;
    [discriminate| |congruence].
  destruct (Z.eqb_spec attempt maxRetries) as [->|Hne]; [discriminate|].
  destruct (message_throws err); [discriminate|].
  apply IH. lia.
Qed.

End RetryFacts.

(** One failed attempt that is not the last, with an error whose message
    can be read: the operation is invoked, the warning is printed, the
    delay asked of [setTimeout] is [baseDelayMs * 2^(attempt-1)], and the
    loop goes on with the next attempt. *)
Lemma observed_retry_step {S0 E A} (mt : E -> option E) (f : M S0 E A)
    n base fuel k s tr e s1 :
  f s = (Throw e, s1) -> mt e = None -> k < n ->
  retry_from mt note_warn note_wait (probe f) n base (Datatypes.S fuel) k (s, tr)
  = retry_from mt note_warn note_wait (probe f) n base fuel (k + 1)
      (s1, tr ++ [Invoked (Some e); Warned k n e (base * 2 ^ (k - 1));
                  Waited (base * 2 ^ (k - 1))]).
Proof.
  intros Hf Hm Hk. simpl. rewrite Hf.
  destruct (Z.leb_spec k n) as [_|?]; [|lia].
  destruct (Z.eqb_spec k n) as [?|_]; [lia|].
  rewrite Hm. simpl. rewrite <- !app_assoc. reflexivity.
Qed.

(** A failed attempt that is not the last, with an error whose message
    cannot be read: the [catch] block throws, and [retry] with it. *)
Lemma observed_retry_unreadable {S0 E A} (mt : E -> option E) (f : M S0 E A)
    n base fuel k s tr e s1 e' :
  f s = (Throw e, s1) -> mt e = Some e' -> k < n ->
  retry_from mt note_warn note_wait (probe f) n base (Datatypes.S fuel) k (s, tr)
  = (Throw e', (s1, tr ++ [Invoked (Some e)])).
Proof.
  intros Hf Hm Hk. simpl. rewrite Hf.
  destruct (Z.leb_spec k n) as [_|?]; [|lia].
  destruct (Z.eqb_spec k n) as [?|_]; [lia|].
  rewrite Hm. reflexivity.
Qed.

(** The last failed attempt: the error goes to the caller as it is. *)
Lemma observed_retry_last {S0 E A} (mt : E -> option E) (f : M S0 E A)
    n base fuel s tr e s1 :
  f s = (Throw e, s1) ->
  retry_from mt note_warn note_wait (probe f) n base (Datatypes.S fuel) n (s, tr)
  = (Throw e, (s1, tr ++ [Invoked (Some e)])).
Proof.
  intros Hf. simpl. rewrite Hf, Z.leb_refl, Z.eqb_refl. reflexivity.
Qed.

Lemma invocations_app {E} (tr1 tr2 : list (Obs E)) :
  invocations (tr1 ++ tr2) = (invocations tr1 + invocations tr2)%nat.
Proof. unfold invocations. rewrite filter_app, length_app. reflexivity. Qed.

Lemma last_failure_cons_invoked {E} (o : Obs E) (tr : list (Obs E)) :
  (0 < invocations tr)%nat -> last_failure (o :: tr) = last_failure tr.
Proof.
  unfold last_failure, invocations. intros Hpos.
  rewrite filter_cons. destruct (decide (is_invocation o = true)); [|reflexivity].
  destruct (filter _ tr) as [|o' l] eqn:Hl; [simpl in Hpos; lia|].
  reflexivity.
Qed.

(** The run of [retry] from attempt [k] on, for an operation that fails
    whenever it is invoked, with errors whose message can be read. *)
Lemma observed_retry_from_exhausted {S0 E A} (mt : E -> option E) (f : M S0 E A)
    (n base : Z) :
  (forall s, exists e s1, f s = (Throw e, s1) /\ mt e = None) ->
  forall (fuel : nat) (k : Z) (s : S0) (tr : list (Obs E)),
    k <= n -> (Z.to_nat (n - k) < fuel)%nat ->
    exists e s' tr',
      retry_from mt note_warn note_wait (probe f) n base fuel k (s, tr)
      = (Throw e, (s', tr ++ tr'))
      /\ invocations tr' = Z.to_nat (n + 1 - k)
      /\ waits tr' = (fun j => base * 2 ^ (j - 1)) <$> seqZ k (n - k)
      /\ gaps tr' = [] :: ((fun j => [base * 2 ^ (j - 1)]) <$> seqZ k (n - k))
      /\ last_failure tr' = Some e.
Proof.
  intros Hfail fuel. induction fuel as [|fuel IH]; intros k s tr Hk Hfuel; [lia|].
  destruct (Hfail s) as (e & s1 & Hf & Hm).
  destruct (decide (k = n)) as [->|Hne].
  - exists e, s1, [Invoked (Some e)].
    rewrite (observed_retry_last mt f n base fuel s tr e s1 Hf).
    rewrite Z.sub_diag, seqZ_nil by lia.
    repeat split; try reflexivity.
    unfold invocations. simpl. lia.
  - rewrite (observed_retry_step mt f n base fuel k s tr e s1 Hf Hm) by lia.
    destruct (IH (k + 1) s1
                (tr ++ [Invoked (Some e); Warned k n e (base * 2 ^ (k - 1));
                        Waited (base * 2 ^ (k - 1))]))
      as (e' & s' & tr' & Hrun & Hinv & Hwaits & Hgaps & Hlast); [lia|lia|].
    exists e', s',
      ([Invoked (Some e); Warned k n e (base * 2 ^ (k - 1));
        Waited (base * 2 ^ (k - 1))] ++ tr').
    rewrite Hrun, <- app_assoc.
    rewrite (seqZ_cons k (n - k)) by lia.
    replace (Z.succ k) with (k + 1) by lia.
    replace (Z.pred (n - k)) with (n - (k + 1)) by lia.
    split; [reflexivity|]. split; [|split; [|split]].
    + rewrite invocations_app, Hinv. unfold invocations. simpl. lia.
    + simpl. rewrite Hwaits. reflexivity.
    + simpl. rewrite Hgaps. reflexivity.
    + change ([Invoked (Some e); Warned k n e (base * 2 ^ (k - 1));
               Waited (base * 2 ^ (k - 1))] ++ tr')
        with (Invoked (Some e) :: Warned k n e (base * 2 ^ (k - 1))
              :: Waited (base * 2 ^ (k - 1)) :: tr').
      assert (Hpos : (0 < invocations tr')%nat) by (rewrite Hinv; lia).
      rewrite last_failure_cons_invoked.
      * rewrite last_failure_cons_invoked.
        -- rewrite last_failure_cons_invoked; assumption.
        -- unfold invocations in *. simpl. exact Hpos.
      * unfold invocations in *. simpl. exact Hpos.
Qed.

(** C5. For every operation that fails on all attempts, with errors whose
    message the warning can read (as it can of every [Error] object),
    [retry(operation, maxAttempts, baseDelayMs)] invokes the operation exactly
    [maxAttempts] times, asks [setTimeout] for a delay of
    [baseDelayMs * 2^(attempt-1)] milliseconds between attempt [attempt] and
    the next one and for nothing else (no jitter), and then throws the error
    of the final attempt, unchanged.  With [maxAttempts = 3] and
    [baseDelayMs = 1000] the delays are 1000 then 2000.  The claim speaks of
    attempts that were made, so [maxAttempts] is at least 1 (for smaller
    values see C10). *)
Theorem retry_exhausted {S0 E A} (message_throws : E -> option E) (f : M S0 E A)
    (maxAttempts baseDelayMs : Z) (s : S0) :
  (forall s0, exists e s1, f s0 = (Throw e, s1) /\ message_throws e = None) ->
  1 <= maxAttempts ->
  exists e s' tr,
    observed_retry message_throws f maxAttempts baseDelayMs (s, []) = (Throw e, (s', tr))
    /\ invocations tr = Z.to_nat maxAttempts
    /\ waits tr
       = (fun attempt => baseDelayMs * 2 ^ (attempt - 1)) <$> seqZ 1 (maxAttempts - 1)
    /\ gaps tr
       = [] :: ((fun attempt => [baseDelayMs * 2 ^ (attempt - 1)])
                  <$> seqZ 1 (maxAttempts - 1))
    /\ last_failure tr = Some e
    /\ (maxAttempts = 3 -> baseDelayMs = 1000 -> waits tr = [1000; 2000]).
Proof.
  intros Hfail Hpos. unfold observed_retry, retry.
  destruct (observed_retry_from_exhausted message_throws f maxAttempts baseDelayMs Hfail
              (Datatypes.S (Z.to_nat maxAttempts)) 1 s [])
    as (e & s' & tr & Hrun & Hinv & Hwaits & Hgaps & Hlast); [lia|lia|].
  exists e, s', tr. simpl in Hrun.
  split; [exact Hrun|]. split; [rewrite Hinv; f_equal; lia|].
  split; [exact Hwaits|]. split; [exact Hgaps|]. split; [exact Hlast|].
  intros -> ->. rewrite Hwaits. reflexivity.
Qed.

Lemma retry_exhausted_witness :
  exists e s' tr,
    observed_retry readable always_failing 3 1000 (0%nat, []) = (Throw e, (s', tr))
    /\ invocations tr = Z.to_nat 3
    /\ waits tr = (fun attempt => 1000 * 2 ^ (attempt - 1)) <$> seqZ 1 (3 - 1)
    /\ gaps tr = [] :: ((fun attempt => [1000 * 2 ^ (attempt - 1)]) <$> seqZ 1 (3 - 1))
    /\ last_failure tr = Some e
    /\ (3 = 3 -> 1000 = 1000 -> waits tr = [1000; 2000]).
Proof.
  apply (retry_exhausted readable always_failing 3 1000 0%nat).
  - intros s0. exists (Datatypes.S s0), (Datatypes.S s0). split; reflexivity.
  - lia.
Defined.

(** The same run, evaluated: three invocations, 1000 ms then 2000 ms, and
    the third error comes out. *)
Example retry_3_1000 :
  observed_retry readable always_failing 3 1000 (0%nat, [])
  = (Throw 3%nat,
     (3%nat, [Invoked (Some 1%nat); Warned 1 3 1%nat 1000; Waited 1000;
              Invoked (Some 2%nat); Warned 2 3 2%nat 2000; Waited 2000;
              Invoked (Some 3%nat)])).
Proof. reflexivity. Qed.

(** An operation that rejects with [null] is outside C5: the warning
    cannot read the message of [null], so [retry] throws a [TypeError]
    after one invocation, without having asked for a delay. *)
Example retry_null_rejection :
  observed_retry message_of_thrown rejecting_null 3 1000 (0%nat, [])
  = (Throw ThrownTypeError, (1%nat, [Invoked (Some ThrownNull)])).
Proof. reflexivity. Qed.

(** C10. For every [maxRetries] below 1 (for instance [retry(fn, 0)]),
    [retry] never invokes the operation and resolves with [undefined]
    instead of throwing: the state is the one it started from, whatever the
    operation and the effects would have done. *)
Theorem retry_no_attempts {S E A} (message_throws : E -> option E)
    (console_warn : Z -> Z -> E -> Z -> S -> S)
    (setTimeout : Z -> S -> S) (fn : M S E A) (maxRetries baseDelayMs : Z) (s : S) :
  maxRetries < 1 ->
  retry message_throws console_warn setTimeout fn maxRetries baseDelayMs s = (Ret None, s).
Proof.
  intros Hlt. unfold retry. apply retry_from_past_bound. exact Hlt.
Qed.

Lemma retry_no_attempts_witness :
  observed_retry readable always_failing 0 5000 (0%nat, []) = (Ret None, (0%nat, [])).
Proof.
  apply (retry_no_attempts readable note_warn note_wait (probe always_failing) 0 5000).
  lia.
Defined.

(** ** The monad *)

Lemma bind_inv {S E A B} (m : M S E A) (k : A -> M S E B) s r s' :
  bind m k s = (r, s') ->
  (exists a s1, m s = (Ret a, s1) /\ k a s1 = (r, s'))
  \/ (exists e, m s = (Throw e, s') /\ r = Throw e)
  \/ (m s = (OutOfFuel, s') /\ r = OutOfFuel).
Proof.
  unfold bind. destruct (m s) as [[a|e|] s1]; intros H.
  - left. eauto.
  - right. left. inversion H; subst. eauto.
  - right. right. inversion H; subst. eauto.
Qed.

Lemma finally_inv {S E A B} (body : M S E A) (cleanup : M S E B) s r s' :
  finally body cleanup s = (r, s') ->
  exists r0 s1, body s = (r0, s1) /\
    (r0 = OutOfFuel /\ r = OutOfFuel /\ s' = s1
     \/ exists rc, cleanup s1 = (rc, s') /\ r0 <> OutOfFuel).
Proof.
  unfold finally. destruct (body s) as [r0 s1]. intros H.
  exists r0, s1. split; [reflexivity|].
  destruct r0 as [a|e|].
  - right. destruct (cleanup s1) as [[b|e'|] s2]; inversion H; subst; eauto.
  - right. destruct (cleanup s1) as [[b|e'|] s2]; inversion H; subst; eauto.
  - left. inversion H; subst. auto.
Qed.

(** ** Writing a file

    A write goes through or throws; when it throws, nothing has changed. *)

Lemma mkdirSync_cases dir w :
  (exists code, mkdirSync dir w = (Throw (SystemError code), w))
  \/ mkdirSync dir w = (Ret tt, w).
Proof.
  unfold mkdirSync. destruct (mkdir_error _ _) as [code|]; eauto.
Qed.

Lemma writeFileSync_cases filePath data w :
  (exists code, writeFileSync filePath data w = (Throw (SystemError code), w))
  \/ writeFileSync filePath data w = (Ret tt, written filePath data w).
Proof.
  unfold writeFileSync. destruct (names_directory filePath); [eauto|].
  destruct (disk w !! filePath) as [[doc| |code]|]; eauto.
Qed.

Lemma save_cases filePath data w :
  (exists code,
     (mkdirSync (path_dirname filePath) ;;; writeFileSync filePath data) w
     = (Throw (SystemError code), w))
  \/ (mkdirSync (path_dirname filePath) ;;; writeFileSync filePath data) w
     = (Ret tt, written filePath data w).
Proof.
  unfold bind.
  destruct (mkdirSync_cases (path_dirname filePath) w) as [(code & E)|E]; rewrite E; [eauto|].
  apply writeFileSync_cases.
Qed.

Lemma saveCheckpoint_cases filename data w :
  (exists code, saveCheckpoint filename data w = (Throw (SystemError code), w))
  \/ saveCheckpoint filename data w
     = (Ret tt, written (path_join DATA_DIR filename) data w).
Proof. apply save_cases. Qed.

Lemma saveAppReviews_cases appSlug reviews w :
  (exists code, saveAppReviews appSlug reviews w = (Throw (SystemError code), w))
  \/ saveAppReviews appSlug reviews w
     = (Ret tt, written (path_join REVIEWS_DIR (appSlug ++ ".json")) (JArr reviews) w).
Proof. apply save_cases. Qed.

(** ** What computations emit *)

Section Emits.
Variable Q : Event -> Prop.

Lemma emits_ret {A} (a : A) : emits Q (ret a).
Proof.
  intros w r w' H. inversion H; subst. exists []. rewrite app_nil_r. auto.
Qed.

Lemma emits_silent {A} (f : World -> Outcome Error A) :
  emits Q (fun w => (f w, w)).
Proof.
  intros w r w' H. inversion H; subst. exists []. rewrite app_nil_r. auto.
Qed.

Lemma emits_bind {A B} (m : JS A) (k : A -> JS B) :
  emits Q m -> (forall a, emits Q (k a)) -> emits Q (bind m k).
Proof.
  intros Hm Hk w r w' H.
  destruct (bind_inv _ _ _ _ _ H) as [(a & w1 & H1 & H2)|[(e & H1 & _)|(H1 & _)]].
  - destruct (Hm _ _ _ H1) as (ev1 & E1 & F1).
    destruct (Hk a _ _ _ H2) as (ev2 & E2 & F2).
    exists (ev1 ++ ev2). rewrite E2, E1, app_assoc. split; [reflexivity|].
    apply Forall_app; auto.
  - exact (Hm _ _ _ H1).
  - exact (Hm _ _ _ H1).
Qed.

Lemma emits_finally {A B} (body : JS A) (cleanup : JS B) :
  emits Q body -> emits Q cleanup -> emits Q (finally body cleanup).
Proof.
  intros Hb Hc w r w' H.
  destruct (finally_inv _ _ _ _ _ H) as (r0 & w1 & H1 & [(_ & _ & ->)|(rc & H2 & _)]).
  - exact (Hb _ _ _ H1).
  - destruct (Hb _ _ _ H1) as (ev1 & E1 & F1).
    destruct (Hc _ _ _ H2) as (ev2 & E2 & F2).
    exists (ev1 ++ ev2). rewrite E2, E1, app_assoc. split; [reflexivity|].
    apply Forall_app; auto.
Qed.

Lemma emits_emit (e : Event) : Q e -> emits Q (effect (emit e)).
Proof.
  intros He w r w' H. inversion H; subst. exists [e]. simpl. auto.
Qed.

Lemma emits_log msg : Q (Log msg) -> emits Q (log msg).
Proof. apply emits_emit. Qed.

Lemma emits_delay a b : Q (Delay a b) -> emits Q (delay a b).
Proof. apply emits_emit. Qed.

Lemma emits_newPage : Q NewPage -> emits Q newPage.
Proof.
  intros He w r w' H. inversion H; subst. exists [NewPage]. simpl. auto.
Qed.

Lemma emits_goto url : Q (Goto url) -> emits Q (goto url).
Proof.
  intros He w r w' H. unfold goto in H. simpl in H.
  exists [Goto url].
  destruct (remote w) as [|[d|msg] rest]; inversion H; subst; simpl; auto.
Qed.

Lemma emits_save (m : JS unit) path data :
  (forall w, (exists code, m w = (Throw (SystemError code), w))
             \/ m w = (Ret tt, written path data w)) ->
  Q (WriteFile path data) -> emits Q m.
Proof.
  intros Hm He w r w' H. destruct (Hm w) as [(code & E)|E]; rewrite E in H;
    inversion H; subst.
  - exists []. rewrite app_nil_r. auto.
  - exists [WriteFile path data]. simpl. auto.
Qed.

Lemma emits_writeFileSync path data :
  Q (WriteFile path data) -> emits Q (writeFileSync path data).
Proof. apply emits_save. apply writeFileSync_cases. Qed.

Lemma emits_saveCheckpoint filename data :
  Q (WriteFile (path_join DATA_DIR filename) data) -> emits Q (saveCheckpoint filename data).
Proof. apply emits_save. apply saveCheckpoint_cases. Qed.

Lemma emits_saveAppReviews appSlug reviews :
  Q (WriteFile (path_join REVIEWS_DIR (appSlug ++ ".json")) (JArr reviews)) ->
  emits Q (saveAppReviews appSlug reviews).
Proof. apply emits_save. apply saveAppReviews_cases. Qed.

Lemma emits_loadCheckpoint filename d : emits Q (loadCheckpoint filename d).
Proof.
  intros w r w' H. unfold loadCheckpoint, existsSync, readFileSync_then_parse, bind, ret in H.
  exists []. rewrite app_nil_r. split; [|constructor].
  destruct (bool_decide _); [|inversion H; reflexivity].
  destruct (disk w !! _) as [[doc| |code]|]; inversion H; reflexivity.
Qed.

Lemma emits_retry_from {A} (fn : JS A) maxRetries baseDelayMs fuel attempt :
  emits Q fn ->
  (forall a m e ms, Q (ConsoleWarn a m e ms)) ->
  (forall ms, Q (Timeout ms)) ->
  emits Q (retry_from readable
             (fun attempt maxRetries err waitMs =>
                emit (ConsoleWarn attempt maxRetries err waitMs))
             (fun waitMs => emit (Timeout waitMs))
             fn maxRetries baseDelayMs fuel attempt).
Proof.
  intros Hfn Hwarn Hwait. revert attempt.
  induction fuel as [|fuel IH]; intros attempt w r w' H; simpl in H.
  - inversion H; subst. exists []. rewrite app_nil_r. auto.
  - destruct (attempt <=? maxRetries).
    + destruct (fn w) as [[a|err|] w1] eqn:Hf.
      * inversion H; subst. exact (Hfn _ _ _ Hf).
      * destruct (Hfn _ _ _ Hf) as (ev1 & E1 & F1).
        destruct (attempt =? maxRetries).
        -- inversion H; subst. eauto.
        -- destruct (IH _ _ _ _ H) as (ev2 & E2 & F2).
           simpl in E2. rewrite E1 in E2.
           exists (ev1 ++ [ConsoleWarn attempt maxRetries err (baseDelayMs * 2 ^ (attempt - 1));
                           Timeout (baseDelayMs * 2 ^ (attempt - 1))] ++ ev2).
           rewrite E2, <- !app_assoc. split; [reflexivity|].
           apply Forall_app. split; [exact F1|].
           apply Forall_app. split; [|exact F2].
           repeat constructor; auto.
      * inversion H; subst. exact (Hfn _ _ _ Hf).
    + inversion H; subst. exists []. rewrite app_nil_r. auto.
Qed.

Lemma emits_retry_goto url :
  Q (Goto url) ->
  (forall a m e ms, Q (ConsoleWarn a m e ms)) ->
  (forall ms, Q (Timeout ms)) ->
  emits Q (retry_goto url).
Proof.
  intros Hg Hwarn Hwait. unfold retry_goto, retry.
  apply emits_bind; [|intros; apply emits_ret].
  apply emits_retry_from; auto using emits_goto.
Qed.

End Emits.

Lemma emits_weaken {A} (Q Q' : Event -> Prop) (m : JS A) :
  (forall e, Q e -> Q' e) -> emits Q m -> emits Q' m.
Proof.
  intros HQ Hm w r w' H. destruct (Hm _ _ _ H) as (ev & E & F).
  exists ev. split; [exact E|]. eapply Forall_impl; eauto.
Qed.

(** ** Pages of reviews *)

Section ReviewPagesFacts.
Variables appName appSlug : string.
Variables delayMin delayMax : Z.
Variable totalPages : option number.
Variable maxPages : number.

Lemma emits_enter_page hint pageNum :
  (1 < pageNum -> within_hint hint pageNum) ->
  emits (app_event appSlug hint) (enter_page appSlug delayMin delayMax pageNum).
Proof.
  intros Hin. unfold enter_page.
  destruct (Z.ltb_spec 1 pageNum) as [Hlt|Hle]; [|apply emits_ret].
  apply emits_bind; [|intros _; apply emits_delay; exact I].
  apply emits_retry_goto; simpl; auto. split; [reflexivity|]. split; [lia|auto].
Qed.

Lemma emits_review_pages hint fuel pageNum allReviews :
  (forall p, num_le p maxPages = true -> within_hint hint p) ->
  1 <= pageNum ->
  emits (app_event appSlug hint)
    (review_pages appName appSlug delayMin delayMax totalPages maxPages
       fuel pageNum allReviews).
Proof.
  intros Hmax. revert pageNum allReviews.
  induction fuel as [|fuel IH]; intros pageNum allReviews Hpos; simpl.
  - apply emits_silent with (f := fun _ => OutOfFuel).
  - destruct (num_le pageNum maxPages) eqn:Hle; [|apply emits_ret].
    apply emits_bind; [apply emits_enter_page; auto|]. intros _.
    apply emits_bind.
    { apply emits_silent
        with (f := fun w => Ret (review_of_block appName appSlug <$> reviewBlocks (document w))). }
    intros batch.
    apply emits_bind; [apply emits_log; simpl; auto|]. intros _.
    destruct (bool_decide _); [apply emits_ret|].
    destruct (match totalPages with Some tp => num_ge pageNum tp | None => false end);
      [apply emits_ret|].
    apply emits_bind.
    { apply emits_silent
        with (f := fun w => Ret (bool_decide (is_Some (querySelector (document w) REVIEWS.nextPageLink)))). }
    intros nextLink. destruct (negb nextLink); [apply emits_ret|].
    apply IH. lia.
Qed.

(** The budget that covers the pages up to [maxPages] is enough. *)
Lemma total_retry_goto url : total (retry_goto url).
Proof.
  intros w. unfold retry_goto, retry, bind.
  match goal with
  | |- context [retry_from ?mt ?cw ?st ?f ?n ?b ?fuel ?a w] =>
      pose proof (retry_from_fuel mt cw st f n b fuel a w) as Hr;
      destruct (retry_from mt cw st f n b fuel a w) as [[x|e|] w1]
  end; simpl in *; try discriminate.
  exfalso. apply Hr; [lia| |reflexivity].
  intros s0. unfold goto. simpl.
  destruct (remote s0) as [|[d|msg] rest]; discriminate.
Qed.

Lemma total_enter_page pageNum :
  total (enter_page appSlug delayMin delayMax pageNum).
Proof.
  intros w. unfold enter_page. destruct (1 <? pageNum); [|discriminate].
  unfold bind. pose proof (total_retry_goto (REVIEWS.urlPage appSlug pageNum) w) as Hr.
  destruct (retry_goto _ w) as [[x|e|] w1]; simpl in *; try discriminate.
  congruence.
Qed.

Lemma review_pages_fuel fuel pageNum allReviews w :
  match maxPages with
  | Int z => (Z.to_nat (z + 1 - pageNum) < fuel)%nat
  | NaN => (0 < fuel)%nat
  end ->
  fst (review_pages appName appSlug delayMin delayMax totalPages maxPages
         fuel pageNum allReviews w) <> OutOfFuel.
Proof.
  revert pageNum allReviews w.
  induction fuel as [|fuel IH]; intros pageNum allReviews w Hfuel.
  - destruct maxPages; lia.
  - simpl. destruct (num_le pageNum maxPages) eqn:Hle; [|discriminate].
    unfold bind at 1.
    pose proof (total_enter_page pageNum w) as He.
    destruct (enter_page _ _ _ _ w) as [[x|e|] w1]; simpl in *; try discriminate;
      [|congruence].
    unfold bind, extractReviewsFromPage, log, effect, ret, page_has. simpl.
    destruct (bool_decide _); [discriminate|].
    destruct (match totalPages with Some tp => num_ge pageNum tp | None => false end);
      [discriminate|].
    destruct (negb _); [discriminate|].
    apply IH. destruct maxPages as [z|]; simpl in Hle; [|discriminate].
    apply Z.leb_le in Hle. lia.
Qed.

End ReviewPagesFacts.

(** ** One app *)

Lemma scrapes_of_emits {A} appSlug hint (m : JS A) :
  emits (app_event appSlug hint) m -> scrapes appSlug m.
Proof.
  intros Hm w r w' H. destruct (Hm _ _ _ H) as (ev & E & F). eauto.
Qed.

Lemma scrapes_bind {A B} appSlug (m : JS A) (k : A -> JS B) :
  emits (fun e => forall hint, app_event appSlug hint e) m ->
  (forall a, scrapes appSlug (k a)) ->
  scrapes appSlug (bind m k).
Proof.
  intros Hm Hk w r w' H.
  destruct (bind_inv _ _ _ _ _ H) as [(a & w1 & H1 & H2)|[(e & H1 & _)|(H1 & _)]].
  - destruct (Hm _ _ _ H1) as (ev1 & E1 & F1).
    destruct (Hk a _ _ _ H2) as (hint & ev2 & E2 & F2).
    exists hint, (ev1 ++ ev2). rewrite E2, E1, app_assoc. split; [reflexivity|].
    apply Forall_app. split; [|exact F2].
    eapply Forall_impl; [exact F1|]. auto.
  - destruct (Hm _ _ _ H1) as (ev1 & E1 & F1).
    exists None, ev1. split; [exact E1|]. eapply Forall_impl; [exact F1|]. auto.
  - destruct (Hm _ _ _ H1) as (ev1 & E1 & F1).
    exists None, ev1. split; [exact E1|]. eapply Forall_impl; [exact F1|]. auto.
Qed.

Lemma scrapes_finally {A B} appSlug (body : JS A) (cleanup : JS B) :
  scrapes appSlug body ->
  emits (fun e => forall hint, app_event appSlug hint e) cleanup ->
  scrapes appSlug (finally body cleanup).
Proof.
  intros Hb Hc w r w' H.
  destruct (finally_inv _ _ _ _ _ H) as (r0 & w1 & H1 & [(_ & _ & ->)|(rc & H2 & _)]).
  - exact (Hb _ _ _ H1).
  - destruct (Hb _ _ _ H1) as (hint & ev1 & E1 & F1).
    destruct (Hc _ _ _ H2) as (ev2 & E2 & F2).
    exists hint, (ev1 ++ ev2). rewrite E2, E1, app_assoc. split; [reflexivity|].
    apply Forall_app. split; [exact F1|].
    eapply Forall_impl; [exact F2|]. auto.
Qed.

(** Every event of [scrapeAppReviews] is an event of scraping its app, for
    the count the run read (if it read one). *)
Lemma scrapes_scrapeAppReviews app options :
  scrapes (slug app) (scrapeAppReviews app options).
Proof.
  unfold scrapeAppReviews.
  apply scrapes_bind; [apply emits_newPage; intros hint; exact I|]. intros _.
  apply scrapes_finally; [|apply emits_emit; intros hint; exact I].
  apply scrapes_bind; [apply emits_log; intros hint; reflexivity|]. intros _.
  apply scrapes_bind.
  { apply emits_retry_goto; intros; try exact I. reflexivity. }
  intros _.
  apply scrapes_bind; [apply emits_delay; intros hint; exact I|]. intros _.
  apply scrapes_bind.
  { apply emits_silent with (f := fun w => Ret (count_hint (document w))). }
  intros totalCount.
  apply (scrapes_of_emits (slug app) totalCount).
  apply emits_bind.
  { destruct totalCount as [n|]; [|apply emits_ret].
    apply emits_log. simpl. auto. }
  intros _.
  apply emits_review_pages; [|lia].
  intros p Hp n ->. exact Hp.
Qed.

Lemma total_scrapeAppReviews app options : total (scrapeAppReviews app options).
Proof.
  intros w. unfold scrapeAppReviews.
  unfold bind at 1. unfold newPage, effect.
  set (w1 := emit NewPage _).
  unfold finally.
  match goal with |- context [match ?b w1 with _ => _ end] =>
    assert (Hb : fst (b w1) <> OutOfFuel); [|destruct (b w1) as [[x|e|] w2]] end.
  - unfold bind at 1. unfold log, effect.
    set (w2 := emit (Log _) w1).
    unfold bind at 1.
    pose proof (total_retry_goto (REVIEWS.url (slug app)) w2) as Hr.
    destruct (retry_goto _ w2) as [[x|e|] w3]; simpl in Hr; try discriminate;
      [|congruence].
    unfold bind at 1. unfold delay, effect.
    set (w4 := emit (Delay _ _) w3).
    unfold bind at 1. unfold getTotalReviewCount.
    assert (Hlog : forall (m : JS unit) (k : JS (list json)) w0,
               (exists w5, m w0 = (Ret tt, w5)) ->
               (forall w5, fst (k w5) <> OutOfFuel) ->
               fst (bind m (fun _ => k) w0) <> OutOfFuel).
    { intros m k w0 (w5 & Hm) Hk. unfold bind. rewrite Hm. apply Hk. }
    destruct (count_hint (document w4)) as [n|].
    + apply Hlog; [eexists; reflexivity|]. intros w5.
      apply review_pages_fuel. unfold page_budget.
      destruct (Math_ceil_div n PAGINATION.reviewsPerPage); lia.
    + apply Hlog; [eexists; reflexivity|]. intros w5.
      apply review_pages_fuel. simpl. lia.
  - simpl. discriminate.
  - simpl. discriminate.
  - simpl in Hb. congruence.
Qed.

(** *** Step by step *)

(** A navigation that the remote answers with a document succeeds at the
    first attempt. *)
Lemma retry_goto_rendered url w d rest :
  remote w = Rendered d :: rest ->
  retry_goto url w
  = (Ret tt, mkWorld (disk w) rest d (events w ++ [Goto url])).
Proof.
  intros Hr. unfold retry_goto, retry, bind. simpl.
  unfold goto at 1. simpl. rewrite Hr. reflexivity.
Qed.

Section ReviewPagesSteps.
Variables appName appSlug : string.
Variables delayMin delayMax : Z.
Variable totalPages : option number.
Variable maxPages : number.

Lemma enter_first_page w :
  enter_page appSlug delayMin delayMax 1 w = (Ret tt, w).
Proof. reflexivity. Qed.

Lemma enter_next_page pageNum w d rest :
  1 < pageNum ->
  remote w = Rendered d :: rest ->
  enter_page appSlug delayMin delayMax pageNum w
  = (Ret tt,
     mkWorld (disk w) rest d
       (events w ++ [Goto (ReviewsPageUrl appSlug pageNum); Delay delayMin delayMax])).
Proof.
  intros Hlt Hr. unfold enter_page.
  destruct (Z.ltb_spec 1 pageNum) as [_|?]; [|lia].
  unfold bind. rewrite (retry_goto_rendered _ w d rest Hr).
  unfold delay, effect, emit. simpl. rewrite <- app_assoc. reflexivity.
Qed.

(** One iteration of the loop, from the document the page shows once the
    iteration has navigated. *)
Lemma review_pages_unfold fuel pageNum allReviews w w1 :
  num_le pageNum maxPages = true ->
  enter_page appSlug delayMin delayMax pageNum w = (Ret tt, w1) ->
  let batch := reviews_on appName appSlug (document w1) in
  let w2 := emit (Log (LogPage pageNum (length batch) (length (allReviews ++ batch)))) w1 in
  review_pages appName appSlug delayMin delayMax totalPages maxPages
    (Datatypes.S fuel) pageNum allReviews w
  = if bool_decide (length batch = 0%nat) then (Ret (allReviews ++ batch), w2)
    else if match totalPages with Some tp => num_ge pageNum tp | None => false end
         then (Ret (allReviews ++ batch), w2)
    else if negb (has_next (document w1)) then (Ret (allReviews ++ batch), w2)
    else review_pages appName appSlug delayMin delayMax totalPages maxPages
           fuel (pageNum + 1) (allReviews ++ batch) w2.
Proof.
  intros Hle Henter. simpl. rewrite Hle.
  unfold bind at 1. rewrite Henter.
  unfold bind, extractReviewsFromPage, log, effect, ret, page_has, reviews_on, has_next.
  simpl.
  destruct (bool_decide _); [reflexivity|].
  destruct (match totalPages with Some tp => num_ge pageNum tp | None => false end);
    [reflexivity|].
  destruct (negb _); reflexivity.
Qed.

(** Past [maxPages] the loop is over. *)
Lemma review_pages_past fuel pageNum allReviews w :
  num_le pageNum maxPages = false ->
  review_pages appName appSlug delayMin delayMax totalPages maxPages
    (Datatypes.S fuel) pageNum allReviews w = (Ret allReviews, w).
Proof. intros Hle. simpl. rewrite Hle. reflexivity. Qed.

(** A navigation that fails for good ends the loop with its error. *)
Lemma review_pages_enter_fails fuel pageNum allReviews w e w1 :
  num_le pageNum maxPages = true ->
  enter_page appSlug delayMin delayMax pageNum w = (Throw e, w1) ->
  review_pages appName appSlug delayMin delayMax totalPages maxPages
    (Datatypes.S fuel) pageNum allReviews w = (Throw e, w1).
Proof.
  intros Hle Henter. simpl. rewrite Hle. unfold bind at 1. rewrite Henter. reflexivity.
Qed.

End ReviewPagesSteps.

(** From here on the loop is unfolded by the lemma above only. *)
#[local] Arguments review_pages : simpl never.
#[local] Arguments page_budget : simpl never.

(** [scrapeAppReviews] up to the loop, when the remote answers the first
    navigation with a document. *)
Lemma scrapeAppReviews_opened app options w d rest :
  remote w = Rendered d :: rest ->
  let delayMin := default DELAY.minMs (delayMin options) in
  let delayMax := default DELAY.maxMs (delayMax options) in
  let w1 :=
    mkWorld (disk w) rest d
      (events w ++ [NewPage; Log (LogOpening (slug app) (ReviewsUrl (slug app)));
                    Goto (ReviewsUrl (slug app)); Delay delayMin delayMax]
                ++ match count_hint d with
                   | Some n => [Log (LogTotal n (Math_ceil_div n PAGINATION.reviewsPerPage))]
                   | None => []
                   end) in
  scrapeAppReviews app options w
  = finally
      (review_pages (name app) (slug app) delayMin delayMax
         (totalPages_for (count_hint d)) (maxPages_for (count_hint d))
         (page_budget (maxPages_for (count_hint d))) 1 [])
      page_close w1.
Proof.
  intros Hr. simpl. unfold scrapeAppReviews.
  unfold bind at 1. unfold newPage, effect. unfold finally.
  unfold bind at 1. unfold log at 1, effect.
  unfold bind at 1.
  rewrite (retry_goto_rendered _ _ d rest) by (simpl; exact Hr).
  unfold bind at 1. unfold delay at 1, effect.
  unfold bind at 1. unfold getTotalReviewCount. simpl.
  rewrite <- !app_assoc. simpl.
  destruct (count_hint d) as [n|].
  - unfold bind at 1. unfold log at 1, effect, emit.
    cbn [events disk remote document]. rewrite <- !app_assoc. reflexivity.
  - unfold bind at 1. unfold ret at 1, emit.
    cbn [events disk remote document]. rewrite <- !app_assoc. reflexivity.
Qed.

(** *** Reading the events of one app *)

Lemma app_event_total appSlug hint ev n tp :
  Forall (app_event appSlug hint) ev ->
  Log (LogTotal n tp) ∈ ev ->
  hint = Some n /\ tp = Math_ceil_div n PAGINATION.reviewsPerPage.
Proof.
  intros F Hin. rewrite Forall_forall in F. exact (F _ Hin).
Qed.

Lemma app_event_pages_read appSlug hint ev p :
  Forall (app_event appSlug hint) ev ->
  p ∈ pages_read ev -> 1 <= p /\ within_hint hint p.
Proof.
  induction 1 as [|e ev He F IH]; simpl; [intros Hin; inversion Hin|].
  destruct e as [| | | | | | | | |[]|]; auto.
  intros Hin. apply elem_of_cons in Hin as [->|Hin]; auto.
Qed.

Lemma app_event_navigations appSlug hint ev s p :
  Forall (app_event appSlug hint) ev ->
  ReviewsPageUrl s p ∈ navigations ev -> s = appSlug /\ 2 <= p /\ within_hint hint p.
Proof.
  induction 1 as [|e ev He F IH]; simpl; [intros Hin; inversion Hin|].
  destruct e as [| | | |url| | | | | |]; auto.
  intros Hin. apply elem_of_cons in Hin as [<-|Hin]; auto.
Qed.

Lemma ceil_div_bounds (total per : Z) :
  0 < per ->
  exists pages, Math_ceil_div (Int total) per = Int pages
                /\ per * (pages - 1) < total <= per * pages.
Proof.
  intros Hper. exists (- (- total / per)). split; [reflexivity|].
  pose proof (Z.div_mod (- total) per ltac:(lia)) as Hdm.
  pose proof (Z.mod_pos_bound (- total) per Hper) as Hmod.
  nia.
Qed.

(** C7. In the pagination loop of [scrapeAppReviews] the three conditions
    are checked in order each iteration: (a) an empty batch stops the
    loop, whatever the count hint and the next link say; else (b) a known
    [totalPages] that the page number has reached stops it; else (c) a
    missing next link stops it; else the loop turns to the next page.  So
    when page 2 yields no records, collection stops at page 2 for every
    count hint that lets page 2 be fetched: the result is what page 1
    gave, and nothing is asked of the remote after page 2. *)
Theorem termination_checks_in_order (app : App) (options : Options) :
  (forall totalPages maxPages fuel pageNum allReviews w w1,
     let delayMin := default DELAY.minMs (delayMin options) in
     let delayMax := default DELAY.maxMs (delayMax options) in
     num_le pageNum maxPages = true ->
     enter_page (slug app) delayMin delayMax pageNum w = (Ret tt, w1) ->
     let batch := reviews_on (name app) (slug app) (document w1) in
     let all := allReviews ++ batch in
     let w2 := emit (Log (LogPage pageNum (length batch) (length all))) w1 in
     let limit := match totalPages with Some tp => num_ge pageNum tp | None => false end in
     let loop := review_pages (name app) (slug app) delayMin delayMax totalPages maxPages in
     (batch = [] -> loop (Datatypes.S fuel) pageNum allReviews w = (Ret allReviews, w2))
     /\ (batch <> [] -> limit = true ->
         loop (Datatypes.S fuel) pageNum allReviews w = (Ret all, w2))
     /\ (batch <> [] -> limit = false -> has_next (document w1) = false ->
         loop (Datatypes.S fuel) pageNum allReviews w = (Ret all, w2))
     /\ (batch <> [] -> limit = false -> has_next (document w1) = true ->
         loop (Datatypes.S fuel) pageNum allReviews w
         = loop fuel (pageNum + 1) all w2))
  /\ (forall w d1 d2 rest,
        remote w = Rendered d1 :: Rendered d2 :: rest ->
        reviewBlocks d1 <> [] -> has_next d1 = true ->
        num_le 2 (maxPages_for (count_hint d1)) = true ->
        reviewBlocks d2 = [] ->
        exists w' ev,
          scrapeAppReviews app options w
          = (Ret (reviews_on (name app) (slug app) d1), w')
          /\ remote w' = rest
          /\ events w' = events w ++ ev
          /\ pages_read ev = [1; 2]
          /\ navigations ev = [ReviewsUrl (slug app); ReviewsPageUrl (slug app) 2]).
Proof.
  split.
  - intros totalPages maxPages fuel pageNum allReviews w w1 delayMin delayMax
      Hle Henter batch all w2 limit loop.
    pose proof (review_pages_unfold (name app) (slug app) delayMin delayMax
                  totalPages maxPages fuel pageNum allReviews w w1 Hle Henter) as Hstep.
    cbv zeta in Hstep. fold batch in Hstep. fold all in Hstep. fold w2 in Hstep.
    fold limit in Hstep. fold loop in Hstep.
    assert (Hempty : batch = [] -> bool_decide (length batch = 0%nat) = true).
    { intros ->. reflexivity. }
    assert (Hfull : batch <> [] -> bool_decide (length batch = 0%nat) = false).
    { intros Hne. apply bool_decide_eq_false. intros Hl.
      apply Hne. destruct batch; [reflexivity|discriminate]. }
    repeat split.
    + intros Hb. rewrite Hstep, (Hempty Hb). unfold w2, all. rewrite Hb, app_nil_r.
      reflexivity.
    + intros Hb Hl. rewrite Hstep, (Hfull Hb), Hl. reflexivity.
    + intros Hb Hl Hn. rewrite Hstep, (Hfull Hb), Hl, Hn. reflexivity.
    + intros Hb Hl Hn. rewrite Hstep, (Hfull Hb), Hl, Hn. reflexivity.
  - intros w d1 d2 rest Hr Hd1 Hnext Hmax Hd2.
    rewrite (scrapeAppReviews_opened app options w d1 (Rendered d2 :: rest) Hr).
    cbv zeta.
    set (delayMin := default DELAY.minMs (delayMin options)).
    set (delayMax := default DELAY.maxMs (delayMax options)).
    set (pre := [NewPage; Log (LogOpening (slug app) (ReviewsUrl (slug app)));
                 Goto (ReviewsUrl (slug app)); Delay delayMin delayMax]
                  ++ match count_hint d1 with
                     | Some n => [Log (LogTotal n (Math_ceil_div n PAGINATION.reviewsPerPage))]
                     | None => []
                     end).
    set (w1 := mkWorld (disk w) (Rendered d2 :: rest) d1 (events w ++ pre)).
    (* the budget covers two iterations *)
    assert (Hfuel : exists fuel, page_budget (maxPages_for (count_hint d1))
                                 = Datatypes.S (Datatypes.S fuel)).
    { unfold page_budget. destruct (maxPages_for (count_hint d1)) as [z|];
        simpl in Hmax; [|discriminate].
      apply Z.leb_le in Hmax.
      destruct (Z.to_nat z) as [|k] eqn:Hk; [lia|]. eauto. }
    destruct Hfuel as (fuel & ->).
    (* page 1 *)
    assert (Hlimit : match totalPages_for (count_hint d1) with
                     | Some tp => num_ge 1 tp
                     | None => false
                     end = false).
    { unfold maxPages_for in Hmax.
      destruct (totalPages_for (count_hint d1)) as [[z|]|]; simpl in *;
        try reflexivity.
      apply Z.leb_le in Hmax. apply Z.leb_gt. lia. }
    assert (Hb1 : bool_decide (length (reviews_on (name app) (slug app) d1) = 0%nat) = false).
    { apply bool_decide_eq_false. unfold reviews_on. rewrite length_fmap.
      destruct (reviewBlocks d1); [congruence|discriminate]. }
    unfold finally.
    assert (Hle1 : num_le 1 (maxPages_for (count_hint d1)) = true).
    { destruct (maxPages_for (count_hint d1)); simpl in *; [|discriminate].
      apply Z.leb_le. apply Z.leb_le in Hmax. lia. }
    rewrite (review_pages_unfold (name app) (slug app) delayMin delayMax _ _
               (Datatypes.S fuel) 1 [] w1 w1 Hle1 eq_refl).
    cbv zeta. change (document w1) with d1. rewrite Hb1, Hlimit, Hnext. simpl negb. cbv iota.
    (* page 2 *)
    set (w2 := emit _ w1).
    rewrite (review_pages_unfold (name app) (slug app) delayMin delayMax _ _
               fuel (1 + 1) _ w2
               (mkWorld (disk w2) rest d2
                  (events w2 ++ [Goto (ReviewsPageUrl (slug app) (1 + 1));
                                 Delay delayMin delayMax])));
      [|exact Hmax|apply enter_next_page; [lia|reflexivity]].
    cbv zeta. simpl document.
    assert (Hb2 : reviews_on (name app) (slug app) d2 = []).
    { unfold reviews_on. rewrite Hd2. reflexivity. }
    rewrite Hb2. simpl.
    eexists. eexists. split; [rewrite app_nil_r; reflexivity|].
    split; [reflexivity|]. simpl.
    split; [rewrite <- !app_assoc; reflexivity|].
    unfold pre. destruct (count_hint d1); simpl; auto.
Qed.

Lemma termination_checks_in_order_witness :
  review_pages "Printful" "printful" 3000 5000 (Some (Int 5)) (Int 5) 6 1 []
    (fresh_world [])
  = (Ret [], emit (Log (LogPage 1 0 0)) (fresh_world []))
  /\ exists w' ev,
       scrapeAppReviews printful no_options world_empty_second
       = (Ret (reviews_on "Printful" "printful" (review_page (Some (Int 50)) 10 true)), w')
       /\ remote w' = [Rendered (review_page (Some (Int 50)) 10 true)]
       /\ events w' = events world_empty_second ++ ev
       /\ pages_read ev = [1; 2]
       /\ navigations ev = [ReviewsUrl "printful"; ReviewsPageUrl "printful" 2].
Proof.
  split.
  - apply (proj1 (proj1 (termination_checks_in_order printful no_options)
                    (Some (Int 5)) (Int 5) 5%nat 1 [] (fresh_world []) (fresh_world [])
                    eq_refl eq_refl)).
    reflexivity.
  - apply (proj2 (termination_checks_in_order printful no_options)
             world_empty_second
             (review_page (Some (Int 50)) 10 true)
             (review_page (Some (Int 50)) 0 true)
             [Rendered (review_page (Some (Int 50)) 10 true)]).
    + reflexivity.
    + discriminate.
    + reflexivity.
    + reflexivity.
    + reflexivity.
Defined.

(** C6. When [scrapeAppReviews] reads a total count (an integer that a
    double holds exactly, up to [2^53] in absolute value, or [NaN]) it
    computes [totalPages = ceil(total / perPageSize)], and neither
    extracts nor navigates to a page beyond [totalPages], whatever the
    pages show.  With
    a count of 25 and 10 reviews to the page, collection stops after
    exactly three pages even though the third page still has a next link:
    nothing more is asked of the remote. *)
Theorem count_hint_bounds_pages (app : App) (options : Options) :
  (forall total,
     Z.abs total <= 2 ^ 53 ->
     exists pages,
       totalPages_for (Some (Int total)) = Some (Int pages)
       /\ PAGINATION.reviewsPerPage * (pages - 1) < total
          <= PAGINATION.reviewsPerPage * pages)
  /\ (forall w r w',
        scrapeAppReviews app options w = (r, w') ->
        exists ev,
          events w' = events w ++ ev
          /\ forall total totalPages,
               Log (LogTotal total totalPages) ∈ ev ->
               safe total = true ->
               Some totalPages = totalPages_for (Some total)
               /\ (forall p, p ∈ pages_read ev -> num_le p totalPages = true)
               /\ (forall s p, ReviewsPageUrl s p ∈ navigations ev ->
                               num_le p totalPages = true))
  /\ (forall w d1 d2 d3 rest,
        remote w = Rendered d1 :: Rendered d2 :: Rendered d3 :: rest ->
        count_hint d1 = Some (Int 25) ->
        reviewBlocks d1 <> [] -> has_next d1 = true ->
        reviewBlocks d2 <> [] -> has_next d2 = true ->
        exists w' ev,
          scrapeAppReviews app options w
          = (Ret (reviews_on (name app) (slug app) d1
                  ++ reviews_on (name app) (slug app) d2
                  ++ reviews_on (name app) (slug app) d3), w')
          /\ remote w' = rest
          /\ events w' = events w ++ ev
          /\ pages_read ev = [1; 2; 3]
          /\ navigations ev = [ReviewsUrl (slug app); ReviewsPageUrl (slug app) 2;
                               ReviewsPageUrl (slug app) 3]).
Proof.
  split; [|split].
  - intros total _. destruct (ceil_div_bounds total PAGINATION.reviewsPerPage) as (pages & E & B);
      [reflexivity|].
    exists pages. split; [|exact B]. simpl. rewrite <- E. reflexivity.
  - intros w r w' H.
    destruct (scrapes_scrapeAppReviews app options w r w' H) as (hint & ev & E & F).
    exists ev. split; [exact E|]. intros total totalPages Hin _.
    destruct (app_event_total _ _ _ _ _ F Hin) as (-> & ->).
    split; [reflexivity|]. split.
    + intros p Hp. destruct (app_event_pages_read _ _ _ _ F Hp) as (_ & Hw).
      exact (Hw total eq_refl).
    + intros s p Hp. destruct (app_event_navigations _ _ _ _ _ F Hp) as (_ & _ & Hw).
      exact (Hw total eq_refl).
  - intros w d1 d2 d3 rest Hr Hcount Hd1 Hn1 Hd2 Hn2.
    rewrite (scrapeAppReviews_opened app options w d1 (Rendered d2 :: Rendered d3 :: rest) Hr).
    cbv zeta. rewrite Hcount.
    set (delayMin := default DELAY.minMs (delayMin options)).
    set (delayMax := default DELAY.maxMs (delayMax options)).
    change (totalPages_for (Some (Int 25))) with (Some (Int 3)).
    change (maxPages_for (Some (Int 25))) with (Int 3).
    change (page_budget (Int 3)) with 4%nat.
    change (Math_ceil_div (Int 25) PAGINATION.reviewsPerPage) with (Int 3).
    assert (Hfull : forall d, reviewBlocks d <> [] ->
              bool_decide (length (reviews_on (name app) (slug app) d) = 0%nat) = false).
    { intros d Hd. apply bool_decide_eq_false. unfold reviews_on. rewrite length_fmap.
      destruct (reviewBlocks d); [congruence|discriminate]. }
    unfold finally.
    set (w1 := mkWorld _ _ d1 _).
    (* page 1 *)
    rewrite (review_pages_unfold (name app) (slug app) delayMin delayMax
               (Some (Int 3)) (Int 3) 3 1 [] w1 w1 eq_refl eq_refl).
    cbv zeta. change (document w1) with d1. rewrite (Hfull d1 Hd1), Hn1.
    change (num_ge 1 (Int 3)) with false. simpl negb. cbv iota.
    (* page 2 *)
    set (w2 := emit _ w1).
    rewrite (review_pages_unfold (name app) (slug app) delayMin delayMax
               (Some (Int 3)) (Int 3) 2 (1 + 1) _ w2
               (mkWorld (disk w2) (Rendered d3 :: rest) d2
                  (events w2 ++ [Goto (ReviewsPageUrl (slug app) (1 + 1));
                                 Delay delayMin delayMax])));
      [|reflexivity|apply enter_next_page; [lia|reflexivity]].
    cbv zeta. simpl document. rewrite (Hfull d2 Hd2), Hn2.
    change (num_ge (1 + 1) (Int 3)) with false. simpl negb. cbv iota.
    (* page 3 *)
    set (w3 := emit _ (mkWorld (disk w2) _ d2 _)).
    rewrite (review_pages_unfold (name app) (slug app) delayMin delayMax
               (Some (Int 3)) (Int 3) 1 (1 + 1 + 1) _ w3
               (mkWorld (disk w3) rest d3
                  (events w3 ++ [Goto (ReviewsPageUrl (slug app) (1 + 1 + 1));
                                 Delay delayMin delayMax])));
      [|reflexivity|apply enter_next_page; [lia|reflexivity]].
    cbv zeta. simpl document.
    change (num_ge (1 + 1 + 1) (Int 3)) with true.
    assert (Hend : forall (b : bool) (x : Outcome Error (list json) * World),
              (if b then x else x) = x).
    { intros [] x; reflexivity. }
    rewrite Hend.
    eexists. eexists. split; [simpl; rewrite <- app_assoc; reflexivity|].
    split; [reflexivity|]. simpl.
    split; [rewrite <- !app_assoc; reflexivity|].
    split; reflexivity.
Qed.

Lemma count_hint_bounds_pages_witness :
  (exists pages,
     totalPages_for (Some (Int 25)) = Some (Int pages)
     /\ PAGINATION.reviewsPerPage * (pages - 1) < 25 <= PAGINATION.reviewsPerPage * pages)
  /\ exists w' ev,
    scrapeAppReviews printful no_options world_25
    = (Ret (reviews_on "Printful" "printful" (review_page (Some (Int 25)) 10 true)
            ++ reviews_on "Printful" "printful" (review_page (Some (Int 25)) 10 true)
            ++ reviews_on "Printful" "printful" (review_page (Some (Int 25)) 5 true)), w')
    /\ remote w' = [Rendered (review_page (Some (Int 25)) 10 true)]
    /\ events w' = events world_25 ++ ev
    /\ pages_read ev = [1; 2; 3]
    /\ navigations ev = [ReviewsUrl "printful"; ReviewsPageUrl "printful" 2;
                         ReviewsPageUrl "printful" 3].
Proof.
  split; [apply (proj1 (count_hint_bounds_pages printful no_options) 25);
          vm_compute; discriminate|].
  apply (proj2 (proj2 (count_hint_bounds_pages printful no_options))
           world_25
           (review_page (Some (Int 25)) 10 true)
           (review_page (Some (Int 25)) 10 true)
           (review_page (Some (Int 25)) 5 true)
           [Rendered (review_page (Some (Int 25)) 10 true)]).
  - reflexivity.
  - reflexivity.
  - discriminate.
  - reflexivity.
  - discriminate.
  - reflexivity.
Defined.

(** ** The checkpoint store *)

(** What a call of [loadCheckpoint] computes, as one equation. *)
Lemma loadCheckpoint_run (filename : string) (defaultValue : json) (w : World) :
  loadCheckpoint filename defaultValue w
  = (match disk w !! path_join DATA_DIR filename with
     | None => Ret defaultValue
     | Some (JsonFile doc) => Ret doc
     | Some Malformed => Throw SyntaxError
     | Some (Unreadable code) => Throw (SystemError code)
     end, w).
Proof.
  unfold loadCheckpoint, existsSync, readFileSync_then_parse, bind, ret.
  destruct (disk w !! path_join DATA_DIR filename) as [[doc| |code]|] eqn:Hf.
  1-3: rewrite bool_decide_eq_true_2 by eauto; rewrite Hf; reflexivity.
  rewrite bool_decide_eq_false_2 by (intros [f Hs]; discriminate). reflexivity.
Qed.

(** C2, as stated, fails: a checkpoint file that is there but does not
    parse makes [loadCheckpoint] throw; the default is not returned. *)
Lemma loadCheckpoint_malformed_throws :
  disk world_malformed !! path_join DATA_DIR "all_reviews.json" = Some Malformed
  /\ loadCheckpoint "all_reviews.json" (JArr []) world_malformed
     = (Throw SyntaxError, world_malformed)
  /\ loadCheckpoint "all_reviews.json" (JArr []) world_malformed
     <> (Ret (JArr []), world_malformed).
Proof.
  split; [reflexivity|]. split; [reflexivity|]. discriminate.
Qed.

(** C2, amended. [loadCheckpoint] returns the parsed prior state when the
    file is present and parses, and the supplied default when the file is
    absent: a file that is not there never makes it throw.  When the file
    is present but cannot be read or parsed, the error of [readFileSync]
    or of [JSON.parse] goes to the caller.  In no case does it change the
    state. *)
Theorem loadCheckpoint_cases (filename : string) (defaultValue : json) (w : World) :
  loadCheckpoint filename defaultValue w
  = (match disk w !! path_join DATA_DIR filename with
     | None => Ret defaultValue
     | Some (JsonFile doc) => Ret doc
     | Some Malformed => Throw SyntaxError
     | Some (Unreadable code) => Throw (SystemError code)
     end, w).
Proof.
  unfold loadCheckpoint, existsSync, readFileSync_then_parse, bind, ret.
  destruct (disk w !! path_join DATA_DIR filename) as [f|] eqn:Hf.
  - rewrite bool_decide_eq_true_2 by eauto. rewrite Hf.
    destruct f as [doc| |code]; reflexivity.
  - rewrite bool_decide_eq_false_2 by (intros [f Hs]; discriminate). reflexivity.
Qed.

(** ** Paths *)

Lemma append_cons (c : Ascii.ascii) (s t : string) :
  String c s +:+ t = String c (s +:+ t).
Proof. reflexivity. Qed.

Lemma append_empty_r (s : string) : s +:+ EmptyString = s.
Proof.
  induction s as [|c s IH]; [reflexivity|]. rewrite append_cons, IH. reflexivity.
Qed.

Lemma append_assoc (a b c : string) : (a +:+ b) +:+ c = a +:+ (b +:+ c).
Proof.
  induction a as [|x a IH]; [reflexivity|]. rewrite !append_cons, IH. reflexivity.
Qed.

(** A string without a separator is one segment. *)
Lemma split_from_no_separator (name : string) :
  forall segment,
    no_separator name = true -> split_from segment name = [segment +:+ name].
Proof.
  induction name as [|c name IH]; intros segment H; simpl.
  - rewrite append_empty_r. reflexivity.
  - simpl in H. apply andb_true_iff in H as [Hc Hn].
    apply negb_true_iff in Hc. rewrite Hc.
    rewrite (IH _ Hn), append_assoc. reflexivity.
Qed.

Lemma trailingSeparator_no_separator (name : string) :
  no_separator name = true -> trailingSeparator name = false.
Proof.
  induction name as [|c name IH]; [reflexivity|].
  simpl. intros H. apply andb_true_iff in H as [Hc Hn].
  apply negb_true_iff in Hc.
  destruct name; [exact Hc|]. apply IH. exact Hn.
Qed.

Lemma trailingSeparator_append (p name : string) :
  name <> EmptyString -> trailingSeparator (p +:+ name) = trailingSeparator name.
Proof.
  intros Hne. induction p as [|c p IH]; [reflexivity|].
  rewrite append_cons. cbn [trailingSeparator].
  destruct (p +:+ name) eqn:E; [|exact IH].
  destruct p; [contradiction|rewrite append_cons in E; discriminate].
Qed.

(** [path.join] under [data/reviews], for a name that is one plain
    segment. *)
Lemma path_join_reviews (name : string) :
  no_separator name = true ->
  name <> EmptyString -> name <> "." -> name <> ".." ->
  path_join REVIEWS_DIR name = "data/reviews/" +:+ name.
Proof.
  intros Hsep H0 H1 H2.
  change REVIEWS_DIR with "data/reviews".
  unfold path_join.
  rewrite (decide_False (P := "data/reviews" = EmptyString)) by discriminate.
  rewrite (decide_False (P := name = EmptyString)) by exact H0.
  change ("data/reviews" +:+ "/" +:+ name) with ("data/reviews/" +:+ name).
  rewrite (decide_False (P := "data/reviews/" +:+ name = EmptyString)) by discriminate.
  unfold path_normalize.
  rewrite (decide_False (P := "data/reviews/" +:+ name = EmptyString)) by discriminate.
  change (isAbsolute ("data/reviews/" +:+ name)) with false.
  rewrite trailingSeparator_append by exact H0.
  rewrite (trailingSeparator_no_separator _ Hsep).
  assert (Hn : normalizeString ("data/reviews/" +:+ name) (negb false)
               = "data/reviews/" +:+ name).
  { unfold normalizeString, segments.
    change (split_from EmptyString ("data/reviews/" +:+ name))
      with ("data" :: "reviews" :: split_from EmptyString name).
    rewrite (split_from_no_separator _ _ Hsep).
    change (EmptyString +:+ name) with name.
    cbn [fold_left].
    change (normalize_step (negb false) [] "data") with ["data"].
    change (normalize_step (negb false) ["data"] "reviews") with ["reviews"; "data"].
    unfold normalize_step.
    rewrite !decide_False by assumption.
    reflexivity. }
  rewrite Hn.
  rewrite (decide_False (P := "data/reviews/" +:+ name = EmptyString)) by discriminate.
  reflexivity.
Qed.

(** The same under [data]. *)
Lemma path_join_data (name : string) :
  file_name name = true -> path_join DATA_DIR name = "data/" +:+ name.
Proof.
  intros H. apply andb_true_iff in H as [Hsep H].
  apply negb_true_iff, bool_decide_eq_false in H.
  assert (H0 : name <> EmptyString) by tauto.
  assert (H1 : name <> ".") by tauto.
  assert (H2 : name <> "..") by tauto.
  clear H.
  change DATA_DIR with "data".
  unfold path_join.
  rewrite (decide_False (P := "data" = EmptyString)) by discriminate.
  rewrite (decide_False (P := name = EmptyString)) by exact H0.
  change ("data" +:+ "/" +:+ name) with ("data/" +:+ name).
  rewrite (decide_False (P := "data/" +:+ name = EmptyString)) by discriminate.
  unfold path_normalize.
  rewrite (decide_False (P := "data/" +:+ name = EmptyString)) by discriminate.
  change (isAbsolute ("data/" +:+ name)) with false.
  rewrite trailingSeparator_append by exact H0.
  rewrite (trailingSeparator_no_separator _ Hsep).
  assert (Hn : normalizeString ("data/" +:+ name) (negb false) = "data/" +:+ name).
  { unfold normalizeString, segments.
    change (split_from EmptyString ("data/" +:+ name))
      with ("data" :: split_from EmptyString name).
    rewrite (split_from_no_separator _ _ Hsep).
    change (EmptyString +:+ name) with name.
    cbn [fold_left].
    change (normalize_step (negb false) [] "data") with ["data"].
    unfold normalize_step.
    rewrite !decide_False by assumption.
    reflexivity. }
  rewrite Hn.
  rewrite (decide_False (P := "data/" +:+ name = EmptyString)) by discriminate.
  reflexivity.
Qed.

Lemma append_inj_l (p a b : string) : p +:+ a = p +:+ b -> a = b.
Proof.
  induction p as [|c p IH]; [auto|].
  rewrite !append_cons. intros H. injection H as H. auto.
Qed.

Lemma json_name_plain (appSlug : string) :
  no_separator appSlug = true ->
  no_separator (appSlug ++ ".json") = true
  /\ appSlug +:+ ".json" <> EmptyString
  /\ appSlug +:+ ".json" <> "."
  /\ appSlug +:+ ".json" <> "..".
Proof.
  intros H. split; [|split; [|split]].
  - induction appSlug as [|c s IH]; [reflexivity|].
    rewrite append_cons. cbn [no_separator] in *.
    apply andb_true_iff in H as [Hc Hs]. rewrite Hc. simpl. auto.
  - destruct appSlug; [|rewrite append_cons]; discriminate.
  - destruct appSlug as [|c [|c' s]]; rewrite ?append_cons; discriminate.
  - destruct appSlug as [|c [|c' [|c'' s]]]; rewrite ?append_cons; discriminate.
Qed.

(** The file of an app whose slug has no separator is the file of that
    name under [data/reviews]. *)
Lemma per_app_path_plain (appSlug : string) :
  no_separator appSlug = true ->
  path_join REVIEWS_DIR (appSlug ++ ".json") = "data/reviews/" +:+ (appSlug ++ ".json").
Proof.
  intros H. destruct (json_name_plain _ H) as (H1 & H2 & H3 & H4).
  apply path_join_reviews; assumption.
Qed.

(** So it is none of the checkpoints. *)
Lemma per_app_path_apart (appSlug : string) :
  no_separator appSlug = true ->
  path_join REVIEWS_DIR (appSlug ++ ".json") <> path_join DATA_DIR "scraped_app_slugs.json"
  /\ path_join REVIEWS_DIR (appSlug ++ ".json") <> path_join DATA_DIR "all_reviews.json"
  /\ path_join REVIEWS_DIR (appSlug ++ ".json") <> path_join DATA_DIR "apps.json".
Proof.
  intros H. rewrite (per_app_path_plain _ H).
  change (path_join DATA_DIR "scraped_app_slugs.json") with "data/scraped_app_slugs.json".
  change (path_join DATA_DIR "all_reviews.json") with "data/all_reviews.json".
  change (path_join DATA_DIR "apps.json") with "data/apps.json".
  repeat split; discriminate.
Qed.

Lemma checkpoint_paths_differ :
  path_join DATA_DIR "scraped_app_slugs.json" <> path_join DATA_DIR "all_reviews.json"
  /\ path_join DATA_DIR "scraped_app_slugs.json" <> path_join DATA_DIR "apps.json"
  /\ path_join DATA_DIR "all_reviews.json" <> path_join DATA_DIR "apps.json".
Proof. repeat split; vm_compute; discriminate. Qed.

(** ** All apps *)

Lemma started_app ev1 ev2 : started (ev1 ++ ev2) = started ev1 ++ started ev2.
Proof.
  induction ev1 as [|e ev1 IH]; [reflexivity|].
  destruct e as [| | | | | | | | |[]|]; simpl; rewrite ?IH; reflexivity.
Qed.

Lemma navigations_app ev1 ev2 :
  navigations (ev1 ++ ev2) = navigations ev1 ++ navigations ev2.
Proof.
  induction ev1 as [|e ev1 IH]; [reflexivity|].
  destruct e; simpl; rewrite ?IH; reflexivity.
Qed.

Lemma writes_app ev1 ev2 : writes (ev1 ++ ev2) = writes ev1 ++ writes ev2.
Proof.
  induction ev1 as [|e ev1 IH]; [reflexivity|].
  destruct e; simpl; rewrite ?IH; reflexivity.
Qed.


(** Scraping one app starts no other app, writes no file and launches no
    browser; it navigates to the pages of its own app only. *)
Lemma app_events_started appSlug hint ev :
  Forall (app_event appSlug hint) ev -> started ev = [].
Proof.
  induction 1 as [|e ev He F IH]; [reflexivity|].
  destruct e as [| | | | | | | | |[]|]; simpl in *; auto; contradiction.
Qed.

Lemma app_events_writes appSlug hint ev :
  Forall (app_event appSlug hint) ev -> writes ev = [].
Proof.
  induction 1 as [|e ev He F IH]; [reflexivity|].
  destruct e; simpl in *; auto; contradiction.
Qed.


Lemma app_events_launch appSlug hint ev headless :
  Forall (app_event appSlug hint) ev -> Launch headless ∉ ev.
Proof.
  intros F Hin. rewrite Forall_forall in F. exact (F _ Hin).
Qed.

Lemma app_events_navigations appSlug hint ev url :
  Forall (app_event appSlug hint) ev -> url ∈ navigations ev ->
  url = ReviewsUrl appSlug \/ exists p, url = ReviewsPageUrl appSlug p.
Proof.
  induction 1 as [|e ev He F IH]; simpl; [intros Hin; inversion Hin|].
  destruct e as [| | | |u| | | | | |]; auto.
  intros Hin. apply elem_of_cons in Hin as [->|Hin]; auto.
  destruct u as [s|s p| |h]; simpl in He; try contradiction.
  - left. congruence.
  - right. destruct He as (-> & _). eauto.
Qed.

(** The first attempt at a navigation is always made. *)
Lemma retry_goto_first url w r w' :
  retry_goto url w = (r, w') -> exists ev, events w' = events w ++ Goto url :: ev.
Proof.
  destruct w as [dk answers doc ev0].
  unfold retry_goto, retry, bind. simpl. unfold goto. simpl.
  destruct answers as [|[d1|m1] [|[d2|m2] [|[d3|m3] answers]]]; simpl;
    intros H; inversion H; subst; simpl; rewrite <- ?app_assoc; eexists; reflexivity.
Qed.

(** Whatever else it does, [scrapeAppReviews] asks the remote for the
    first page of reviews of its app. *)
Lemma scrapeAppReviews_navigates app options w r w' :
  scrapeAppReviews app options w = (r, w') ->
  exists ev, events w' = events w ++ ev /\ ReviewsUrl (slug app) ∈ navigations ev.
Proof.
  intros H. unfold scrapeAppReviews in H.
  unfold bind at 1 in H. unfold newPage, effect in H.
  destruct (finally_inv _ _ _ _ _ H) as (r0 & w1 & Hbody & Hclean). clear H.
  assert (Hb : exists ev, events w1 = events w ++ ev
                          /\ ReviewsUrl (slug app) ∈ navigations ev).
  { unfold bind at 1 in Hbody. unfold log at 1, effect in Hbody.
    destruct (bind_inv _ _ _ _ _ Hbody) as [(a & w2 & H1 & H2)|[(e & H1 & _)|(H1 & _)]].
    - destruct (retry_goto_first _ _ _ _ H1) as (evg & Eg).
      assert (Hrest : exists ev, events w1 = events w2 ++ ev).
      { cbv beta in H2.
        match type of H2 with
        | ?m w2 = _ => assert (Hem : emits (fun _ => True) m)
        end.
        { apply emits_bind; [apply emits_delay; exact I|]. intros _.
          apply emits_bind.
          { apply emits_silent with (f := fun w => Ret (count_hint (document w))). }
          intros totalCount.
          apply (emits_weaken (app_event (slug app) totalCount)); [auto|].
          apply emits_bind.
          { destruct totalCount as [n|]; [|apply emits_ret].
            apply emits_log. simpl. auto. }
          intros _.
          apply emits_review_pages; [|lia].
          intros p Hp n ->. exact Hp. }
        destruct (Hem _ _ _ H2) as (ev & E & _). eauto. }
      destruct Hrest as (ev & E).
      eexists. split; [rewrite E, Eg; simpl; rewrite <- !app_assoc; reflexivity|].
      simpl. left.
    - destruct (retry_goto_first _ _ _ _ H1) as (evg & Eg).
      eexists. split; [rewrite Eg; simpl; rewrite <- !app_assoc; reflexivity|].
      simpl. left.
    - destruct (retry_goto_first _ _ _ _ H1) as (evg & Eg).
      eexists. split; [rewrite Eg; simpl; rewrite <- !app_assoc; reflexivity|].
      simpl. left. }
  destruct Hb as (ev & E & Hin).
  destruct Hclean as [(_ & _ & ->)|(rc & H2 & _)]; [eauto|].
  unfold page_close, effect in H2. inversion H2; subst.
  exists (ev ++ [PageClose]). split; [simpl; rewrite E, <- app_assoc; reflexivity|].
  rewrite navigations_app. apply elem_of_app. left. exact Hin.
Qed.

Lemma after_writes_snoc ws pw w :
  after_writes (ws ++ [pw]) w = written (fst pw) (snd pw) (after_writes ws w).
Proof. unfold after_writes. rewrite fold_left_app. reflexivity. Qed.

Lemma after_writes_state ws :
  forall w,
    events (after_writes ws w) = events w ++ (write_event <$> ws)
    /\ disk (after_writes ws w) = replay ws (disk w)
    /\ remote (after_writes ws w) = remote w
    /\ document (after_writes ws w) = document w.
Proof.
  induction ws as [|pw ws IH]; intros w.
  - simpl. rewrite app_nil_r. auto.
  - cbn [after_writes fold_left]. fold (after_writes ws (written (fst pw) (snd pw) w)).
    destruct (IH (written (fst pw) (snd pw) w)) as (E & D & R & Doc).
    rewrite E, D, R, Doc. simpl. rewrite <- app_assoc. auto.
Qed.

Lemma writes_write_events ws : writes (write_event <$> ws) = ws.
Proof.
  induction ws as [|[path doc] ws IH]; [reflexivity|].
  rewrite fmap_cons. simpl. rewrite IH. reflexivity.
Qed.

Lemma started_write_events ws : started (write_event <$> ws) = [].
Proof. induction ws as [|pw ws IH]; [reflexivity|exact IH]. Qed.

Lemma navigations_write_events ws : navigations (write_event <$> ws) = [].
Proof. induction ws as [|pw ws IH]; [reflexivity|exact IH]. Qed.

Lemma write_events_launch (ws : list (string * json)) headless :
  Launch headless ∉ write_event <$> ws.
Proof.
  intros Hin. apply list_elem_of_fmap in Hin as (pw & Hpw & _). discriminate.
Qed.

(** One turn of the loop over the apps: the app is announced and scraped;
    if that fails the loop ends there.  Otherwise the three files are
    written, the set of slugs first, and the loop goes on; a write that
    throws ends the loop, the writes before it having been made. *)
Lemma scrape_each_cons_inv options total i app rest scrapedSet bySlug w r w' :
  scrape_each options total i (app :: rest) scrapedSet bySlug w = (r, w') ->
  exists r1 w1 hint ev1,
    scrapeAppReviews app options
      (emit (Log (LogApp (i + 1) total (name app) (slug app))) w) = (r1, w1)
    /\ events w1 = events w ++ Log (LogApp (i + 1) total (name app) (slug app)) :: ev1
    /\ Forall (app_event (slug app) hint) ev1
    /\ ReviewsUrl (slug app) ∈ navigations ev1
    /\ match r1 with
       | Ret reviews =>
           let bySlug' := map_set (slug_key (slug app)) reviews bySlug in
           let scrapedSet' := set_add (JStr (slug app)) scrapedSet in
           let ws := turn (slug app) scrapedSet' reviews (flatten bySlug') in
           scrape_each options total (Datatypes.S i) rest scrapedSet' bySlug'
             (after_writes ws w1) = (r, w')
           \/ exists k code,
                (k < 3)%nat /\ r = Throw (SystemError code)
                /\ w' = after_writes (take k ws) w1
       | Throw e => r = Throw e /\ w' = w1
       | OutOfFuel => r = OutOfFuel /\ w' = w1
       end.
Proof.
  intros H. simpl in H. unfold bind at 1 in H. unfold log at 1, effect in H.
  unfold bind at 1 in H.
  destruct (scrapeAppReviews app options _) as [r1 w1] eqn:Hs.
  destruct (scrapes_scrapeAppReviews app options _ _ _ Hs) as (hint & ev1 & E1 & F1).
  destruct (scrapeAppReviews_navigates app options _ _ _ Hs) as (ev1' & E1' & Hnav).
  rewrite E1 in E1'. apply app_inv_head in E1'. subst ev1'.
  exists r1, w1, hint, ev1. split; [reflexivity|].
  split; [rewrite E1; simpl; rewrite <- app_assoc; reflexivity|].
  split; [exact F1|]. split; [exact Hnav|].
  destruct r1 as [reviews|e|]; [|inversion H; auto|inversion H; auto].
  cbv zeta.
  unfold bind at 1 in H.
  destruct (saveCheckpoint_cases "scraped_app_slugs.json"
              (JArr (set_add (JStr (slug app)) scrapedSet)) w1) as [(code & E)|E];
    rewrite E in H; clear E.
  { inversion H; subst. right. exists 0%nat, code. split; [lia|]. auto. }
  unfold bind at 1 in H.
  match type of H with
  | context [saveAppReviews ?s ?rv ?w0] =>
      destruct (saveAppReviews_cases s rv w0) as [(code & E)|E]; rewrite E in H; clear E
  end.
  { inversion H; subst. right. exists 1%nat, code. split; [lia|]. auto. }
  unfold bind at 1 in H.
  match type of H with
  | context [saveCheckpoint ?f ?d ?w0] =>
      destruct (saveCheckpoint_cases f d w0) as [(code & E)|E]; rewrite E in H; clear E
  end.
  { inversion H; subst. right. exists 2%nat, code. split; [lia|]. auto. }
  left. exact H.
Qed.

(** *** The set of scraped slugs *)

Lemma set_has_app x s1 s2 : set_has x (s1 ++ s2) = set_has x s1 || set_has x s2.
Proof. unfold set_has. apply existsb_app. Qed.

Lemma set_has_add x y s :
  set_has x (set_add y s) = set_has x s || same_value_zero x y.
Proof.
  unfold set_add. destruct (set_has y s) eqn:Hy.
  - destruct (same_value_zero x y) eqn:Hxy; [|rewrite orb_false_r; reflexivity].
    rewrite orb_true_r.
    destruct x as [p| |], y as [q| |]; simpl in Hxy; try discriminate.
    apply bool_decide_eq_true in Hxy. subst q. exact Hy.
  - rewrite set_has_app. simpl. rewrite orb_false_r. reflexivity.
Qed.

Lemma set_has_fold x items s :
  set_has x (fold_left (fun s y => set_add y s) items s)
  = set_has x s || existsb (same_value_zero x) items.
Proof.
  revert s. induction items as [|y items IH]; intros s; simpl.
  - rewrite orb_false_r. reflexivity.
  - rewrite IH, set_has_add, orb_assoc. reflexivity.
Qed.

(** A slug is in the set made of the checkpoint exactly when the
    checkpoint lists it. *)
Lemma set_has_new_Set_slugs s scraped :
  set_has (JStr s) (new_Set (JStr <$> scraped)) = bool_decide (s ∈ scraped).
Proof.
  unfold new_Set. rewrite set_has_fold. simpl.
  induction scraped as [|t scraped IH]; [reflexivity|].
  rewrite fmap_cons. cbn [existsb]. rewrite IH. unfold JStr at 1 2. cbn [same_value_zero].
  - destruct (decide (s = t)) as [->|Hne].
    + rewrite (bool_decide_eq_true_2 (PStr t = PStr t)) by reflexivity.
      symmetry. apply bool_decide_eq_true. left.
    + rewrite (bool_decide_eq_false_2 (PStr s = PStr t)) by congruence.
      simpl. apply bool_decide_ext. rewrite elem_of_cons. tauto.
Qed.

Lemma toProcess_of_remaining_from startFromSlug scraped apps :
  toProcess_of startFromSlug (new_Set (JStr <$> scraped)) apps
  = remaining_from startFromSlug scraped apps.
Proof.
  unfold toProcess_of, remaining_from.
  destruct (truthy startFromSlug); induction apps as [|a apps IH]; try reflexivity;
    cbn [List.filter]; rewrite set_has_new_Set_slugs, IH.
  - rewrite orb_comm, andb_true_l. reflexivity.
  - rewrite andb_false_l, orb_false_r. reflexivity.
Qed.

Lemma remaining_from_falsy startFromSlug scraped apps :
  truthy startFromSlug = false ->
  remaining_from startFromSlug scraped apps = remaining scraped apps.
Proof.
  intros Hs. unfold remaining_from, remaining. rewrite Hs.
  induction apps as [|a apps IH]; [reflexivity|].
  cbn [List.filter]. rewrite andb_false_l, orb_false_r, IH. reflexivity.
Qed.

(** *** What the loop over the apps does *)

(** The apps the loop starts on are the ones it was given, in order: all
    of them if it returns, and the first ones up to the failing one if it
    throws.  Every app it starts on is fetched; it navigates to pages of
    these apps only, and launches nothing. *)
Lemma scrape_each_events options total rest :
  forall i scrapedSet bySlug w r w',
    scrape_each options total i rest scrapedSet bySlug w = (r, w') ->
    exists ev,
      events w' = events w ++ ev
      /\ started ev `prefix_of` (slug <$> rest)
      /\ ((exists v, r = Ret v) -> started ev = slug <$> rest)
      /\ (forall url, url ∈ navigations ev ->
            exists a, a ∈ rest
                      /\ (url = ReviewsUrl (slug a) \/ exists p, url = ReviewsPageUrl (slug a) p))
      /\ (forall s, s ∈ started ev -> ReviewsUrl s ∈ navigations ev)
      /\ (forall headless, Launch headless ∉ ev).
Proof.
  induction rest as [|app rest IH]; intros i scrapedSet bySlug w r w' H.
  - inversion H; subst. exists []. rewrite app_nil_r.
    split; [reflexivity|]. split; [reflexivity|]. split; [reflexivity|].
    split; [intros url Hin; inversion Hin|].
    split; [intros s Hin; inversion Hin|intros h Hin; inversion Hin].
  - destruct (scrape_each_cons_inv _ _ _ _ _ _ _ _ _ _ H)
      as (r1 & w1 & hint & ev1 & Hs & E1 & F1 & Hfetch & Hrest).
    pose proof (app_events_started _ _ _ F1) as Hst1.
    assert (Hnav1 : forall url, url ∈ navigations ev1 ->
              exists a, a ∈ app :: rest
                /\ (url = ReviewsUrl (slug a) \/ exists p, url = ReviewsPageUrl (slug a) p)).
    { intros url Hin. exists app. split; [left|].
      exact (app_events_navigations _ _ _ _ F1 Hin). }
    (* the loop ends in this turn, after the writes [ws] *)
    assert (Hstop : forall ws : list (string * json),
              (forall v, r <> Ret v) ->
              events w' = events w1 ++ (write_event <$> ws) ->
              exists ev,
                events w' = events w ++ ev
                /\ started ev `prefix_of` (slug <$> app :: rest)
                /\ ((exists v, r = Ret v) -> started ev = slug <$> app :: rest)
                /\ (forall url, url ∈ navigations ev ->
                      exists a, a ∈ app :: rest
                        /\ (url = ReviewsUrl (slug a)
                            \/ exists p, url = ReviewsPageUrl (slug a) p))
                /\ (forall s, s ∈ started ev -> ReviewsUrl s ∈ navigations ev)
                /\ (forall headless, Launch headless ∉ ev)).
    { intros ws Hr E.
      exists ([Log (LogApp (i + 1) total (name app) (slug app))] ++ ev1
              ++ (write_event <$> ws)).
      split; [rewrite E, E1, <- app_assoc; reflexivity|].
      rewrite !started_app, !navigations_app, Hst1,
        started_write_events, navigations_write_events, !app_nil_r.
      cbn [started navigations Datatypes.app fmap list_fmap].
      split; [apply prefix_cons, prefix_nil|].
      split; [intros (v & Hv); destruct (Hr v Hv)|].
      split; [exact Hnav1|].
      split.
      { intros s Hin. apply list_elem_of_singleton in Hin. subst s. exact Hfetch. }
      intros h Hin. apply elem_of_cons in Hin as [Hin|Hin]; [discriminate|].
      apply elem_of_app in Hin as [Hin|Hin]; [exact (app_events_launch _ _ _ h F1 Hin)|].
      exact (write_events_launch _ _ Hin). }
    destruct r1 as [reviews|e|].
    + cbv zeta in Hrest. destruct Hrest as [Hgo|(k & code & Hk & -> & ->)].
      2:{ apply (Hstop (take k (turn (slug app) (set_add (JStr (slug app)) scrapedSet)
                                  reviews
                                  (flatten (map_set (slug_key (slug app)) reviews bySlug)))));
            [discriminate|]. apply after_writes_state. }
      clear Hstop.
      destruct (IH _ _ _ _ _ _ Hgo) as (ev3 & E3 & Hpre & Hall & Hnav & Hfetched & Hlaunch).
      destruct (after_writes_state
                  (turn (slug app) (set_add (JStr (slug app)) scrapedSet) reviews
                     (flatten (map_set (slug_key (slug app)) reviews bySlug))) w1)
        as (E2 & _).
      set (ws := turn _ _ _ _) in *.
      exists ([Log (LogApp (i + 1) total (name app) (slug app))] ++ ev1
              ++ (write_event <$> ws) ++ ev3).
      split; [rewrite E3, E2, E1, <- !app_assoc; reflexivity|].
      rewrite !started_app, !navigations_app, Hst1,
        started_write_events, navigations_write_events.
      cbn [started navigations Datatypes.app fmap list_fmap].
      split; [apply prefix_cons; exact Hpre|].
      split; [intros Hret; rewrite (Hall Hret); reflexivity|].
      split; [|split].
      * intros url. rewrite elem_of_app. intros [Hin|Hin]; [auto|].
        destruct (Hnav url Hin) as (a & Ha & Hurl). exists a. split; [right; exact Ha|exact Hurl].
      * intros s Hin. apply elem_of_app.
        apply elem_of_cons in Hin as [->|Hin]; [left; exact Hfetch|right; auto].
      * intros h Hin. apply elem_of_cons in Hin as [Hin|Hin]; [discriminate|].
        apply elem_of_app in Hin as [Hin|Hin]; [exact (app_events_launch _ _ _ h F1 Hin)|].
        apply elem_of_app in Hin as [Hin|Hin]; [exact (write_events_launch _ _ Hin)|].
        exact (Hlaunch h Hin).
    + destruct Hrest as (-> & ->).
      apply (Hstop []); [discriminate|]. simpl. rewrite app_nil_r. reflexivity.
    + destruct Hrest as (-> & ->).
      apply (Hstop []); [discriminate|]. simpl. rewrite app_nil_r. reflexivity.
Qed.

(** C8, as stated, fails when [startFromSlug] is given: with [A] and [B]
    scraped, the list [A], [B], [C] and a run asked to start from [A], the
    run fetches [A] again, then [C], although [A] is in the loaded set. *)
Lemma resume_refetches_start :
  default true (resume from_A) = true
  /\ loadCheckpoint "scraped_app_slugs.json" (JArr []) world_restarted
     = (Ret (JArr (JStr <$> ["A"; "B"])), world_restarted)
  /\ remaining ["A"; "B"] [app_A; app_B; app_C] = [app_C]
  /\ started (events (snd (scrapeAllReviews [app_A; app_B; app_C] from_A world_restarted)))
     = ["A"; "C"]
  /\ navigations (events (snd (scrapeAllReviews [app_A; app_B; app_C] from_A world_restarted)))
     = [ReviewsUrl "A"; ReviewsUrl "C"].
Proof. vm_compute. auto. Qed.

(** C8, amended. A resumed run of [scrapeAllReviews] (resume on) processes
    exactly the entities whose slug is not in the loaded set of scraped
    slugs and, when [startFromSlug] is given, the entity of that slug as
    well, scraped or not; without [startFromSlug] these are exactly the
    entities whose slug is not in the set.  The apps the run starts on are
    these, in order, all of them if the run returns; it navigates to the
    reviews of every app it starts on, and to no page of any other app
    (with [A] and [B] scraped and the list [A], [B], [C], only [C] is
    fetched).  If no entity is left while the list is not empty, it
    returns what [all_reviews.json] holds, as it is loaded, navigates
    nowhere and launches no browser. *)
Theorem resume_processes_remaining (apps : list App) (options : Options)
    (scraped : list string) (w : World) r w' :
  default true (resume options) = true ->
  loadCheckpoint "scraped_app_slugs.json" (JArr []) w
  = (Ret (JArr (JStr <$> scraped)), w) ->
  scrapeAllReviews apps options w = (r, w') ->
  exists ev,
    events w' = events w ++ ev
    /\ started ev `prefix_of` (slug <$> remaining_from (startFromSlug options) scraped apps)
    /\ ((exists v, r = Ret v) ->
          started ev = slug <$> remaining_from (startFromSlug options) scraped apps)
    /\ (forall url, url ∈ navigations ev ->
          exists a, a ∈ remaining_from (startFromSlug options) scraped apps
                    /\ (url = ReviewsUrl (slug a)
                        \/ exists p, url = ReviewsPageUrl (slug a) p))
    /\ (forall s, s ∈ started ev -> ReviewsUrl s ∈ navigations ev)
    /\ (truthy (startFromSlug options) = false ->
          remaining_from (startFromSlug options) scraped apps = remaining scraped apps)
    /\ (remaining_from (startFromSlug options) scraped apps = [] -> apps <> [] ->
          (r, w') = loadCheckpoint "all_reviews.json" (JArr [])
                      (emit (Log LogAllScraped) w)
          /\ navigations ev = []
          /\ forall headless, Launch headless ∉ ev).
Proof.
  intros Hres Hload H.
  enough (Hmain : exists ev,
    events w' = events w ++ ev
    /\ started ev `prefix_of` (slug <$> remaining_from (startFromSlug options) scraped apps)
    /\ ((exists v, r = Ret v) ->
          started ev = slug <$> remaining_from (startFromSlug options) scraped apps)
    /\ (forall url, url ∈ navigations ev ->
          exists a, a ∈ remaining_from (startFromSlug options) scraped apps
                    /\ (url = ReviewsUrl (slug a)
                        \/ exists p, url = ReviewsPageUrl (slug a) p))
    /\ (forall s, s ∈ started ev -> ReviewsUrl s ∈ navigations ev)
    /\ (remaining_from (startFromSlug options) scraped apps = [] -> apps <> [] ->
          (r, w') = loadCheckpoint "all_reviews.json" (JArr [])
                      (emit (Log LogAllScraped) w)
          /\ navigations ev = []
          /\ forall headless, Launch headless ∉ ev)).
  { destruct Hmain as (ev & H1 & H2 & H3 & H4 & H5 & H6). exists ev.
    split; [exact H1|]. split; [exact H2|]. split; [exact H3|]. split; [exact H4|].
    split; [exact H5|]. split; [apply remaining_from_falsy|exact H6]. }
  unfold scrapeAllReviews in H.
  rewrite Hres in H. unfold bind at 1 in H. rewrite Hload in H.
  rewrite toProcess_of_remaining_from in H.
  destruct (remaining_from (startFromSlug options) scraped apps) as [|a0 rem] eqn:Hrem.
  - (* nothing remains *)
    destruct apps as [|a apps'].
    + (* and nothing was asked: the browser is launched for no app *)
      simpl in H. unfold bind at 1 in H. unfold launch, effect in H.
      unfold bind at 1 in H.
      destruct (loadCheckpoint "all_reviews.json" (JArr []) _) as [r1 w1] eqn:Hl.
      destruct (emits_loadCheckpoint (fun _ => False) _ _ _ _ _ Hl) as (ev1 & E1 & F1).
      destruct ev1; [|inversion F1; contradiction]. rewrite app_nil_r in E1.
      assert (Hend : exists ev, events w' = events w ++ ev /\ started ev = []
                                /\ navigations ev = []).
      { destruct r1 as [allReviews|e|]; [|inversion H; subst; rewrite E1; simpl; eauto..].
        unfold bind at 1 in H. unfold group_by_slug in H.
        destruct allReviews as [p|records|fields];
          [inversion H; subst; rewrite E1; simpl; eauto| |
           inversion H; subst; rewrite E1; simpl; eauto].
        destruct (group_from 0 records []) as [bySlug|e|];
          [|inversion H; subst; rewrite E1; simpl; eauto..].
        unfold finally, bind, ret, browser_close, effect in H. simpl in H.
        inversion H; subst. simpl. rewrite E1. simpl. rewrite <- app_assoc. simpl. eauto. }
      destruct Hend as (ev & E & Hst & Hnav).
      exists ev. split; [exact E|]. rewrite Hst, Hnav.
      split; [reflexivity|]. split; [reflexivity|].
      split; [intros url Hin; inversion Hin|].
      split; [intros s Hin; inversion Hin|]. intros _ Hne. congruence.
    + (* the fast path *)
      simpl in H. unfold bind at 1 in H. unfold log at 1, effect in H.
      destruct (emits_loadCheckpoint (fun _ => False) _ _ _ _ _ H) as (ev1 & E1 & F1).
      destruct ev1; [|inversion F1; contradiction]. rewrite app_nil_r in E1.
      exists [Log LogAllScraped]. split; [exact E1|].
      split; [apply prefix_nil|]. split; [reflexivity|].
      split; [intros url Hin; inversion Hin|].
      split; [intros s Hin; inversion Hin|]. intros _ _.
      split; [symmetry; exact H|]. split; [reflexivity|].
      intros h Hin. apply elem_of_cons in Hin as [Hin|Hin]; [discriminate|inversion Hin].
  - (* some remain *)
    assert (Hcond : bool_decide (length (a0 :: rem) = 0%nat)
                    && bool_decide (0 < length apps)%nat = false) by reflexivity.
    rewrite Hcond in H. clear Hcond.
    unfold bind at 1 in H. unfold launch, effect in H.
    unfold bind at 1 in H.
    destruct (loadCheckpoint "all_reviews.json" (JArr []) _) as [r1 w1] eqn:Hl.
    destruct (emits_loadCheckpoint (fun _ => False) _ _ _ _ _ Hl) as (ev1 & E1 & F1).
    destruct ev1; [|inversion F1; contradiction]. rewrite app_nil_r in E1.
    simpl in E1.
    assert (Hshort : forall e : Error + unit,
              r = match e with inl e => Throw e | inr _ => OutOfFuel end ->
              events w' = events w ++ [Launch (default true (headless options))] ->
              exists ev,
                events w' = events w ++ ev
                /\ started ev `prefix_of` (slug <$> a0 :: rem)
                /\ ((exists v, r = Ret v) -> started ev = slug <$> a0 :: rem)
                /\ (forall url, url ∈ navigations ev ->
                      exists a, a ∈ a0 :: rem
                                /\ (url = ReviewsUrl (slug a)
                                    \/ exists p, url = ReviewsPageUrl (slug a) p))
                /\ (forall s, s ∈ started ev -> ReviewsUrl s ∈ navigations ev)
                /\ (a0 :: rem = [] -> apps <> [] ->
                      (r, w') = loadCheckpoint "all_reviews.json" (JArr [])
                                  (emit (Log LogAllScraped) w)
                      /\ navigations ev = []
                      /\ forall headless, Launch headless ∉ ev)).
    { intros e Hr E. eexists. split; [exact E|]. simpl.
      split; [apply prefix_nil|].
      split; [intros (v & Hv); destruct e; congruence|].
      split; [intros url Hin; inversion Hin|].
      split; [intros s Hin; inversion Hin|intros Hnil; discriminate]. }
    destruct r1 as [allReviews|e|];
      [|inversion H; subst; apply (Hshort (inl e)); [reflexivity|exact E1]
       |inversion H; subst; apply (Hshort (inr tt)); [reflexivity|exact E1]].
    unfold bind at 1 in H. unfold group_by_slug in H.
    destruct allReviews as [p|records|fields];
      [inversion H; subst; apply (Hshort (inl TypeError)); [reflexivity|exact E1]
      |
      |inversion H; subst; apply (Hshort (inl TypeError)); [reflexivity|exact E1]].
    destruct (group_from 0 records []) as [bySlug|e|];
      [|inversion H; subst; apply (Hshort (inl e)); [reflexivity|exact E1]
       |inversion H; subst; apply (Hshort (inr tt)); [reflexivity|exact E1]].
    clear Hshort.
    unfold finally, bind in H.
    destruct (scrape_each options _ 0 (a0 :: rem) _ bySlug w1) as [r2 w2] eqn:Hloop.
    destruct (scrape_each_events _ _ _ _ _ _ _ _ _ Hloop)
      as (ev & E & Hpre & Hall & Hnav & Hfetched & Hlaunch).
    assert (Hw' : exists tail, events w' = events w2 ++ tail
                               /\ started tail = [] /\ navigations tail = []
                               /\ ((exists v, r = Ret v) -> exists v, r2 = Ret v)).
    { destruct r2 as [v|e|]; simpl in H; inversion H; subst; simpl.
      - exists [BrowserClose]. eauto.
      - exists [BrowserClose]. repeat split; auto. intros (v & Hv); discriminate.
      - exists []. rewrite app_nil_r. repeat split; auto. intros (v & Hv); discriminate. }
    destruct Hw' as (tail & Et & Hst & Hnt & Hret).
    exists (Launch (default true (headless options)) :: ev ++ tail).
    split; [rewrite Et, E, E1, <- !app_assoc; reflexivity|].
    simpl. rewrite started_app, navigations_app, Hst, Hnt, !app_nil_r.
    split; [exact Hpre|]. split; [intros Hr; exact (Hall (Hret Hr))|].
    split; [exact Hnav|]. split; [exact Hfetched|]. intros Hnil; discriminate.
Qed.

Lemma resume_processes_remaining_witness :
  exists ev,
    events (snd (scrapeAllReviews [app_A; app_B; app_C] no_options world_resumed))
    = events world_resumed ++ ev
    /\ started ev `prefix_of` (slug <$> remaining_from None ["A"; "B"] [app_A; app_B; app_C])
    /\ ((exists v, fst (scrapeAllReviews [app_A; app_B; app_C] no_options world_resumed) = Ret v)
        -> started ev = slug <$> remaining_from None ["A"; "B"] [app_A; app_B; app_C])
    /\ (forall url, url ∈ navigations ev ->
          exists a, a ∈ remaining_from None ["A"; "B"] [app_A; app_B; app_C]
                    /\ (url = ReviewsUrl (slug a)
                        \/ exists p, url = ReviewsPageUrl (slug a) p))
    /\ (forall s, s ∈ started ev -> ReviewsUrl s ∈ navigations ev)
    /\ (truthy None = false ->
          remaining_from None ["A"; "B"] [app_A; app_B; app_C]
          = remaining ["A"; "B"] [app_A; app_B; app_C])
    /\ (remaining_from None ["A"; "B"] [app_A; app_B; app_C] = [] ->
        [app_A; app_B; app_C] <> [] ->
          (fst (scrapeAllReviews [app_A; app_B; app_C] no_options world_resumed),
           snd (scrapeAllReviews [app_A; app_B; app_C] no_options world_resumed))
          = loadCheckpoint "all_reviews.json" (JArr [])
              (emit (Log LogAllScraped) world_resumed)
          /\ navigations ev = []
          /\ forall headless, Launch headless ∉ ev).
Proof.
  apply (resume_processes_remaining [app_A; app_B; app_C] no_options ["A"; "B"]
           world_resumed).
  - reflexivity.
  - reflexivity.
  - apply surjective_pairing.
Defined.

(** The cases of the claim, evaluated: with [A] and [B] scraped only [C]
    is started on and fetched; asked to start from [A], the run is left
    with [A] and [C]; with all three scraped the combined checkpoint comes
    back as it is, and no browser is launched. *)
Example resume_fetches_only_C :
  remaining ["A"; "B"] [app_A; app_B; app_C] = [app_C]
  /\ started (events (snd (scrapeAllReviews [app_A; app_B; app_C] no_options world_resumed)))
     = ["C"]
  /\ navigations (events (snd (scrapeAllReviews [app_A; app_B; app_C] no_options world_resumed)))
     = [ReviewsUrl "C"].
Proof. vm_compute. auto. Qed.

Example resume_from_A :
  remaining_from (startFromSlug from_A) ["A"; "B"] [app_A; app_B; app_C] = [app_A; app_C].
Proof. vm_compute. reflexivity. Qed.

Example resume_all_done :
  scrapeAllReviews [app_A; app_B; app_C] no_options world_all_done
  = (Ret (JArr [review_of_block "App A" "A" (sample_block "A. Merchant")]),
     emit (Log LogAllScraped) world_all_done).
Proof. vm_compute. reflexivity. Qed.

(** *** The combined checkpoint *)

Lemma map_has_map_set {V} (k k' : Key) (v : V) (m : list (Key * V)) :
  map_has k' (map_set k v m) = map_has k' m || bool_decide (k = k').
Proof.
  induction m as [|[k0 v0] m IH]; simpl.
  - rewrite orb_false_r. reflexivity.
  - destruct (decide (k0 = k)) as [->|Hne]; simpl.
    + destruct (bool_decide (k = k')) eqn:Hk; simpl; [reflexivity|].
      rewrite orb_false_r. reflexivity.
    + rewrite IH, orb_assoc. reflexivity.
Qed.

Lemma map_has_false_lookup {V} (k : Key) (m : list (Key * V)) :
  map_has k m = false -> Forall (fun kv => fst kv <> k) m.
Proof.
  induction m as [|[k0 v0] m IH]; simpl; [constructor|].
  intros H. apply orb_false_iff in H as [H1 H2].
  constructor; [apply bool_decide_eq_false in H1; exact H1|auto].
Qed.

Lemma flatten_cons (k : Key) (v : list json) (m : list (Key * list json)) :
  flatten ((k, v) :: m) = v ++ flatten m.
Proof. reflexivity. Qed.

(** Setting a key that the map does not have adds its records at the end. *)
Lemma flatten_map_set_fresh (k : Key) (v : list json) (m : list (Key * list json)) :
  map_has k m = false -> flatten (map_set k v m) = flatten m ++ v.
Proof.
  induction m as [|[k0 v0] m IH]; intros H.
  - simpl. unfold flatten. simpl. rewrite app_nil_r. reflexivity.
  - simpl in H. apply orb_false_iff in H as [H1 H2]. apply bool_decide_eq_false in H1.
    simpl in H1. cbn [map_set]. destruct (decide (k0 = k)); [contradiction|].
    rewrite !flatten_cons, IH by exact H2. rewrite app_assoc. reflexivity.
Qed.






Lemma filter_apps_NoDup (f : App -> bool) (apps : list App) :
  NoDup (slug <$> apps) ->
  NoDup (slug <$> List.filter f apps)
  /\ forall a, a ∈ List.filter f apps -> a ∈ apps.
Proof.
  induction apps as [|a apps IH]; intros Hnd; [split; [exact Hnd|auto]|].
  rewrite fmap_cons in Hnd. apply NoDup_cons in Hnd as (Hnotin & Hnd).
  destruct (IH Hnd) as (IH1 & IH2). simpl. destruct (f a).
  - split.
    + rewrite fmap_cons. apply NoDup_cons. split; [|exact IH1].
      intros Hin. apply Hnotin. apply list_elem_of_fmap in Hin as (b & Hb & Hin).
      apply list_elem_of_fmap. exists b. split; [exact Hb|]. apply IH2. exact Hin.
    + intros b Hin. apply elem_of_cons in Hin as [->|Hin]; [left|right; auto].
  - split; [exact IH1|]. intros b Hin. right. auto.
Qed.

Lemma toProcess_of_NoDup startFromSlug scrapedSet apps :
  NoDup (slug <$> apps) ->
  NoDup (slug <$> toProcess_of startFromSlug scrapedSet apps)
  /\ forall a, a ∈ toProcess_of startFromSlug scrapedSet apps -> a ∈ apps.
Proof.
  intros Hnd. unfold toProcess_of.
  destruct (truthy startFromSlug); apply filter_apps_NoDup; exact Hnd.
Qed.




(** The run of the witness, evaluated: one record to start from, three
    after [B], four after [C]. *)
Example combined_checkpoint_grows :
  combined_sizes
    (events (snd (scrapeAllReviews [app_A; app_B; app_C] no_options world_A_done)))
  = [3%nat; 4%nat].
Proof. vm_compute. reflexivity. Qed.

(** *** The order of the three writes *)

(** C1. The code marks the slug before the records are saved: the set of
    scraped slugs is the first of the three files written for an entity.
    Here one app with two reviews is scraped.  A process killed between
    the first write and the second leaves the slug in
    [scraped_app_slugs.json] and neither the per-entity file nor the
    combined checkpoint; the run that follows takes the app for done,
    fetches nothing and returns no records. *)
Theorem slug_marked_before_records_saved :
  let run := scrapeAllReviews [printful] no_options world_two_reviews in
  fst run = Ret (JArr two_reviews)
  /\ writes (events (snd run))
     = [ (path_join DATA_DIR "scraped_app_slugs.json", JArr [JStr "printful"]);
         (path_join REVIEWS_DIR "printful.json", JArr two_reviews);
         (path_join DATA_DIR "all_reviews.json", JArr two_reviews) ]
  /\ let left_behind := disk_after_crash 1 (disk world_two_reviews) (events (snd run)) in
     left_behind !! path_join DATA_DIR "scraped_app_slugs.json"
     = Some (JsonFile (JArr [JStr "printful"]))
     /\ left_behind !! path_join REVIEWS_DIR "printful.json" = None
     /\ left_behind !! path_join DATA_DIR "all_reviews.json" = None
     /\ scrapeAllReviews [printful] no_options (world_after_crash left_behind)
        = (Ret (JArr []), emit (Log LogAllScraped) (world_after_crash left_behind)).
Proof.
  cbv zeta. split; [vm_compute; reflexivity|]. split; [vm_compute; reflexivity|].
  split; [vm_compute; reflexivity|]. split; [vm_compute; reflexivity|].
  split; [vm_compute; reflexivity|]. vm_compute. reflexivity.
Qed.

(** The same order in every turn of the loop, whatever the app and the
    state: once the app is scraped the next writes are the set of slugs,
    with the slug in it, then the per-entity file, then the combined
    checkpoint; a write that throws ends the run, so that fewer than three
    are made, in this order still. *)
Lemma turn_writes_slugs_first options total i app rest scrapedSet bySlug w r w'
    reviews w1 :
  scrapeAppReviews app options
    (emit (Log (LogApp (i + 1) total (name app) (slug app))) w) = (Ret reviews, w1) ->
  scrape_each options total i (app :: rest) scrapedSet bySlug w = (r, w') ->
  exists ev,
    events w' = events w1 ++ ev
    /\ set_has (JStr (slug app)) (set_add (JStr (slug app)) scrapedSet) = true
    /\ take 3 (writes ev)
       `prefix_of` turn (slug app) (set_add (JStr (slug app)) scrapedSet) reviews
                     (flatten (map_set (slug_key (slug app)) reviews bySlug))
    /\ ((exists v, r = Ret v) ->
        take 3 (writes ev)
        = turn (slug app) (set_add (JStr (slug app)) scrapedSet) reviews
            (flatten (map_set (slug_key (slug app)) reviews bySlug))).
Proof.
  intros Hs H.
  destruct (scrape_each_cons_inv _ _ _ _ _ _ _ _ _ _ H)
    as (r1 & w1' & hint & ev1 & Hs' & E1 & F1 & _ & Hrest).
  rewrite Hs in Hs'. inversion Hs'; subst r1 w1'. clear Hs'.
  assert (Hin : set_has (JStr (slug app)) (set_add (JStr (slug app)) scrapedSet) = true).
  { rewrite set_has_add. apply orb_true_iff. right.
    unfold JStr. simpl. apply bool_decide_eq_true. reflexivity. }
  cbv zeta in Hrest.
  set (ws := turn _ _ _ _) in *.
  destruct Hrest as [Hgo|(k & code & Hk & -> & ->)].
  - destruct (scrape_each_events _ _ _ _ _ _ _ _ _ Hgo) as (ev3 & E3 & _).
    destruct (after_writes_state ws w1) as (E2 & _).
    exists ((write_event <$> ws) ++ ev3).
    split; [rewrite E3, E2, <- app_assoc; reflexivity|].
    split; [exact Hin|].
    rewrite writes_app, writes_write_events.
    split; [reflexivity|intros _; reflexivity].
  - destruct (after_writes_state (take k ws) w1) as (E2 & _).
    exists (write_event <$> take k ws).
    split; [exact E2|]. split; [exact Hin|].
    rewrite writes_write_events.
    split; [|intros (v & Hv); discriminate].
    rewrite take_take. apply prefix_take.
Qed.

(** ** Discovery *)

(** C4. The bound of the loop is [SEARCH.maxPages], which config.js does
    not define: the loop condition [pageNum <= undefined] is false at page
    1, so [collectAllApps] returns no app and reads no page, whatever the
    page shows.  The bound is not a positive number and the first listing
    page is not extracted inside the loop. *)
Theorem collectAllApps_reads_no_page (w : World) :
  SEARCH.maxPages = None
  /\ le_maybe_undefined 1 SEARCH.maxPages = false
  /\ collectAllApps w = (Ret [], w).
Proof. repeat split. Qed.

(** With a positive bound and a selector for the link the same loop reads
    both pages of the catalog and merges them. *)
Example collect_with_bound_reads_both :
  let shown :=
    mkWorld ∅ [Rendered (listing_page [app_b; app_c] None)]
            (listing_page [app_a; app_b] (Some "/categories/pod/all?page=2")) [] in
  fst (collect_with (Some 20) (Some next_link) shown) = Ret [app_a; app_b; app_c]
  /\ fst (collectAllApps shown) = Ret [].
Proof. split; vm_compute; reflexivity. Qed.

(** C9. Discovery, given the two pages [a, b] and [b, c], persists and
    returns [a, b]: since [collectAllApps] reads no page (C4) the single
    page fallback extracts the first page only, and the second page is
    never asked for. *)
Theorem discovery_misses_second_page :
  let run := discoverApps no_options world_catalog in
  fst run = Ret (JArr (json_of_app <$> [app_a; app_b]))
  /\ disk (snd run) !! path_join DATA_DIR "apps.json"
     = Some (JsonFile (JArr (json_of_app <$> [app_a; app_b])))
  /\ navigations (events (snd run)) = [CategoryUrl]
  /\ remote (snd run) = [Rendered (listing_page [app_b; app_c] None)]
  /\ unique_by_slug ([app_a; app_b] ++ [app_b; app_c]) = [app_a; app_b; app_c].
Proof.
  cbv zeta. split; [vm_compute; reflexivity|]. split; [vm_compute; reflexivity|].
  split; [vm_compute; reflexivity|]. split; vm_compute; reflexivity.
Qed.

(** * Beyond the claims *)

(** ** [retry], whatever the operation does *)

Lemma invocations_cons_invoked {E} (o : option E) (tr : list (Obs E)) :
  invocations (Invoked o :: tr) = Datatypes.S (invocations tr).
Proof. reflexivity. Qed.





(** ** The checkpoint store, save then load *)

(** X2. A call of [saveCheckpoint] goes through or throws.  When it went
    through, [loadCheckpoint] then returns for that name what was saved,
    whatever the file held before, be it text that does not parse; the
    write is all the call did; and the checkpoint of another name loads
    as it did before, the names being names of files ([path.join] makes
    one file of [apps.json] and [./apps.json]).  When it throws (the path
    is a directory, or a directory on the way cannot be made), a system
    error goes to the caller and nothing was written; under the name of a
    file nothing has changed at all. *)
Theorem save_then_load (filename other : string) (data defaultValue : json)
    (w : World) r w1 :
  saveCheckpoint filename data w = (r, w1) ->
  match r with
  | Ret _ =>
      loadCheckpoint filename defaultValue w1 = (Ret data, w1)
      /\ events w1 = events w ++ [WriteFile (path_join DATA_DIR filename) data]
      /\ (file_name filename = true -> file_name other = true ->
          other <> filename ->
          fst (loadCheckpoint other defaultValue w1)
          = fst (loadCheckpoint other defaultValue w))
  | Throw e =>
      (exists code, e = SystemError code)
      /\ events w1 = events w
      /\ (file_name filename = true -> w1 = w)
  | OutOfFuel => False
  end.
Proof.
  intros H.
  destruct (saveCheckpoint_cases filename data w) as [(code & E)|E];
    rewrite E in H; inversion H; subst; clear H.
  - split; [eauto|]. split; reflexivity.
  - rewrite !loadCheckpoint_run. unfold written, emit. simpl.
    split; [rewrite lookup_insert_eq; reflexivity|].
    split; [reflexivity|].
    intros Hf Ho Hne.
    rewrite lookup_insert_ne; [reflexivity|].
    rewrite (path_join_data _ Hf), (path_join_data _ Ho).
    intros Heq. apply append_inj_l in Heq. congruence.
Qed.

Lemma save_then_load_witness :
  exists w1,
    saveCheckpoint "all_reviews.json" (JArr two_reviews) world_malformed = (Ret tt, w1)
    /\ loadCheckpoint "all_reviews.json" (JArr []) world_malformed
       = (Throw SyntaxError, world_malformed)
    /\ loadCheckpoint "all_reviews.json" (JArr []) w1 = (Ret (JArr two_reviews), w1)
    /\ fst (loadCheckpoint "apps.json" (JArr []) w1)
       = fst (loadCheckpoint "apps.json" (JArr []) world_malformed).
Proof.
  destruct (saveCheckpoint "all_reviews.json" (JArr two_reviews) world_malformed)
    as [r w1] eqn:E.
  pose proof (save_then_load "all_reviews.json" "apps.json" (JArr two_reviews) (JArr [])
                world_malformed r w1 E) as H.
  apply (f_equal fst) in E. vm_compute in E. subst r.
  destruct H as (Hload & _ & Hother).
  exists w1. split; [reflexivity|]. split; [reflexivity|]. split; [exact Hload|].
  apply Hother; [reflexivity|reflexivity|discriminate].
Defined.

(** ** Deduplication by slug *)

Lemma assoc_snoc {V} (s k : string) (v : V) (m : list (string * V)) :
  is_Some (assoc s (m ++ [(k, v)])) <-> is_Some (assoc s m) \/ s = k.
Proof.
  induction m as [|[k0 v0] m IH]; simpl.
  - destruct (decide (s = k)) as [->|Hne].
    + split; [auto|intros _; eauto].
    + split; [intros [x Hx]; discriminate|intros [[x Hx]|Heq]; [discriminate|contradiction]].
  - destruct (decide (s = k0)) as [->|Hne]; [split; [intros _; left; eauto|eauto]|].
    exact IH.
Qed.

(** The loop, from any point it can reach: [bySlug] has the slugs of
    [unique], which are pairwise different. *)
Lemma unique_from_spec apps :
  forall bySlug unique,
    (forall s, is_Some (assoc s bySlug) <-> s ∈ slug <$> unique) ->
    NoDup (slug <$> unique) ->
    exists kept,
      unique_from apps bySlug unique = unique ++ kept
      /\ NoDup (slug <$> unique ++ kept)
      /\ kept `sublist_of` apps
      /\ (forall a, a ∈ apps -> slug a ∈ slug <$> unique ++ kept)
      /\ (forall a, a ∈ kept ->
            (slug a ∉ (slug <$> unique))
            /\ exists before after,
                 apps = before ++ a :: after /\ slug a ∉ (slug <$> before)).
Proof.
  induction apps as [|a apps IH]; intros bySlug unique Hkeys Hnd.
  - exists []. rewrite app_nil_r. simpl.
    split; [reflexivity|]. split; [exact Hnd|]. split; [reflexivity|].
    split; intros b Hb; inversion Hb.
  - simpl. destruct (decide (is_Some (assoc (slug a) bySlug))) as [Hsome|Hnone].
    + rewrite bool_decide_eq_true_2 by exact Hsome. simpl.
      destruct (IH bySlug unique Hkeys Hnd) as (kept & E & Hnd' & Hsub & Hcov & Hfirst).
      exists kept. split; [exact E|]. split; [exact Hnd'|].
      split; [apply sublist_cons; exact Hsub|]. split.
      * intros b Hb. apply elem_of_cons in Hb as [->|Hb]; [|auto].
        rewrite fmap_app. apply elem_of_app. left. apply Hkeys. exact Hsome.
      * intros b Hb. destruct (Hfirst b Hb) as (Hnot & before & after & -> & Hbefore).
        split; [exact Hnot|].
        exists (a :: before), after. split; [reflexivity|].
        rewrite fmap_cons. intros Hin. apply elem_of_cons in Hin as [Heq|Hin]; [|auto].
        apply Hnot. apply Hkeys. rewrite Heq. exact Hsome.
    + rewrite bool_decide_eq_false_2 by exact Hnone. simpl.
      assert (Hnotin : slug a ∉ (slug <$> unique)).
      { intros Hin. apply Hnone. apply Hkeys. exact Hin. }
      destruct (IH (bySlug ++ [(slug a, a)]) (unique ++ [a]))
        as (kept & E & Hnd' & Hsub & Hcov & Hfirst).
      { intros s. rewrite assoc_snoc, Hkeys, fmap_app, elem_of_app.
        simpl. rewrite list_elem_of_singleton. reflexivity. }
      { rewrite fmap_app. apply NoDup_app. split; [exact Hnd|].
        split; [|apply NoDup_singleton].
        intros s Hs Hin. simpl in Hin. apply list_elem_of_singleton in Hin. subst s. auto. }
      exists (a :: kept). rewrite E, <- app_assoc. simpl.
      split; [reflexivity|].
      split; [rewrite <- app_assoc in Hnd'; exact Hnd'|].
      split; [apply sublist_skip; exact Hsub|]. split.
      * intros b Hb. rewrite fmap_app, fmap_cons. apply elem_of_cons in Hb as [->|Hb].
        -- apply elem_of_app. right. left.
        -- specialize (Hcov b Hb). rewrite <- app_assoc in Hcov.
           rewrite fmap_app in Hcov. exact Hcov.
      * intros b Hb. apply elem_of_cons in Hb as [->|Hb].
        -- split; [exact Hnotin|]. exists [], apps. split; [reflexivity|].
           intros Hin. inversion Hin.
        -- destruct (Hfirst b Hb) as (Hnot & before & after & -> & Hbefore).
           rewrite fmap_app, elem_of_app in Hnot.
           split; [tauto|].
           exists (a :: before), after. split; [reflexivity|].
           rewrite fmap_cons. intros Hin. apply elem_of_cons in Hin as [Heq|Hin]; [|auto].
           apply Hnot. right. simpl. rewrite Heq. left.
Qed.

Lemma unique_by_slug_kept (apps : list App) :
  NoDup (slug <$> unique_by_slug apps)
  /\ unique_by_slug apps `sublist_of` apps
  /\ (forall a, a ∈ apps -> slug a ∈ slug <$> unique_by_slug apps).
Proof.
  destruct (unique_from_spec apps [] []) as (kept & E & Hnd & Hsub & Hcov & _).
  - intros s. simpl. split; [intros [x Hx]; discriminate|intros Hin; inversion Hin].
  - apply NoDup_nil. exact I.
  - unfold unique_by_slug. rewrite E. simpl in *. auto.
Qed.

(** X3. The deduplication of [discoverApps] keeps, of the apps with the
    same slug, the first one, and keeps the apps in the order they came:
    the slugs of the result are pairwise different, the result is a
    subsequence of the input, every slug of the input is a slug of the
    result, and no app before a kept one has its slug. *)
Theorem unique_by_slug_first_wins (apps : list App) :
  NoDup (slug <$> unique_by_slug apps)
  /\ unique_by_slug apps `sublist_of` apps
  /\ (forall a, a ∈ apps -> slug a ∈ slug <$> unique_by_slug apps)
  /\ (forall a, a ∈ unique_by_slug apps ->
        exists before after,
          apps = before ++ a :: after /\ slug a ∉ (slug <$> before)).
Proof.
  destruct (unique_from_spec apps [] []) as (kept & E & Hnd & Hsub & Hcov & Hfirst).
  - intros s. simpl. split; [intros [x Hx]; discriminate|intros Hin; inversion Hin].
  - apply NoDup_nil. exact I.
  - unfold unique_by_slug. rewrite E. simpl in *.
    split; [exact Hnd|]. split; [exact Hsub|]. split; [exact Hcov|].
    intros a Ha. destruct (Hfirst a Ha) as (_ & Hex). exact Hex.
Qed.

Lemma sublist_full {A} (l1 l2 : list A) :
  l1 `sublist_of` l2 -> (length l2 <= length l1)%nat -> l1 = l2.
Proof.
  induction 1 as [|x l1 l2 Hs IH|x l1 l2 Hs IH]; simpl; intros Hlen.
  - reflexivity.
  - f_equal. apply IH. lia.
  - apply sublist_length in Hs. lia.
Qed.

Lemma unique_by_slug_id (apps : list App) :
  NoDup (slug <$> apps) -> unique_by_slug apps = apps.
Proof.
  intros Hnd.
  destruct (unique_by_slug_kept apps) as (Hnd' & Hsub & Hcov).
  apply sublist_full; [exact Hsub|].
  rewrite <- (length_fmap slug apps), <- (length_fmap slug (unique_by_slug apps)).
  apply submseteq_length. apply NoDup_submseteq; [exact Hnd|].
  intros s Hs. apply list_elem_of_fmap in Hs as (a & -> & Ha). auto.
Qed.

(** X4. A list whose slugs are pairwise different is left as it is; so
    deduplicating twice is deduplicating once. *)
Theorem unique_by_slug_fixpoint (apps : list App) :
  (NoDup (slug <$> apps) -> unique_by_slug apps = apps)
  /\ unique_by_slug (unique_by_slug apps) = unique_by_slug apps.
Proof.
  split; [apply unique_by_slug_id|].
  apply unique_by_slug_id. apply unique_by_slug_kept.
Qed.

(** ** One app, any run *)

Lemma pages_read_app ev1 ev2 : pages_read (ev1 ++ ev2) = pages_read ev1 ++ pages_read ev2.
Proof.
  induction ev1 as [|e ev1 IH]; [reflexivity|].
  destruct e as [| | | | | | | | |[]|]; simpl; rewrite ?IH; reflexivity.
Qed.

Lemma pages_read_app_tail ev p a b :
  pages_read (ev ++ [Log (LogPage p a b)]) = pages_read ev ++ [p].
Proof. rewrite pages_read_app. reflexivity. Qed.

Lemma pages_read_app_cons ev p a b ev' :
  pages_read (ev ++ Log (LogPage p a b) :: ev') = pages_read ev ++ p :: pages_read ev'.
Proof. rewrite pages_read_app. reflexivity. Qed.


Section ReviewPagesRuns.
Variables appName appSlug : string.
Variables delayMin delayMax : Z.
Variable totalPages : option number.
Variable maxPages : number.

Lemma emits_enter_page_paging pageNum :
  emits (paging_event appSlug) (enter_page appSlug delayMin delayMax pageNum).
Proof.
  unfold enter_page. destruct (1 <? pageNum); [|apply emits_ret].
  apply emits_bind; [|intros _; apply emits_delay; exact I].
  apply emits_retry_goto; simpl; auto.
Qed.

Lemma paging_events_pages_read ev :
  Forall (fun e => paging_event appSlug e /\ forall p a b, e <> Log (LogPage p a b)) ev ->
  pages_read ev = [].
Proof.
  induction 1 as [|e ev [He Hn] F IH]; [reflexivity|].
  destruct e as [| | | | | | | | |[]|]; simpl in *; auto.
  exfalso. eapply Hn. reflexivity.
Qed.

Lemma enter_page_no_page pageNum w r w1 :
  enter_page appSlug delayMin delayMax pageNum w = (r, w1) ->
  exists ev, events w1 = events w ++ ev
             /\ Forall (paging_event appSlug) ev /\ pages_read ev = [].
Proof.
  intros H.
  assert (Hq : emits (fun e => paging_event appSlug e
                               /\ forall p a b, e <> Log (LogPage p a b))
                 (enter_page appSlug delayMin delayMax pageNum)).
  { unfold enter_page. destruct (1 <? pageNum); [|apply emits_ret].
    apply emits_bind; [|intros _; apply emits_delay; split; [exact I|discriminate]].
    apply emits_retry_goto; simpl; intros; split; auto; discriminate. }
  destruct (Hq _ _ _ H) as (ev & E & F). exists ev. split; [exact E|].
  split; [eapply Forall_impl; [exact F|]; intros e [He _]; exact He|].
  apply paging_events_pages_read. exact F.
Qed.

(** The loop from page [pageNum] on, however it ends: it reads the pages
    [pageNum], [pageNum + 1], ... in order, each within [maxPages]; what
    it returns is what it was given followed by records of the app. *)
Lemma review_pages_run fuel :
  forall pageNum allReviews w r w',
    review_pages appName appSlug delayMin delayMax totalPages maxPages
      fuel pageNum allReviews w = (r, w') ->
    exists ev k,
      events w' = events w ++ ev
      /\ Forall (paging_event appSlug) ev
      /\ 0 <= k
      /\ pages_read ev = seqZ pageNum k
      /\ (0 < k -> num_le (pageNum + k - 1) maxPages = true)
      /\ forall out, r = Ret out ->
           exists extra, out = allReviews ++ extra
                         /\ Forall (record_of appName appSlug) extra.
Proof.
  induction fuel as [|fuel IH]; intros pageNum allReviews w r w' H.
  - inversion H; subst. exists [], 0. rewrite app_nil_r.
    split; [reflexivity|]. split; [constructor|]. split; [lia|].
    split; [reflexivity|]. split; [lia|]. intros out Hout. discriminate.
  - destruct (num_le pageNum maxPages) eqn:Hle.
    2:{ rewrite review_pages_past in H by exact Hle. inversion H; subst.
        exists [], 0. rewrite app_nil_r.
        split; [reflexivity|]. split; [constructor|]. split; [lia|].
        split; [reflexivity|]. split; [lia|].
        intros out Hout. inversion Hout; subst. exists []. rewrite app_nil_r. auto. }
    destruct (enter_page appSlug delayMin delayMax pageNum w) as [r0 w1] eqn:Henter.
    destruct (enter_page_no_page _ _ _ _ Henter) as (ev0 & E0 & F0 & P0).
    destruct r0 as [[]|e|].
    + rewrite (review_pages_unfold appName appSlug delayMin delayMax totalPages maxPages
                 fuel pageNum allReviews w w1 Hle Henter) in H.
      cbv zeta in H.
      set (batch := reviews_on appName appSlug (document w1)) in *.
      set (w2 := emit (Log (LogPage pageNum (length batch) (length (allReviews ++ batch)))) w1) in *.
      assert (Hbatch : Forall (record_of appName appSlug) batch).
      { unfold batch, reviews_on. apply Forall_fmap. apply Forall_true.
        intros b. exists b. reflexivity. }
      assert (Hstop : (r, w') = (Ret (allReviews ++ batch), w2) ->
                exists ev k,
                  events w' = events w ++ ev
                  /\ Forall (paging_event appSlug) ev
                  /\ 0 <= k
                  /\ pages_read ev = seqZ pageNum k
                  /\ (0 < k -> num_le (pageNum + k - 1) maxPages = true)
                  /\ forall out, r = Ret out ->
                       exists extra, out = allReviews ++ extra
                                     /\ Forall (record_of appName appSlug) extra).
      { intros Hs. inversion Hs; subst r w'.
        exists (ev0 ++ [Log (LogPage pageNum (length batch) (length (allReviews ++ batch)))]), 1.
        split; [unfold w2; simpl; rewrite E0, <- app_assoc; reflexivity|].
        split; [apply Forall_app; split; [exact F0|repeat constructor]|].
        split; [lia|].
        split; [rewrite pages_read_app_tail, P0; reflexivity|].
        split; [intros _; replace (pageNum + 1 - 1) with pageNum by lia; exact Hle|].
        intros out Hout. inversion Hout; subst. eauto. }
      destruct (bool_decide (length batch = 0%nat)); [apply Hstop; symmetry; exact H|].
      destruct (match totalPages with Some tp => num_ge pageNum tp | None => false end);
        [apply Hstop; symmetry; exact H|].
      destruct (negb (has_next (document w1))); [apply Hstop; symmetry; exact H|].
      clear Hstop.
      destruct (IH _ _ _ _ _ H) as (ev & k & E & F & Hk & P & Hmax & Hout).
      exists (ev0 ++ Log (LogPage pageNum (length batch) (length (allReviews ++ batch))) :: ev),
             (k + 1).
      split; [rewrite E; unfold w2; simpl; rewrite E0, <- !app_assoc; reflexivity|].
      split; [apply Forall_app; split; [exact F0|constructor; [exact I|exact F]]|].
      split; [lia|].
      split.
      { rewrite pages_read_app_cons, P0, P. simpl.
        rewrite (seqZ_cons pageNum (k + 1)) by lia. f_equal. f_equal; lia. }
      split.
      { intros _. destruct (decide (k = 0)) as [->|Hne].
        - replace (pageNum + (0 + 1) - 1) with pageNum by lia. exact Hle.
        - replace (pageNum + (k + 1) - 1) with (pageNum + 1 + k - 1) by lia.
          apply Hmax. lia. }
      intros out Hr. destruct (Hout out Hr) as (extra & -> & Hex).
      exists (batch ++ extra). rewrite app_assoc. split; [reflexivity|].
      apply Forall_app. auto.
    + (* the navigation failed for good *)
      rewrite (review_pages_enter_fails appName appSlug delayMin delayMax totalPages
                 maxPages fuel pageNum allReviews w e w1 Hle Henter) in H.
      inversion H; subst. exists ev0, 0.
      split; [exact E0|]. split; [exact F0|]. split; [lia|].
      split; [exact P0|]. split; [lia|]. intros out Hout. discriminate.
    + exfalso. pose proof (total_enter_page appSlug delayMin delayMax pageNum w) as Ht.
      rewrite Henter in Ht. apply Ht. reflexivity.
Qed.

End ReviewPagesRuns.

(** [scrapeAppReviews], taken apart: either the first navigation fails for
    good, or the count is read and the loop runs; the page is closed in
    both cases. *)
Lemma scrapeAppReviews_inv app options w r w' :
  scrapeAppReviews app options w = (r, w') ->
  let delayMin := default DELAY.minMs (delayMin options) in
  let delayMax := default DELAY.maxMs (delayMax options) in
  exists pre,
    Forall (fun e => opening_event (slug app) e
                     /\ (forall n tp, e <> Log (LogTotal n tp))
                     /\ pages_read [e] = []) pre
    /\ ((exists e, r = Throw e
                   /\ events w' = events w ++ NewPage :: pre ++ [PageClose])
        \/ exists hint w1 w2,
             events w1
             = events w ++ NewPage :: pre
                 ++ match hint with
                    | Some n => [Log (LogTotal n (Math_ceil_div n PAGINATION.reviewsPerPage))]
                    | None => []
                    end
             /\ review_pages (name app) (slug app) delayMin delayMax
                  (totalPages_for hint) (maxPages_for hint)
                  (page_budget (maxPages_for hint)) 1 [] w1 = (r, w2)
             /\ w' = emit PageClose w2).
Proof.
  intros H. cbv zeta. unfold scrapeAppReviews in H.
  unfold bind at 1 in H. unfold newPage, effect in H.
  set (w0 := emit NewPage _) in H.
  unfold finally in H.
  unfold bind at 1 in H. unfold log at 1, effect in H.
  set (wl := emit (Log (LogOpening _ _)) w0) in H.
  unfold bind at 1 in H.
  destruct (retry_goto (REVIEWS.url (slug app)) wl) as [r0 wg] eqn:Hgoto.
  assert (Hq : emits (fun e => opening_event (slug app) e
                               /\ (forall n tp, e <> Log (LogTotal n tp))
                               /\ pages_read [e] = [])
                 (retry_goto (REVIEWS.url (slug app)))).
  { apply emits_retry_goto; simpl; intros; repeat split; auto; discriminate. }
  destruct (Hq _ _ _ Hgoto) as (evg & Eg & Fg).
  assert (Hopen : opening_event (slug app) (Log (LogOpening (slug app) (REVIEWS.url (slug app))))
                  /\ (forall n tp, Log (LogOpening (slug app) (REVIEWS.url (slug app)))
                                   <> Log (LogTotal n tp))
                  /\ pages_read [Log (LogOpening (slug app) (REVIEWS.url (slug app)))] = []).
  { repeat split; discriminate. }
  destruct r0 as [[]|e|].
  - (* the page is there *)
    unfold bind at 1 in H. unfold delay at 1, effect in H.
    set (wd := emit (Delay _ _) wg) in H.
    unfold bind at 1 in H. unfold getTotalReviewCount in H.
    exists (Log (LogOpening (slug app) (REVIEWS.url (slug app))) :: evg
            ++ [Delay (default DELAY.minMs (delayMin options))
                      (default DELAY.maxMs (delayMax options))]).
    split.
    { constructor; [exact Hopen|]. apply Forall_app. split; [exact Fg|].
      repeat constructor; discriminate. }
    right. exists (count_hint (document wd)).
    destruct (count_hint (document wd)) as [n|] eqn:Hhint.
    + unfold bind at 1 in H. unfold log at 1, effect in H.
      set (wt := emit (Log (LogTotal _ _)) wd) in H.
      match type of H with
      | context [match ?x with _ => _ end] => destruct x as [r2 w2] eqn:Hloop
      end.
      exists wt, w2. split.
      { unfold wt, wd. simpl. rewrite Eg. unfold wl, w0. simpl.
        rewrite <- !app_assoc. reflexivity. }
      pose proof (review_pages_fuel (name app) (slug app)
                    (default DELAY.minMs (delayMin options))
                    (default DELAY.maxMs (delayMax options))
                    (Some (Math_ceil_div n PAGINATION.reviewsPerPage))
                    (Math_ceil_div n PAGINATION.reviewsPerPage)
                    (page_budget (Math_ceil_div n PAGINATION.reviewsPerPage)) 1 [] wt) as Hfuel.
      change (review_pages _ _ _ _ _ _ _ 1 [] wt) with
        (review_pages (name app) (slug app) (default DELAY.minMs (delayMin options))
           (default DELAY.maxMs (delayMax options))
           (Some (Math_ceil_div n PAGINATION.reviewsPerPage))
           (Math_ceil_div n PAGINATION.reviewsPerPage)
           (page_budget (Math_ceil_div n PAGINATION.reviewsPerPage)) 1 [] wt) in Hloop.
      rewrite Hloop in Hfuel. simpl in Hfuel.
      assert (Hnf : r2 <> OutOfFuel).
      { apply Hfuel. unfold page_budget.
        destruct (Math_ceil_div n PAGINATION.reviewsPerPage); lia. }
      destruct r2 as [out|e|]; [| |congruence]; simpl in H; inversion H; subst;
        (split; [exact Hloop|reflexivity]).
    + unfold bind at 1 in H. unfold ret at 1 in H.
      match type of H with
      | context [match ?x with _ => _ end] => destruct x as [r2 w2] eqn:Hloop
      end.
      exists wd, w2. split.
      { unfold wd. simpl. rewrite Eg. unfold wl, w0. simpl.
        rewrite <- !app_assoc. reflexivity. }
      pose proof (review_pages_fuel (name app) (slug app)
                    (default DELAY.minMs (delayMin options))
                    (default DELAY.maxMs (delayMax options))
                    None (Int 500) (page_budget (Int 500)) 1 [] wd) as Hfuel.
      change (review_pages _ _ _ _ _ _ _ 1 [] wd) with
        (review_pages (name app) (slug app) (default DELAY.minMs (delayMin options))
           (default DELAY.maxMs (delayMax options))
           None (Int 500) (page_budget (Int 500)) 1 [] wd) in Hloop.
      rewrite Hloop in Hfuel. simpl in Hfuel.
      assert (Hnf : r2 <> OutOfFuel).
      { apply Hfuel. unfold page_budget. lia. }
      destruct r2 as [out|e|]; [| |congruence]; simpl in H; inversion H; subst;
        (split; [exact Hloop|reflexivity]).
  - (* the first navigation failed for good *)
    simpl in H. inversion H; subst.
    exists (Log (LogOpening (slug app) (REVIEWS.url (slug app))) :: evg).
    split; [constructor; [exact Hopen|exact Fg]|].
    left. exists e. split; [reflexivity|].
    simpl. rewrite Eg. unfold wl, w0. simpl. rewrite <- !app_assoc. reflexivity.
  - exfalso. pose proof (total_retry_goto (REVIEWS.url (slug app)) wl) as Ht.
    rewrite Hgoto in Ht. apply Ht. reflexivity.
Qed.

(** X5. [scrapeAppReviews] always closes the page it opens: in every run,
    whether it returns or throws, the first thing it does is to open a
    page and the last is to close it, and it opens or closes no page in
    between.  It always ends: the budget of the model's loops is never
    used up. *)
Theorem page_opened_and_closed (app : App) (options : Options) (w : World) r w' :
  scrapeAppReviews app options w = (r, w') ->
  r <> OutOfFuel
  /\ exists mid,
       events w' = events w ++ NewPage :: mid ++ [PageClose]
       /\ Forall (fun e => e <> NewPage /\ e <> PageClose) mid.
Proof.
  intros H. split.
  { pose proof (total_scrapeAppReviews app options w) as Ht. rewrite H in Ht. exact Ht. }
  destruct (scrapeAppReviews_inv _ _ _ _ _ H) as (pre & Fpre & Hcases).
  assert (Fpre' : Forall (fun e => e <> NewPage /\ e <> PageClose) pre).
  { eapply Forall_impl; [exact Fpre|]. intros e (He & _).
    destruct e; simpl in He; try contradiction; split; discriminate. }
  destruct Hcases as [(e & -> & E)|(hint & w1 & w2 & E1 & Hloop & ->)].
  - exists pre. split; [exact E|exact Fpre'].
  - destruct (review_pages_run _ _ _ _ _ _ _ _ _ _ _ _ Hloop)
      as (ev & k & E2 & F2 & _).
    exists (pre ++ match hint with
                   | Some n => [Log (LogTotal n (Math_ceil_div n PAGINATION.reviewsPerPage))]
                   | None => []
                   end ++ ev).
    split.
    + simpl. rewrite E2, E1. rewrite <- !app_assoc. simpl.
      rewrite <- !app_assoc. reflexivity.
    + apply Forall_app. split; [exact Fpre'|]. apply Forall_app. split.
      * destruct hint; repeat constructor; discriminate.
      * eapply Forall_impl; [exact F2|]. intros e He.
        destruct e; simpl in He; try contradiction; split; discriminate.
Qed.

Lemma page_opened_and_closed_witness :
  fst (scrapeAppReviews printful no_options world_down) <> OutOfFuel
  /\ exists mid,
       events (snd (scrapeAppReviews printful no_options world_down))
       = events world_down ++ NewPage :: mid ++ [PageClose]
       /\ Forall (fun e => e <> NewPage /\ e <> PageClose) mid.
Proof.
  apply (page_opened_and_closed printful no_options world_down).
  apply surjective_pairing.
Defined.



(** X7. Every record that [scrapeAppReviews] returns is a record of its
    app, made of a block of one of its pages: it carries the name and the
    slug of the app, and the [Map] of [scrapeAllReviews] files it under
    that slug. *)
Theorem records_belong_to_app (app : App) (options : Options) (w : World)
    (reviews : list json) w' :
  scrapeAppReviews app options w = (Ret reviews, w') ->
  Forall (record_of (name app) (slug app)) reviews
  /\ forall position r, reviews !! position = Some r ->
       assoc "app_name" (match r with JObj fields => fields | _ => [] end)
       = Some (JStr (name app))
       /\ app_slug_of position r = Some (slug_key (slug app)).
Proof.
  intros H.
  destruct (scrapeAppReviews_inv _ _ _ _ _ H) as (pre & Fpre & Hcases).
  destruct Hcases as [(e & He & _)|(hint & w1 & w2 & E1 & Hloop & _)]; [discriminate|].
  destruct (review_pages_run _ _ _ _ _ _ _ _ _ _ _ _ Hloop)
    as (ev & k & _ & _ & _ & _ & _ & Hout).
  destruct (Hout reviews eq_refl) as (extra & -> & Hrec). simpl.
  split; [exact Hrec|].
  intros position r Hr. apply list_elem_of_lookup_2 in Hr.
  rewrite Forall_forall in Hrec. destruct (Hrec r Hr) as (b & ->).
  split; reflexivity.
Qed.

Lemma records_belong_to_app_witness :
  Forall (record_of "Printful" "printful") two_reviews
  /\ forall position r, two_reviews !! position = Some r ->
       assoc "app_name" (match r with JObj fields => fields | _ => [] end)
       = Some (JStr "Printful")
       /\ app_slug_of position r = Some (slug_key "printful").
Proof.
  apply (records_belong_to_app printful no_options world_two_reviews two_reviews
           (snd (scrapeAppReviews printful no_options world_two_reviews))).
  vm_compute. reflexivity.
Defined.

(** X8. A first navigation that fails three times makes [scrapeAppReviews]
    throw the third error, after waits of 5000 and 10000 ms: it asks the
    remote three times and no more, reads nothing, and closes its page. *)
Theorem three_failures_abort_app (app : App) (options : Options) (w : World)
    (m1 m2 m3 : string) (rest : list Response) :
  remote w = Failed m1 :: Failed m2 :: Failed m3 :: rest ->
  exists w',
    scrapeAppReviews app options w = (Throw (NavigationError m3), w')
    /\ remote w' = rest
    /\ disk w' = disk w
    /\ events w'
       = events w
         ++ [ NewPage; Log (LogOpening (slug app) (ReviewsUrl (slug app)));
              Goto (ReviewsUrl (slug app));
              ConsoleWarn 1 3 (NavigationError m1) 5000; Timeout 5000;
              Goto (ReviewsUrl (slug app));
              ConsoleWarn 2 3 (NavigationError m2) 10000; Timeout 10000;
              Goto (ReviewsUrl (slug app)); PageClose ].
Proof.
  intros Hr. unfold scrapeAppReviews.
  unfold bind at 1. unfold newPage, effect. unfold finally.
  unfold bind at 1. unfold log at 1, effect.
  unfold bind at 1. unfold retry_goto, retry. unfold bind at 1.
  simpl. unfold goto at 1. simpl. rewrite Hr. simpl.
  eexists. split; [reflexivity|]. simpl. split; [reflexivity|]. split; [reflexivity|].
  rewrite <- !app_assoc. reflexivity.
Qed.

Lemma three_failures_abort_app_witness :
  exists w',
    scrapeAppReviews printful no_options
      (fresh_world [Failed "t1"; Failed "t2"; Failed "t3"; Rendered (review_page None 2 false)])
    = (Throw (NavigationError "t3"), w')
    /\ remote w' = [Rendered (review_page None 2 false)]
    /\ disk w' = ∅
    /\ events w'
       = [] ++ [ NewPage; Log (LogOpening "printful" (ReviewsUrl "printful"));
              Goto (ReviewsUrl "printful");
              ConsoleWarn 1 3 (NavigationError "t1") 5000; Timeout 5000;
              Goto (ReviewsUrl "printful");
              ConsoleWarn 2 3 (NavigationError "t2") 10000; Timeout 10000;
              Goto (ReviewsUrl "printful"); PageClose ].
Proof.
  apply (three_failures_abort_app printful no_options
           (fresh_world [Failed "t1"; Failed "t2"; Failed "t3";
                         Rendered (review_page None 2 false)])
           "t1" "t2" "t3" [Rendered (review_page None 2 false)]).
  reflexivity.
Defined.

(** ** What touches the files *)

Lemma keeps_disk_ret {A} (a : A) : keeps_disk (ret a).
Proof. intros w r w' H. inversion H; reflexivity. Qed.

Lemma keeps_disk_silent {A} (f : World -> Outcome Error A) :
  keeps_disk (fun w => (f w, w)).
Proof. intros w r w' H. inversion H; reflexivity. Qed.

Lemma keeps_disk_bind {A B} (m : JS A) (k : A -> JS B) :
  keeps_disk m -> (forall a, keeps_disk (k a)) -> keeps_disk (bind m k).
Proof.
  intros Hm Hk w r w' H.
  destruct (bind_inv _ _ _ _ _ H) as [(a & w1 & H1 & H2)|[(e & H1 & _)|(H1 & _)]].
  - rewrite (Hk a _ _ _ H2). exact (Hm _ _ _ H1).
  - exact (Hm _ _ _ H1).
  - exact (Hm _ _ _ H1).
Qed.

Lemma keeps_disk_finally {A B} (body : JS A) (cleanup : JS B) :
  keeps_disk body -> keeps_disk cleanup -> keeps_disk (finally body cleanup).
Proof.
  intros Hb Hc w r w' H.
  destruct (finally_inv _ _ _ _ _ H) as (r0 & w1 & H1 & [(_ & _ & ->)|(rc & H2 & _)]).
  - exact (Hb _ _ _ H1).
  - rewrite (Hc _ _ _ H2). exact (Hb _ _ _ H1).
Qed.

Lemma keeps_disk_emit (e : Event) : keeps_disk (effect (emit e)).
Proof. intros w r w' H. inversion H; reflexivity. Qed.

Lemma keeps_disk_newPage : keeps_disk newPage.
Proof. intros w r w' H. inversion H; reflexivity. Qed.

Lemma keeps_disk_goto url : keeps_disk (goto url).
Proof.
  intros w r w' H. unfold goto in H. simpl in H.
  destruct (remote w) as [|[d|msg] rest]; inversion H; reflexivity.
Qed.

Lemma keeps_disk_loadCheckpoint filename d : keeps_disk (loadCheckpoint filename d).
Proof. intros w r w' H. rewrite loadCheckpoint_run in H. inversion H; reflexivity. Qed.

Lemma keeps_disk_retry_goto url : keeps_disk (retry_goto url).
Proof.
  unfold retry_goto, retry. apply keeps_disk_bind; [|intros; apply keeps_disk_ret].
  generalize (Datatypes.S (Z.to_nat 3)) as fuel. generalize 1 as attempt.
  intros attempt fuel. revert attempt.
  induction fuel as [|fuel IH]; intros attempt w r w' H; simpl in H.
  - inversion H; reflexivity.
  - destruct (attempt <=? 3); [|inversion H; reflexivity].
    destruct (goto url w) as [[a|err|] w1] eqn:Hg;
      pose proof (keeps_disk_goto url _ _ _ Hg) as Hd.
    + inversion H; subst; exact Hd.
    + destruct (attempt =? 3); [inversion H; subst; exact Hd|].
      rewrite (IH _ _ _ _ H). exact Hd.
    + inversion H; subst; exact Hd.
Qed.

Lemma keeps_disk_review_pages appName appSlug delayMin delayMax totalPages maxPages fuel :
  forall pageNum allReviews,
    keeps_disk (review_pages appName appSlug delayMin delayMax totalPages maxPages
                  fuel pageNum allReviews).
Proof.
  induction fuel as [|fuel IH]; intros pageNum allReviews w r w' H.
  - inversion H; reflexivity.
  - assert (Hk : keeps_disk
              (if num_le pageNum maxPages then
                 bind (enter_page appSlug delayMin delayMax pageNum) (fun _ =>
                 bind (extractReviewsFromPage appName appSlug) (fun batch =>
                 let allReviews := allReviews ++ batch in
                 bind (log (LogPage pageNum (length batch) (length allReviews))) (fun _ =>
                 if bool_decide (length batch = 0%nat) then ret allReviews
                 else if match totalPages with
                         | Some tp => num_ge pageNum tp
                         | None => false
                         end
                 then ret allReviews
                 else bind (page_has REVIEWS.nextPageLink) (fun nextLink =>
                      if negb nextLink then ret allReviews
                      else review_pages appName appSlug delayMin delayMax totalPages
                             maxPages fuel (pageNum + 1) allReviews))))
               else ret allReviews));
      [|exact (Hk w r w' H)].
    clear H.
    destruct (num_le pageNum maxPages); [|apply keeps_disk_ret].
    apply keeps_disk_bind.
    { unfold enter_page. destruct (1 <? pageNum); [|apply keeps_disk_ret].
      apply keeps_disk_bind; [apply keeps_disk_retry_goto|]. intros _. apply keeps_disk_emit. }
    intros _. apply keeps_disk_bind.
    { apply keeps_disk_silent
        with (f := fun w => Ret (review_of_block appName appSlug <$> reviewBlocks (document w))). }
    intros batch. cbv zeta.
    apply keeps_disk_bind; [apply keeps_disk_emit|]. intros _.
    destruct (bool_decide _); [apply keeps_disk_ret|].
    destruct (match totalPages with Some tp => num_ge pageNum tp | None => false end);
      [apply keeps_disk_ret|].
    apply keeps_disk_bind.
    { apply keeps_disk_silent
        with (f := fun w => Ret (bool_decide (is_Some (querySelector (document w) REVIEWS.nextPageLink)))). }
    intros nextLink. destruct (negb nextLink); [apply keeps_disk_ret|]. apply IH.
Qed.

Lemma keeps_disk_scrapeAppReviews app options : keeps_disk (scrapeAppReviews app options).
Proof.
  unfold scrapeAppReviews.
  apply keeps_disk_bind; [apply keeps_disk_newPage|]. intros _.
  apply keeps_disk_finally; [|apply keeps_disk_emit].
  apply keeps_disk_bind; [apply keeps_disk_emit|]. intros _.
  apply keeps_disk_bind; [apply keeps_disk_retry_goto|]. intros _.
  apply keeps_disk_bind; [apply keeps_disk_emit|]. intros _.
  apply keeps_disk_bind.
  { apply keeps_disk_silent with (f := fun w => Ret (count_hint (document w))). }
  intros totalCount.
  apply keeps_disk_bind.
  { destruct totalCount; [apply keeps_disk_emit|apply keeps_disk_ret]. }
  intros _. apply keeps_disk_review_pages.
Qed.

Lemma paths_differ appSlug :
  no_separator appSlug = true ->
  scraped_path <> combined_path
  /\ scraped_path <> apps_path
  /\ combined_path <> apps_path
  /\ per_app_path appSlug <> scraped_path
  /\ per_app_path appSlug <> combined_path
  /\ per_app_path appSlug <> apps_path.
Proof.
  intros H. destruct checkpoint_paths_differ as (C1 & C2 & C3).
  destruct (per_app_path_apart _ H) as (P1 & P2 & P3).
  repeat split; assumption.
Qed.

(** A file that none of the writes names is as it was. *)
Lemma replay_lookup_other (ws : list (string * json)) :
  forall d path,
    (forall pw, pw ∈ ws -> fst pw <> path) -> replay ws d !! path = d !! path.
Proof.
  induction ws as [|pw ws IH]; intros d path H; [reflexivity|].
  cbn [replay fold_left]. fold (replay ws (<[fst pw := JsonFile (snd pw)]> d)).
  rewrite IH by (intros pw' Hin; apply H; right; exact Hin).
  apply lookup_insert_ne. apply H. left.
Qed.

Lemma replay_app ws1 ws2 d : replay (ws1 ++ ws2) d = replay ws2 (replay ws1 d).
Proof. unfold replay. apply fold_left_app. Qed.

Lemma set_has_mark_all x done scrapedSet :
  set_has x (mark_all done scrapedSet)
  = set_has x scrapedSet || existsb (fun a => same_value_zero x (JStr (slug a))) done.
Proof.
  unfold mark_all. revert scrapedSet.
  induction done as [|a done IH]; intros scrapedSet; simpl.
  - rewrite orb_false_r. reflexivity.
  - rewrite IH, set_has_add, orb_assoc. reflexivity.
Qed.

(** The files after the loop, for apps whose slugs have no separator.
    [apps.json] is as it was, however the loop ends.  When the loop returns
    after at least one app, the set with all its apps marked and the
    flattened map are what the two checkpoints hold. *)
Lemma scrape_each_disk options total rest :
  forall i scrapedSet bySlug w r w',
    Forall (fun a => no_separator (slug a) = true) rest ->
    scrape_each options total i rest scrapedSet bySlug w = (r, w') ->
    disk w' !! apps_path = disk w !! apps_path
    /\ forall bySlug', r = Ret bySlug' ->
         (rest = [] -> bySlug' = bySlug /\ disk w' = disk w)
         /\ (rest <> [] ->
               disk w' !! scraped_path
               = Some (JsonFile (JArr (mark_all rest scrapedSet)))
               /\ disk w' !! combined_path = Some (JsonFile (JArr (flatten bySlug')))).
Proof.
  induction rest as [|app rest IH]; intros i scrapedSet bySlug w r w' Hplain H.
  - inversion H; subst. split; [reflexivity|]. intros B' HB. inversion HB; subst.
    split; [auto|congruence].
  - apply Forall_cons in Hplain as (Hp & Hplain).
    destruct (scrape_each_cons_inv _ _ _ _ _ _ _ _ _ _ H)
      as (r1 & w1 & hint & ev1 & Hs & _ & _ & _ & Hrest).
    pose proof (keeps_disk_scrapeAppReviews app options _ _ _ Hs) as Hd. simpl in Hd.
    destruct (paths_differ (slug app) Hp) as (P1 & P2 & P3 & P4 & P5 & P6).
    destruct r1 as [reviews|e|].
    + cbv zeta in Hrest.
      set (ws := turn (slug app) (set_add (JStr (slug app)) scrapedSet) reviews
                   (flatten (map_set (slug_key (slug app)) reviews bySlug))) in *.
      assert (Hother : forall k pw, pw ∈ take k ws -> fst pw <> apps_path).
      { intros k pw Hin. apply (subseteq_take k) in Hin.
        unfold ws, turn in Hin.
        repeat (apply elem_of_cons in Hin as [->|Hin]; [simpl; assumption|]).
        inversion Hin. }
      destruct Hrest as [Hgo|(k & code & Hk & -> & ->)].
      * destruct (after_writes_state ws w1) as (_ & Hd2 & _).
        destruct (IH _ _ _ _ _ _ Hplain Hgo) as (Happs & Hret).
        split.
        { rewrite Happs, Hd2, Hd. apply replay_lookup_other.
          intros pw Hin. apply (Hother 3%nat). exact Hin. }
        intros B' HB. destruct (Hret B' HB) as (Hnil & Hcons).
        split; [discriminate|]. intros _.
        destruct rest as [|app' rest'].
        -- destruct (Hnil eq_refl) as (-> & ->). rewrite Hd2, Hd.
           change (replay ws (disk w))
             with (<[combined_path :=
                       JsonFile (JArr (flatten (map_set (slug_key (slug app)) reviews bySlug)))]>
                     (<[per_app_path (slug app) := JsonFile (JArr reviews)]>
                        (<[scraped_path :=
                             JsonFile (JArr (set_add (JStr (slug app)) scrapedSet))]>
                           (disk w)))).
           split.
           ++ rewrite !lookup_insert_ne by congruence. rewrite lookup_insert_eq. reflexivity.
           ++ rewrite lookup_insert_eq. reflexivity.
        -- apply Hcons. discriminate.
      * destruct (after_writes_state (take k ws) w1) as (_ & Hd2 & _).
        split; [|intros B' HB; discriminate].
        rewrite Hd2, Hd. apply replay_lookup_other. apply Hother.
    + destruct Hrest as (-> & ->). split; [rewrite Hd; reflexivity|].
      intros B' HB. discriminate.
    + destruct Hrest as (-> & ->). split; [rewrite Hd; reflexivity|].
      intros B' HB. discriminate.
Qed.

Lemma set_has_new_Set x items : set_has x (new_Set items) = set_has x items.
Proof. unfold new_Set. rewrite set_has_fold. reflexivity. Qed.

Lemma filter_none {A} (f : A -> bool) (l : list A) :
  (forall a, a ∈ l -> f a = false) -> List.filter f l = [].
Proof.
  induction l as [|a l IH]; intros H; [reflexivity|].
  simpl. rewrite (H a) by left. apply IH. intros b Hb. apply H. right. exact Hb.
Qed.

Lemma elem_of_filter_bool {A} (f : A -> bool) (l : list A) a :
  a ∈ l -> f a = true -> a ∈ List.filter f l.
Proof.
  induction l as [|b l IH]; intros Hin Hf; [inversion Hin|].
  simpl. apply elem_of_cons in Hin as [->|Hin].
  - rewrite Hf. left.
  - destruct (f b); [right|]; auto.
Qed.

Lemma same_value_zero_slug s : same_value_zero (JStr s) (JStr s) = true.
Proof. simpl. apply bool_decide_eq_true. reflexivity. Qed.

Lemma filter_nil_inv {A} (f : A -> bool) (l : list A) :
  List.filter f l = [] -> forall a, a ∈ l -> f a = false.
Proof.
  induction l as [|b l IH]; intros H a Ha; [inversion Ha|].
  simpl in H. destruct (f b) eqn:Hb; [discriminate|].
  apply elem_of_cons in Ha as [->|Ha]; auto.
Qed.

(** What [loadCheckpoint] returns depends on the files only. *)
Lemma sublist_filter_bool {A} (f : A -> bool) (l : list A) :
  List.filter f l `sublist_of` l.
Proof.
  induction l as [|a l IH]; [reflexivity|].
  simpl. destruct (f a); [apply sublist_skip|apply sublist_cons]; exact IH.
Qed.

Lemma loadCheckpoint_same_disk filename d w w2 o :
  disk w2 = disk w ->
  loadCheckpoint filename d w = (o, w) ->
  loadCheckpoint filename d w2 = (o, w2).
Proof.
  intros Hd H. rewrite loadCheckpoint_run in *. rewrite Hd.
  inversion H as [Ho]. rewrite Ho. reflexivity.
Qed.

Lemma loadCheckpoint_state filename d w o w0 :
  loadCheckpoint filename d w = (o, w0) -> w0 = w.
Proof. rewrite loadCheckpoint_run. intros H. inversion H. reflexivity. Qed.

(** X9. Running [scrapeAllReviews] again after a run that returned (resume
    on, no [startFromSlug], at least one app, slugs without a separator,
    so that every app has a file of its own under [data/reviews]) fetches
    nothing: the second run finds every app marked, launches no browser,
    writes no file and returns the very value the first run returned. *)
Theorem second_run_fetches_nothing (apps : list App) (options : Options)
    (w : World) (v : json) (w1 : World) :
  default true (resume options) = true ->
  truthy (startFromSlug options) = false ->
  apps <> [] ->
  Forall (fun a => no_separator (slug a) = true) apps ->
  scrapeAllReviews apps options w = (Ret v, w1) ->
  scrapeAllReviews apps options w1 = (Ret v, emit (Log LogAllScraped) w1).
Proof.
  intros Hres Hstart Hne Hplain H.
  (* what the second run does on a disk that marks every app *)
  assert (Hsecond : forall (w2 : World) items,
            loadCheckpoint "scraped_app_slugs.json" (JArr []) w2 = (Ret (JArr items), w2) ->
            (forall a, a ∈ apps -> set_has (JStr (slug a)) items = true) ->
            loadCheckpoint "all_reviews.json" (JArr []) (emit (Log LogAllScraped) w2)
            = (Ret v, emit (Log LogAllScraped) w2) ->
            scrapeAllReviews apps options w2 = (Ret v, emit (Log LogAllScraped) w2)).
  { intros w2 items Hl Hall Hc. unfold scrapeAllReviews.
    rewrite Hres. unfold bind at 1. rewrite Hl.
    unfold toProcess_of. rewrite Hstart.
    rewrite filter_none.
    - destruct apps as [|a apps']; [congruence|]. simpl.
      unfold bind at 1. unfold log at 1, effect. exact Hc.
    - intros a Ha. rewrite set_has_new_Set, (Hall a Ha). reflexivity. }
  unfold scrapeAllReviews in H. rewrite Hres in H.
  unfold bind at 1 in H.
  destruct (loadCheckpoint "scraped_app_slugs.json" (JArr []) w) as [o w0] eqn:Hl.
  pose proof (loadCheckpoint_state _ _ _ _ _ Hl) as ->.
  destruct o as [scraped|e|]; [|discriminate|discriminate].
  set (items := match scraped with JArr items => items | _ => [] end) in H.
  unfold toProcess_of in H. rewrite Hstart in H.
  destruct (List.filter (fun a => negb (set_has (JStr (slug a)) (new_Set items))) apps)
    as [|a0 rem] eqn:Hrem.
  - (* nothing to do: the fast path, twice *)
    assert (Hmarked : forall a, a ∈ apps -> set_has (JStr (slug a)) items = true).
    { intros a Ha. pose proof (filter_nil_inv _ _ Hrem a Ha) as Hf.
      cbv beta in Hf. rewrite set_has_new_Set in Hf. destruct (set_has (JStr (slug a)) items);
        [reflexivity|discriminate]. }
    assert (Harr : scraped = JArr items).
    { destruct scraped as [p|xs|fields]; [|reflexivity|];
        destruct apps as [|a apps']; try congruence;
        specialize (Hmarked a ltac:(left)); discriminate. }
    rewrite Harr in Hl.
    destruct apps as [|a apps']; [congruence|]. simpl in H.
    unfold bind at 1 in H. unfold log at 1, effect in H.
    pose proof (loadCheckpoint_state _ _ _ _ _ H) as ->.
    apply (Hsecond _ items).
    + apply (loadCheckpoint_same_disk _ _ w); [reflexivity|exact Hl].
    + exact Hmarked.
    + apply (loadCheckpoint_same_disk _ _ (emit (Log LogAllScraped) w));
        [reflexivity|exact H].
  - (* the loop ran *)
    assert (Hcond : bool_decide (length (a0 :: rem) = 0%nat)
                    && bool_decide (0 < length apps)%nat = false) by reflexivity.
    rewrite Hcond in H. clear Hcond.
    unfold bind at 1 in H. unfold launch, effect in H.
    set (wl := emit (Launch _) w) in H.
    unfold bind at 1 in H.
    destruct (loadCheckpoint "all_reviews.json" (JArr []) wl) as [o w0] eqn:Hla.
    pose proof (loadCheckpoint_state _ _ _ _ _ Hla) as ->. clear Hla.
    destruct o as [allReviews|e|]; [|discriminate|discriminate].
    unfold bind at 1 in H. unfold group_by_slug in H.
    destruct allReviews as [p|records|fields]; try discriminate.
    destruct (group_from 0 records []) as [bySlug|e|]; try discriminate.
    unfold finally, bind in H.
    destruct (scrape_each options _ 0 (a0 :: rem) (new_Set items) bySlug wl)
      as [r2 w2] eqn:Hloop.
    assert (Hplain' : Forall (fun a => no_separator (slug a) = true) (a0 :: rem)).
    { rewrite <- Hrem. apply Forall_forall. intros a Ha.
      rewrite Forall_forall in Hplain. apply Hplain.
      eapply elem_of_sublist; [exact Ha|apply sublist_filter_bool]. }
    destruct (scrape_each_disk _ _ _ _ _ _ _ _ _ Hplain' Hloop) as (_ & Hfiles).
    destruct r2 as [bySlug'|e|]; simpl in H; try discriminate.
    inversion H; subst v w1. clear H.
    destruct (Hfiles bySlug' eq_refl) as (_ & Hcons).
    destruct Hcons as (Hs & Hc); [discriminate|].
    apply (Hsecond _ (mark_all (a0 :: rem) (new_Set items))).
    + rewrite loadCheckpoint_run. simpl.
      change (path_join DATA_DIR "scraped_app_slugs.json") with scraped_path.
      rewrite Hs. reflexivity.
    + intros a Ha. rewrite set_has_mark_all.
      destruct (set_has (JStr (slug a)) (new_Set items)) eqn:Hin; [reflexivity|].
      rewrite orb_false_l. apply existsb_exists. exists a.
      split; [|apply same_value_zero_slug].
      apply list_elem_of_In. rewrite <- Hrem.
      apply elem_of_filter_bool; [exact Ha|]. rewrite Hin. reflexivity.
    + rewrite loadCheckpoint_run. simpl.
      change (path_join DATA_DIR "all_reviews.json") with combined_path.
      rewrite Hc. reflexivity.
Qed.

Lemma second_run_fetches_nothing_witness :
  scrapeAllReviews [app_B; app_C] no_options
    (snd (scrapeAllReviews [app_B; app_C] no_options world_A_done))
  = (Ret (JArr (reviews_on "App A" "A" (review_page None 1 false)
                ++ reviews_on "App B" "B" (review_page None 2 false)
                ++ reviews_on "App C" "C" (review_page None 1 false))),
     emit (Log LogAllScraped)
       (snd (scrapeAllReviews [app_B; app_C] no_options world_A_done))).
Proof.
  apply (second_run_fetches_nothing [app_B; app_C] no_options world_A_done).
  - reflexivity.
  - reflexivity.
  - discriminate.
  - repeat constructor.
  - vm_compute. reflexivity.
Defined.

(** The loop over the apps always ends. *)
Lemma scrape_each_total options total rest :
  forall i scrapedSet bySlug w r w',
    scrape_each options total i rest scrapedSet bySlug w = (r, w') -> r <> OutOfFuel.
Proof.
  induction rest as [|app rest IH]; intros i scrapedSet bySlug w r w' H.
  - inversion H; discriminate.
  - destruct (scrape_each_cons_inv _ _ _ _ _ _ _ _ _ _ H)
      as (r1 & w1 & hint & ev1 & Hs & _ & _ & _ & Hrest).
    destruct r1 as [reviews|e|].
    + cbv zeta in Hrest. destruct Hrest as [Hgo|(k & code & _ & -> & _)];
        [exact (IH _ _ _ _ _ _ Hgo)|discriminate].
    + destruct Hrest as (-> & _). discriminate.
    + exfalso. pose proof (total_scrapeAppReviews app options
                             (emit (Log (LogApp (i + 1) total (name app) (slug app))) w)) as Ht.
      rewrite Hs in Ht. apply Ht. reflexivity.
Qed.

(** The loop over the apps, turn by turn: the apps it completes, each with
    the three writes of its turn; then, if the loop throws, the app it
    failed on, with the writes its turn had made; and nothing after.  The
    files are what these writes make of them. *)
Lemma scrape_each_trace options total rest :
  forall i scrapedSet bySlug w r w',
    scrape_each options total i rest scrapedSet bySlug w = (r, w') ->
    exists ev done turns partial,
      events w' = events w ++ ev
      /\ disk w' = replay (writes ev) (disk w)
      /\ writes ev = concat turns ++ partial
      /\ Forall2 turn_for done turns
      /\ match r with
         | Ret _ => done = rest /\ partial = [] /\ started ev = slug <$> rest
         | Throw _ =>
             exists failing later,
               rest = done ++ failing :: later
               /\ started ev = slug <$> (done ++ [failing])
               /\ cut_turn_for failing partial
         | OutOfFuel => False
         end.
Proof.
  induction rest as [|app rest IH]; intros i scrapedSet bySlug w r w' H.
  - inversion H; subst. exists [], [], [], []. rewrite app_nil_r.
    repeat split; constructor.
  - destruct (scrape_each_cons_inv _ _ _ _ _ _ _ _ _ _ H)
      as (r1 & w1 & hint & ev1 & Hs & E1 & F1 & _ & Hrest).
    pose proof (keeps_disk_scrapeAppReviews app options _ _ _ Hs) as Hd. simpl in Hd.
    pose proof (app_events_writes _ _ _ F1) as Hw1.
    pose proof (app_events_started _ _ _ F1) as Hst1.
    (* the loop ends in this turn, after the first [k] writes of [ws] *)
    assert (Hstop : forall scrapedSet' reviews flat k e,
              (k < 3)%nat -> r = Throw e ->
              w' = after_writes (take k (turn (slug app) scrapedSet' reviews flat)) w1 ->
              exists ev done turns partial,
                events w' = events w ++ ev
                /\ disk w' = replay (writes ev) (disk w)
                /\ writes ev = concat turns ++ partial
                /\ Forall2 turn_for done turns
                /\ exists failing later,
                     app :: rest = done ++ failing :: later
                     /\ started ev = slug <$> (done ++ [failing])
                     /\ cut_turn_for failing partial).
    { intros scrapedSet' reviews flat k e Hk -> ->.
      set (ws := take k (turn (slug app) scrapedSet' reviews flat)).
      destruct (after_writes_state ws w1) as (E2 & D2 & _).
      exists ([Log (LogApp (i + 1) total (name app) (slug app))] ++ ev1
              ++ (write_event <$> ws)), [], [], ws.
      split; [rewrite E2, E1, <- !app_assoc; reflexivity|].
      rewrite !writes_app, !started_app, Hw1, Hst1, writes_write_events,
        started_write_events.
      cbn [writes started Datatypes.app concat].
      split; [rewrite D2, Hd; reflexivity|]. split; [reflexivity|].
      split; [constructor|].
      exists app, rest. split; [reflexivity|]. split; [reflexivity|].
      exists scrapedSet', reviews, flat, k. auto. }
    destruct r1 as [reviews|e|].
    + cbv zeta in Hrest.
      destruct Hrest as [Hgo|(k & code & Hk & Hr & Hw')];
        [|subst r; exact (Hstop _ _ _ k _ Hk eq_refl Hw')].
      clear Hstop.
      set (ws := turn (slug app) (set_add (JStr (slug app)) scrapedSet) reviews
                   (flatten (map_set (slug_key (slug app)) reviews bySlug))) in *.
      destruct (after_writes_state ws w1) as (E2 & D2 & _).
      destruct (IH _ _ _ _ _ _ Hgo)
        as (ev3 & done3 & turns3 & partial3 & E3 & D3 & W3 & F3 & Hr).
      exists ([Log (LogApp (i + 1) total (name app) (slug app))] ++ ev1
              ++ (write_event <$> ws) ++ ev3), (app :: done3), (ws :: turns3), partial3.
      split; [rewrite E3, E2, E1, <- !app_assoc; reflexivity|].
      rewrite !writes_app, !started_app, Hw1, Hst1, writes_write_events,
        started_write_events.
      cbn [writes started Datatypes.app concat].
      split; [rewrite D3, D2, Hd, replay_app; reflexivity|].
      split; [rewrite W3, app_assoc; reflexivity|].
      split; [constructor; [eexists _, _, _; reflexivity|exact F3]|].
      destruct r as [v|e|]; [| |exact Hr].
      * destruct Hr as (-> & -> & Hst). repeat split. rewrite Hst. reflexivity.
      * destruct Hr as (failing & later & -> & Hst & Hcut).
        exists failing, later. split; [reflexivity|]. split; [|exact Hcut].
        rewrite Hst. reflexivity.
    + destruct Hrest as (Hr & Hw'). subst r.
      apply (Hstop [] [] [] 0%nat e); [lia|reflexivity|exact Hw'].
    + exfalso. pose proof (total_scrapeAppReviews app options
                             (emit (Log (LogApp (i + 1) total (name app) (slug app))) w)) as Ht.
      rewrite Hs in Ht. apply Ht. reflexivity.
Qed.

Lemma turn_paths_review_files (apps : list App) (a : App) (t : list (string * json)) k :
  a ∈ apps -> turn_for a t ->
  Forall (fun pw => review_file apps (fst pw)) (take k t).
Proof.
  intros Ha (scrapedSet & reviews & flat & ->).
  apply Forall_forall. intros pw Hin. apply (subseteq_take k) in Hin.
  unfold turn in Hin.
  apply elem_of_cons in Hin as [->|Hin]; [left; reflexivity|].
  apply elem_of_cons in Hin as [->|Hin];
    [right; right; exists a; split; [exact Ha|reflexivity]|].
  apply elem_of_cons in Hin as [->|Hin]; [right; left; reflexivity|].
  inversion Hin.
Qed.

(** [scrapeAllReviews], taken apart: the returns and throws that come
    before the loop change no file and log or launch at most; else the
    loop runs on the remaining apps and the browser is closed after it. *)
Lemma scrapeAllReviews_inv apps options w r w' :
  scrapeAllReviews apps options w = (r, w') ->
  (disk w' = disk w
   /\ (exists ev, events w' = events w ++ ev
                  /\ (ev = [] \/ ev = [Log LogAllScraped]
                      \/ (ev = [Launch (default true (headless options))]
                          /\ forall v, r <> Ret v))))
  \/ exists scrapedSet bySlug toProcess wl r2 w2,
       toProcess `sublist_of` apps
       /\ disk wl = disk w
       /\ events wl = events w ++ [Launch (default true (headless options))]
       /\ scrape_each options (length toProcess) 0 toProcess scrapedSet bySlug wl = (r2, w2)
       /\ r2 <> OutOfFuel
       /\ w' = emit BrowserClose w2
       /\ r = match r2 with
              | Ret bySlug' => Ret (JArr (flatten bySlug'))
              | Throw e => Throw e
              | OutOfFuel => OutOfFuel
              end.
Proof.
  intros H. unfold scrapeAllReviews in H.
  unfold bind at 1 in H.
  match type of H with
  | context [match ?x with _ => _ end] => destruct x as [o w0] eqn:Hscr
  end.
  assert (w0 = w) as ->.
  { destruct (default true (resume options));
      [apply loadCheckpoint_state in Hscr; exact Hscr|inversion Hscr; reflexivity]. }
  clear Hscr.
  destruct o as [scraped|e|];
    [|inversion H; subst; left; split; [reflexivity|]; exists []; rewrite app_nil_r; auto..].
  set (scrapedSet := new_Set _) in H.
  set (toProcess := toProcess_of _ _ apps) in *.
  destruct (bool_decide (length toProcess = 0%nat) && bool_decide (0 < length apps)%nat).
  - unfold bind at 1 in H. unfold log at 1, effect in H.
    pose proof (loadCheckpoint_state _ _ _ _ _ H) as ->.
    left. split; [reflexivity|]. exists [Log LogAllScraped]. auto.
  - unfold bind at 1 in H. unfold launch, effect in H.
    set (wl := emit (Launch _) w) in H.
    unfold bind at 1 in H.
    match type of H with
    | context [match ?x with _ => _ end] => destruct x as [o w0] eqn:Hall
    end.
    assert (w0 = wl) as ->.
    { destruct (default true (resume options));
        [apply loadCheckpoint_state in Hall; exact Hall|inversion Hall; reflexivity]. }
    clear Hall.
    assert (Hearly : forall r0, (forall v, r0 <> Ret v) -> (r0, wl) = (r, w') ->
              disk w' = disk w
              /\ (exists ev, events w' = events w ++ ev
                    /\ (ev = [] \/ ev = [Log LogAllScraped]
                        \/ (ev = [Launch (default true (headless options))]
                            /\ forall v, r <> Ret v)))).
    { intros r0 Hr0 Heq. inversion Heq; subst. split; [reflexivity|].
      exists [Launch (default true (headless options))]. split; [reflexivity|].
      right. right. auto. }
    destruct o as [allReviews|e|];
      [|left; apply (Hearly (Throw e)); [discriminate|exact H]
       |left; apply (Hearly OutOfFuel); [discriminate|exact H]].
    unfold bind at 1 in H. unfold group_by_slug in H.
    destruct allReviews as [p|records|fields];
      [left; apply (Hearly (Throw TypeError)); [discriminate|exact H]
      |
      |left; apply (Hearly (Throw TypeError)); [discriminate|exact H]].
    destruct (group_from 0 records []) as [bySlug|e|];
      [|left; apply (Hearly (Throw e)); [discriminate|exact H]
       |left; apply (Hearly OutOfFuel); [discriminate|exact H]].
    clear Hearly. right.
    unfold finally, bind in H.
    destruct (scrape_each options _ 0 toProcess scrapedSet bySlug wl) as [r2 w2] eqn:Hloop.
    exists scrapedSet, bySlug, toProcess, wl, r2, w2.
    split.
    { unfold toProcess, toProcess_of. destruct (truthy _); apply sublist_filter_bool. }
    split; [reflexivity|]. split; [reflexivity|]. split; [exact Hloop|].
    assert (Hnf : r2 <> OutOfFuel) by (apply (scrape_each_total _ _ _ _ _ _ _ _ _ Hloop)).
    split; [exact Hnf|].
    destruct r2 as [bySlug'|e|]; [| |congruence]; simpl in H; inversion H; auto.
Qed.

Lemma turns_review_files (apps done : list App) (turns : list (list (string * json))) :
  Forall2 turn_for done turns -> (forall a, a ∈ done -> a ∈ apps) ->
  Forall (fun pw => review_file apps (fst pw)) (concat turns).
Proof.
  induction 1 as [|a t done turns Ht F IH]; intros Hin; [constructor|].
  cbn [concat]. apply Forall_app. split.
  - destruct Ht as (scrapedSet & reviews & flat & ->).
    apply (turn_paths_review_files apps a (turn (slug a) scrapedSet reviews flat) 3%nat);
      [apply Hin; left|eexists _, _, _; reflexivity].
  - apply IH. intros a' Ha'. apply Hin. right. exact Ha'.
Qed.

(** The writes of the loop are writes of review files of its apps. *)
Lemma scrape_each_review_files options total rest i scrapedSet bySlug w r w' ev :
  scrape_each options total i rest scrapedSet bySlug w = (r, w') ->
  events w' = events w ++ ev ->
  Forall (fun pw => review_file rest (fst pw)) (writes ev).
Proof.
  intros H E.
  destruct (scrape_each_trace _ _ _ _ _ _ _ _ _ H)
    as (ev' & done & turns & partial & E' & _ & W & F & Hr).
  rewrite E in E'. apply app_inv_head in E'. subst ev'.
  rewrite W. apply Forall_app.
  destruct r as [v|e|]; [| |contradiction].
  - destruct Hr as (-> & -> & _). split; [|constructor].
    apply (turns_review_files _ _ _ F). auto.
  - destruct Hr as (failing & later & -> & _ & (scrapedSet' & reviews & flat & k & _ & ->)).
    split.
    + apply (turns_review_files _ _ _ F). intros a Ha. apply elem_of_app. left. exact Ha.
    + apply (turn_paths_review_files _ failing); [|eexists _, _, _; reflexivity].
      apply elem_of_app. right. left.
Qed.

(** X10. Whatever happens in a run of [scrapeAllReviews], what it writes
    are [scraped_app_slugs.json], [all_reviews.json] and the per-entity
    files of apps of its list, and the files are afterwards what these
    writes make of them: nothing else changes.  When no slug has a
    separator in it, so that every per-entity file is a file under
    [data/reviews], the discovery checkpoint [apps.json] is left as it
    was. *)
Theorem only_review_files_written (apps : list App) (options : Options)
    (w : World) r w' :
  scrapeAllReviews apps options w = (r, w') ->
  exists ev,
    events w' = events w ++ ev
    /\ disk w' = replay (writes ev) (disk w)
    /\ Forall (fun pw => review_file apps (fst pw)) (writes ev)
    /\ (Forall (fun a => no_separator (slug a) = true) apps ->
        disk w' !! apps_path = disk w !! apps_path).
Proof.
  intros H.
  assert (Hmain : exists ev,
            events w' = events w ++ ev
            /\ disk w' = replay (writes ev) (disk w)
            /\ Forall (fun pw => review_file apps (fst pw)) (writes ev)).
  { destruct (scrapeAllReviews_inv _ _ _ _ _ H)
      as [(Hd & ev & E & Hev)
         |(scrapedSet & bySlug & toProcess & wl & r2 & w2 & Hsub & Hdl & El & Hloop
           & _ & -> & _)].
    - exists ev. split; [exact E|].
      destruct Hev as [->|[->|(-> & _)]]; simpl; auto.
    - destruct (scrape_each_trace _ _ _ _ _ _ _ _ _ Hloop)
        as (ev & done & turns & partial & E & D & _).
      pose proof (scrape_each_review_files _ _ _ _ _ _ _ _ _ _ Hloop E) as Fw.
      exists ([Launch (default true (headless options))] ++ ev ++ [BrowserClose]).
      split; [simpl; rewrite E, El, <- !app_assoc; reflexivity|].
      rewrite !writes_app. cbn [writes Datatypes.app]. rewrite app_nil_r.
      split; [simpl; rewrite D, Hdl; reflexivity|].
      eapply Forall_impl; [exact Fw|]. intros pw [Hp|[Hp|(a & Ha & Hp)]].
      + left; exact Hp.
      + right; left; exact Hp.
      + right; right. exists a. split; [|exact Hp].
        eapply elem_of_sublist; [exact Ha|exact Hsub]. }
  destruct Hmain as (ev & E & D & Fw).
  exists ev. split; [exact E|]. split; [exact D|]. split; [exact Fw|].
  intros Hplain. rewrite D. apply replay_lookup_other.
  intros pw Hin. rewrite Forall_forall in Fw. rewrite Forall_forall in Hplain.
  destruct (Fw pw Hin) as [Hp|[Hp|(a & Ha & Hp)]]; rewrite Hp.
  - apply (paths_differ EmptyString). reflexivity.
  - apply (paths_differ EmptyString). reflexivity.
  - apply (paths_differ (slug a)). apply Hplain. exact Ha.
Qed.

Lemma only_review_files_written_witness :
  exists ev,
    events (snd (scrapeAllReviews [app_B; app_C] no_options world_A_done))
    = events world_A_done ++ ev
    /\ disk (snd (scrapeAllReviews [app_B; app_C] no_options world_A_done))
       = replay (writes ev) (disk world_A_done)
    /\ Forall (fun pw => review_file [app_B; app_C] (fst pw)) (writes ev)
    /\ (Forall (fun a => no_separator (slug a) = true) [app_B; app_C] ->
        disk (snd (scrapeAllReviews [app_B; app_C] no_options world_A_done)) !! apps_path
        = disk world_A_done !! apps_path).
Proof.
  apply (only_review_files_written [app_B; app_C] no_options world_A_done
           (fst (scrapeAllReviews [app_B; app_C] no_options world_A_done))).
  apply surjective_pairing.
Defined.

(** X11. When a run of [scrapeAllReviews] throws after it has started on
    an app, the apps it started on are apps of its list, in the order of
    the list.  Each of them but the last has the three writes of its turn,
    in the order the set of slugs, its own file, the combined checkpoint.
    The last one is the one the run failed on: its turn made none of its
    writes (scraping it failed), or the first, or the first two (the next
    write threw).  Nothing else is written, no later app is started, and
    the browser is closed last. *)
Theorem failing_app_ends_run (apps : list App) (options : Options)
    (w : World) (e : Error) w' :
  scrapeAllReviews apps options w = (Throw e, w') ->
  exists ev,
    events w' = events w ++ ev
    /\ (started ev <> [] ->
        exists done failing turns partial,
          started ev = slug <$> (done ++ [failing])
          /\ (done ++ [failing]) `sublist_of` apps
          /\ Forall2 turn_for done turns
          /\ cut_turn_for failing partial
          /\ writes ev = concat turns ++ partial
          /\ last ev = Some BrowserClose).
Proof.
  intros H.
  destruct (scrapeAllReviews_inv _ _ _ _ _ H)
    as [(Hd & ev & E & Hev)
       |(scrapedSet & bySlug & toProcess & wl & r2 & w2 & Hsub & Hdl & El & Hloop & _ & -> & Hr)].
  - exists ev. split; [exact E|].
    destruct Hev as [->|[->|(-> & _)]]; simpl; congruence.
  - destruct (scrape_each_trace _ _ _ _ _ _ _ _ _ Hloop)
      as (ev & done & turns & partial & E & _ & W & F & Hr2).
    exists ([Launch (default true (headless options))] ++ ev ++ [BrowserClose]).
    split; [simpl; rewrite E, El, <- !app_assoc; reflexivity|].
    rewrite !writes_app, !started_app. cbn [writes started Datatypes.app].
    rewrite !app_nil_r. intros _.
    destruct r2 as [v|e2|]; [discriminate| |contradiction].
    destruct Hr2 as (failing & later & Hrest & Hst & Hcut).
    exists done, failing, turns, partial.
    split; [exact Hst|]. split.
    { etransitivity; [|exact Hsub]. rewrite Hrest.
      change (failing :: later) with ([failing] ++ later). rewrite app_assoc.
      apply sublist_inserts_r. reflexivity. }
    split; [exact F|]. split; [exact Hcut|]. split; [exact W|].
    change (Launch ?h :: ev ++ [BrowserClose]) with ((Launch h :: ev) ++ [BrowserClose]).
    apply last_snoc.
Qed.

Lemma failing_app_ends_run_witness :
  exists ev,
    events (snd (scrapeAllReviews [app_B; app_C] no_options world_one_answer))
    = events world_one_answer ++ ev
    /\ (started ev <> [] ->
        exists done failing turns partial,
          started ev = slug <$> (done ++ [failing])
          /\ (done ++ [failing]) `sublist_of` [app_B; app_C]
          /\ Forall2 turn_for done turns
          /\ cut_turn_for failing partial
          /\ writes ev = concat turns ++ partial
          /\ last ev = Some BrowserClose).
Proof.
  apply (failing_app_ends_run [app_B; app_C] no_options world_one_answer
           (NavigationError "timeout")).
  vm_compute. reflexivity.
Defined.

(** The run of the witness, evaluated: [B] is completed and saved, [C] is
    started and fails, and the set of slugs on disk lists [B] only. *)
Example failing_app_not_marked :
  let run := scrapeAllReviews [app_B; app_C] no_options world_one_answer in
  fst run = Throw (NavigationError "timeout")
  /\ started (events (snd run)) = ["B"; "C"]
  /\ fst <$> writes (events (snd run)) = [scraped_path; per_app_path "B"; combined_path]
  /\ disk (snd run) !! scraped_path = Some (JsonFile (JArr [JStr "B"])).
Proof. cbv zeta. repeat split; vm_compute; reflexivity. Qed.

(** A run in which a write throws: the file of [B] is a directory.  [B]
    is marked in the set of slugs, the first write of its turn, and the
    run ends with the system error, its records saved nowhere. *)
Example failing_write_ends_run :
  let run := scrapeAllReviews [app_B; app_C] no_options world_blocked in
  fst run = Throw (SystemError "EISDIR")
  /\ started (events (snd run)) = ["B"]
  /\ fst <$> writes (events (snd run)) = [scraped_path]
  /\ disk (snd run) !! scraped_path = Some (JsonFile (JArr [JStr "B"]))
  /\ last (events (snd run)) = Some BrowserClose.
Proof. cbv zeta. repeat split; vm_compute; reflexivity. Qed.

(** X12. The browser is launched before the combined checkpoint is loaded,
    and the load is outside the [try]: when [all_reviews.json] does not
    parse (no app being marked yet), a resuming run launches the browser,
    throws the [SyntaxError] and never closes the browser; it fetches and
    writes nothing. *)
Theorem malformed_checkpoint_leaves_browser_open (apps : list App) (options : Options)
    (w : World) :
  default true (resume options) = true ->
  apps <> [] ->
  disk w !! scraped_path = None ->
  disk w !! combined_path = Some Malformed ->
  scrapeAllReviews apps options w
  = (Throw SyntaxError, emit (Launch (default true (headless options))) w).
Proof.
  intros Hres Hne Hs Hc. unfold scrapeAllReviews. rewrite Hres.
  unfold bind at 1. rewrite loadCheckpoint_run.
  change (path_join DATA_DIR "scraped_app_slugs.json") with scraped_path. rewrite Hs.
  assert (Hall : forall s, toProcess_of s (new_Set []) apps = apps).
  { intros s. unfold toProcess_of.
    destruct (truthy s); induction apps as [|a apps' IH]; try reflexivity.
    - simpl. rewrite orb_true_r. f_equal.
      destruct apps' as [|b apps'']; [reflexivity|]. apply IH. discriminate.
    - simpl. f_equal. destruct apps' as [|b apps'']; [reflexivity|]. apply IH. discriminate. }
  rewrite Hall. destruct apps as [|a apps']; [congruence|].
  change (bool_decide (length (a :: apps') = 0%nat)) with false. cbn [andb].
  unfold bind at 1. unfold launch, effect.
  unfold bind at 1. rewrite loadCheckpoint_run.
  change (path_join DATA_DIR "all_reviews.json") with combined_path.
  simpl disk. rewrite Hc. reflexivity.
Qed.

Lemma malformed_checkpoint_leaves_browser_open_witness :
  scrapeAllReviews [printful] no_options world_cut_short
  = (Throw SyntaxError, emit (Launch true) world_cut_short).
Proof.
  apply (malformed_checkpoint_leaves_browser_open [printful] no_options world_cut_short).
  - reflexivity.
  - discriminate.
  - reflexivity.
  - reflexivity.
Defined.

(** ** The discovery loop, for any bound *)

Lemma pages_searched_app ev1 ev2 :
  pages_searched (ev1 ++ ev2) = pages_searched ev1 ++ pages_searched ev2.
Proof.
  induction ev1 as [|e ev1 IH]; [reflexivity|].
  destruct e as [| | | | | | | | |[]|]; simpl; rewrite ?IH; reflexivity.
Qed.

Lemma pages_searched_quiet ev :
  Forall (fun e => forall p, e <> Log (LogSearchPage p)) ev -> pages_searched ev = [].
Proof.
  induction 1 as [|e ev He F IH]; [reflexivity|].
  destruct e as [| | | | | | | | |[]|]; simpl; auto.
  exfalso. eapply He. reflexivity.
Qed.

(** The merge of a batch into what was seen so far. *)
Lemma merge_batch_spec batch :
  forall allApps seen newCount,
    seen = slug <$> allApps -> NoDup seen ->
    exists fresh,
      merge_batch batch allApps seen newCount
      = (allApps ++ fresh, seen ++ (slug <$> fresh), (newCount + length fresh)%nat)
      /\ NoDup (seen ++ (slug <$> fresh))
      /\ fresh `sublist_of` batch
      /\ (forall a, a ∈ batch -> slug a ∈ seen ++ (slug <$> fresh)).
Proof.
  induction batch as [|app batch IH]; intros allApps seen newCount Hseen Hnd.
  - exists []. simpl. rewrite !app_nil_r, Nat.add_0_r.
    split; [reflexivity|]. split; [exact Hnd|]. split; [reflexivity|].
    intros a Ha. inversion Ha.
  - simpl. destruct (decide (slug app ∈ seen)) as [Hin|Hnotin].
    + rewrite bool_decide_eq_true_2 by exact Hin. simpl.
      destruct (IH allApps seen newCount Hseen Hnd) as (fresh & E & Hnd' & Hsub & Hcov).
      exists fresh. split; [exact E|]. split; [exact Hnd'|].
      split; [apply sublist_cons; exact Hsub|].
      intros a Ha. apply elem_of_cons in Ha as [->|Ha]; [|auto].
      apply elem_of_app. left. exact Hin.
    + rewrite bool_decide_eq_false_2 by exact Hnotin. simpl.
      destruct (IH (allApps ++ [app]) (seen ++ [slug app]) (Datatypes.S newCount))
        as (fresh & E & Hnd' & Hsub & Hcov).
      { rewrite Hseen, fmap_app. reflexivity. }
      { apply NoDup_app. split; [exact Hnd|]. split; [|apply NoDup_singleton].
        intros s Hs Hin. apply list_elem_of_singleton in Hin. subst s. auto. }
      exists (app :: fresh). rewrite E, <- !app_assoc, fmap_cons. simpl.
      split; [f_equal; lia|].
      split; [rewrite <- app_assoc in Hnd'; exact Hnd'|].
      split; [apply sublist_skip; exact Hsub|].
      intros a Ha. apply elem_of_cons in Ha as [->|Ha].
      * apply elem_of_app. right. left.
      * specialize (Hcov a Ha). rewrite <- app_assoc in Hcov. exact Hcov.
Qed.

Lemma log_skipped_run filteredBatch w :
  exists w1,
    log_skipped filteredBatch w = (Ret tt, w1)
    /\ disk w1 = disk w /\ remote w1 = remote w /\ document w1 = document w
    /\ exists ev, events w1 = events w ++ ev
                  /\ Forall (fun e => forall p, e <> Log (LogSearchPage p)) ev.
Proof.
  revert w. induction filteredBatch as [|f rest IH]; intros w.
  - exists w. simpl. repeat split; auto. exists []. rewrite app_nil_r. auto.
  - simpl. unfold bind at 1. unfold log at 1, effect.
    destruct (IH (emit (Log (LogSkipped f)) w))
      as (w1 & E & Hd & Hr & Hdoc & ev & Eev & F).
    exists w1. split; [exact E|]. repeat split; auto.
    exists (Log (LogSkipped f) :: ev). split.
    + rewrite Eev. simpl. rewrite <- app_assoc. reflexivity.
    + constructor; [discriminate|exact F].
Qed.

Section SearchPagesRuns.
Variable maxPages : option Z.
Variable nextPageLink : option string.

(** The loop from page [pageNum] on, for any bound and any selector: it
    ends, having searched the pages [pageNum], [pageNum + 1], ... in
    order, each within the bound, and what it returns has pairwise
    different slugs. *)
Lemma search_pages_run fuel :
  forall pageNum allApps seen w r w',
    seen = slug <$> allApps -> NoDup seen ->
    (Z.to_nat (default 0 maxPages + 1 - pageNum)%Z < fuel)%nat ->
    search_pages maxPages nextPageLink fuel pageNum allApps seen w = (r, w') ->
    r <> OutOfFuel
    /\ exists ev k,
         events w' = events w ++ ev
         /\ 0 <= k
         /\ pages_searched ev = seqZ pageNum k
         /\ (0 < k -> le_maybe_undefined (pageNum + k - 1) maxPages = true)
         /\ forall apps, r = Ret apps -> NoDup (slug <$> apps).
Proof.
  induction fuel as [|fuel IH]; intros pageNum allApps seen w r w' Hseen Hnd Hfuel H;
    [lia|].
  simpl in H. destruct (le_maybe_undefined pageNum maxPages) eqn:Hle.
  2:{ inversion H; subst. split; [discriminate|]. exists [], 0. rewrite app_nil_r.
      split; [reflexivity|]. split; [lia|]. split; [reflexivity|]. split; [lia|].
      intros apps Ha. inversion Ha; subst. exact Hnd. }
  unfold bind at 1 in H. unfold log at 1, effect in H.
  unfold bind at 1 in H. unfold scrollToBottom, effect in H.
  unfold bind at 1 in H. unfold delay at 1, effect in H.
  unfold bind at 1 in H. unfold extractAppsFromPage in H.
  set (w0 := emit (Delay 1000 2000) _) in H.
  destruct (merge_batch_spec (fst (appCards (document w0))) allApps seen 0 Hseen Hnd)
    as (fresh & Hm & Hnd' & _ & _).
  rewrite Hm in H. clear Hm.
  unfold bind at 1 in H. unfold log at 1, effect in H.
  set (w1 := emit (Log (LogFound _ _ _ _)) w0) in H.
  unfold bind at 1 in H.
  assert (Hsk : exists w2,
            (if bool_decide (0 < length (snd (appCards (document w0))))%nat
             then log_skipped (snd (appCards (document w0))) else ret tt) w1 = (Ret tt, w2)
            /\ document w2 = document w1
            /\ exists ev, events w2 = events w1 ++ ev
                          /\ Forall (fun e => forall p, e <> Log (LogSearchPage p)) ev).
  { destruct (bool_decide _).
    - destruct (log_skipped_run (snd (appCards (document w0))) w1)
        as (w2 & E & _ & _ & Hdoc & Hev). exists w2. auto.
    - exists w1. split; [reflexivity|]. split; [reflexivity|].
      exists []. rewrite app_nil_r. auto. }
  destruct Hsk as (w2 & Esk & Hdoc2 & evs & Es & Fs).
  match type of H with
  | context [match ?x with _ => _ end] => replace x with (@Ret Error unit tt, w2) in H
  end.
  assert (Hnd2 : NoDup (slug <$> allApps ++ fresh)).
  { rewrite fmap_app, <- Hseen. exact Hnd'. }
  assert (Ew2 : events w2
                = events w ++ Log (LogSearchPage pageNum)
                    :: ([Scroll; Delay 1000 2000;
                         Log (LogFound (length (fst (appCards (document w0))))
                                (0 + length fresh)
                                (length (snd (appCards (document w0))))
                                (length (allApps ++ fresh)))] ++ evs)).
  { rewrite Es. unfold w1, w0. simpl. rewrite <- !app_assoc. reflexivity. }
  assert (Fmid : Forall (fun e => forall p, e <> Log (LogSearchPage p))
                   ([Scroll; Delay 1000 2000;
                     Log (LogFound (length (fst (appCards (document w0))))
                            (0 + length fresh)
                            (length (snd (appCards (document w0))))
                            (length (allApps ++ fresh)))] ++ evs)).
  { apply Forall_app. split; [repeat constructor; discriminate|exact Fs]. }
  set (mid := [Scroll; Delay 1000 2000; _] ++ evs) in *.
  assert (Hstop : forall tail, Forall (fun e => forall p, e <> Log (LogSearchPage p)) tail ->
            events w' = events w2 ++ tail ->
            (forall apps, r = Ret apps -> apps = allApps ++ fresh) ->
            r <> OutOfFuel ->
            r <> OutOfFuel
            /\ exists ev k,
                 events w' = events w ++ ev
                 /\ 0 <= k
                 /\ pages_searched ev = seqZ pageNum k
                 /\ (0 < k -> le_maybe_undefined (pageNum + k - 1) maxPages = true)
                 /\ forall apps, r = Ret apps -> NoDup (slug <$> apps)).
  { intros tail Ft Et Hr Hnf. split; [exact Hnf|].
    exists (Log (LogSearchPage pageNum) :: mid ++ tail), 1.
    split; [rewrite Et, Ew2, <- app_assoc; reflexivity|]. split; [lia|].
    split.
    { change (pages_searched (Log (LogSearchPage pageNum) :: ?l))
        with (pageNum :: pages_searched l).
      rewrite pages_searched_app, (pages_searched_quiet _ Fmid), (pages_searched_quiet _ Ft).
      reflexivity. }
    split; [intros _; replace (pageNum + 1 - 1) with pageNum by lia; exact Hle|].
    intros apps Ha. rewrite (Hr apps Ha). exact Hnd2. }
  destruct (bool_decide (0 + length fresh = 0)%nat && (1 <? pageNum)).
  { inversion H; subst. apply (Hstop []); [constructor|rewrite app_nil_r; reflexivity| |discriminate].
    intros apps Ha. inversion Ha. reflexivity. }
  unfold bind at 1 in H. unfold next_page_url in H.
  destruct (negb (truthy (querySelector (document w2) (selector_text nextPageLink)))).
  { unfold bind at 1 in H. unfold log at 1, effect in H. inversion H; subst.
    apply (Hstop [Log LogNoMorePages]); [repeat constructor; discriminate|reflexivity| |discriminate].
    intros apps Ha. inversion Ha. reflexivity. }
  unfold bind at 1 in H.
  match type of H with
  | context [retry_goto ?u w2] => destruct (retry_goto u w2) as [rg wg] eqn:Hg;
      assert (Hq : emits (fun e => forall p, e <> Log (LogSearchPage p)) (retry_goto u))
        by (apply emits_retry_goto; intros; discriminate);
      pose proof (total_retry_goto u w2) as Htg
  end.
  destruct (Hq _ _ _ Hg) as (evg & Eg & Fg). rewrite Hg in Htg. simpl in Htg.
  destruct rg as [[]|e|]; [| |congruence].
  - unfold bind at 1 in H. unfold delay at 1, effect in H.
    apply IH in H; [|rewrite fmap_app, <- Hseen; reflexivity|exact Hnd'|].
    2:{ destruct maxPages as [m|]; simpl in Hle; [|discriminate].
        apply Z.leb_le in Hle. simpl in *. lia. }
    destruct H as (Hnf & ev & k & E & Hk & P & Hmax & Hret).
    split; [exact Hnf|].
    exists (Log (LogSearchPage pageNum) :: mid ++ evg
            ++ [Delay DELAY.minMs DELAY.maxMs] ++ ev), (k + 1).
    split; [rewrite E; simpl; rewrite Eg, Ew2, <- !app_assoc; reflexivity|].
    split; [lia|]. split.
    { change (pages_searched (Log (LogSearchPage pageNum) :: ?l))
        with (pageNum :: pages_searched l).
      rewrite !pages_searched_app, (pages_searched_quiet _ Fmid),
        (pages_searched_quiet _ Fg), P. simpl.
      rewrite (seqZ_cons pageNum (k + 1)) by lia. f_equal. f_equal; lia. }
    split; [|exact Hret].
    intros _. destruct (decide (k = 0)) as [->|Hk0].
    + replace (pageNum + (0 + 1) - 1) with pageNum by lia. exact Hle.
    + replace (pageNum + (k + 1) - 1) with (pageNum + 1 + k - 1) by lia. apply Hmax. lia.
  - inversion H; subst.
    apply (Hstop evg); [exact Fg|exact Eg| |discriminate].
    intros apps Ha. discriminate.
Qed.

End SearchPagesRuns.

(** X13. The discovery loop, whatever bound and whatever selector the
    configuration gives it: it ends; the listing pages it searches are
    1, 2, ..., k in this order, with k at most the bound and k = 0 when the
    bound is undefined; and the apps it returns have pairwise different
    slugs, so that the deduplication [discoverApps] runs on them afterwards
    changes nothing. *)
Theorem collect_with_bounded (maxPages : option Z) (nextPageLink : option string)
    (w : World) (r : Outcome Error (list App)) (w' : World) :
  collect_with maxPages nextPageLink w = (r, w') ->
  r <> OutOfFuel
  /\ exists ev k,
       events w' = events w ++ ev
       /\ pages_searched ev = seqZ 1 k
       /\ 0 <= k <= Z.max 0 (default 0 maxPages)
       /\ (maxPages = None -> k = 0)
       /\ forall apps, r = Ret apps ->
            NoDup (slug <$> apps) /\ unique_by_slug apps = apps.
Proof.
  intros H. unfold collect_with in H.
  apply search_pages_run in H; [|reflexivity|apply NoDup_nil; exact I|].
  2:{ unfold search_budget. destruct maxPages as [m|]; simpl; lia. }
  destruct H as (Hnf & ev & k & E & Hk & P & Hmax & Hret).
  split; [exact Hnf|]. exists ev, k.
  split; [exact E|]. split; [exact P|].
  assert (Hb : 0 < k -> exists m, maxPages = Some m /\ k <= m).
  { intros Hpos. specialize (Hmax Hpos). destruct maxPages as [m|]; [|discriminate].
    exists m. split; [reflexivity|]. simpl in Hmax. apply Z.leb_le in Hmax. lia. }
  split.
  { destruct (decide (0 < k)) as [Hpos|]; [|lia].
    destruct (Hb Hpos) as (m & -> & Hm). simpl. lia. }
  split.
  { intros HN. destruct (decide (0 < k)) as [Hpos|]; [|lia].
    destruct (Hb Hpos) as (m & Em & _). congruence. }
  intros apps Ha. specialize (Hret apps Ha).
  split; [exact Hret|apply unique_by_slug_id; exact Hret].
Qed.

Lemma collect_with_bounded_witness :
  exists r w',
    collect_with (Some 5) (Some next_link) world_catalog_shown = (r, w')
    /\ r <> OutOfFuel
    /\ exists ev k,
         events w' = events world_catalog_shown ++ ev
         /\ pages_searched ev = seqZ 1 k
         /\ 0 <= k <= Z.max 0 (default 0 (Some 5))
         /\ (Some 5 = None -> k = 0)
         /\ forall apps, r = Ret apps ->
              NoDup (slug <$> apps) /\ unique_by_slug apps = apps.
Proof.
  eexists _, _. split; [apply surjective_pairing|].
  apply (collect_with_bounded (Some 5) (Some next_link) world_catalog_shown).
  apply surjective_pairing.
Defined.

(** ** Discovery as a whole *)

(** A navigation that succeeds shows one of the answers of the remote. *)
Lemma retry_goto_shows url w w2 :
  retry_goto url w = (Ret tt, w2) ->
  Rendered (document w2) ∈ remote w /\ disk w2 = disk w.
Proof.
  destruct w as [dk rem doc ev].
  unfold retry_goto, retry, bind. simpl. unfold goto. simpl.
  destruct rem as [|[d1|m1] rem]; simpl; [discriminate| |].
  { intros H. inversion H; subst. simpl. split; [left|reflexivity]. }
  destruct rem as [|[d2|m2] rem]; simpl; [discriminate| |].
  { intros H. inversion H; subst. simpl. split; [right; left|reflexivity]. }
  destruct rem as [|[d3|m3] rem]; simpl; [discriminate| |discriminate].
  intros H. inversion H; subst. simpl. split; [right; right; left|reflexivity].
Qed.

(** Events that are neither a browser start or stop nor a write, and that
    navigate to the category page if they navigate at all. *)
Lemma calm_events (ev : list Event) :
  Forall (fun e => (e <> BrowserClose /\ (forall h, e <> Launch h))
                   /\ writes [e] = []
                   /\ Forall (fun url => url = CategoryUrl) (navigations [e])) ev ->
  Forall (fun e => e <> BrowserClose /\ forall h, e <> Launch h) ev
  /\ writes ev = []
  /\ Forall (fun url => url = CategoryUrl) (navigations ev).
Proof.
  induction 1 as [|e ev (Hb & Hw & Hn) F (IH1 & IH2 & IH3)].
  - repeat split; constructor.
  - split; [constructor; assumption|].
    change (e :: ev) with ([e] ++ ev).
    rewrite writes_app, navigations_app, Hw, IH2.
    split; [reflexivity|]. apply Forall_app. auto.
Qed.

(** X14. Every run of [discoverApps] ends, in one of three ways.  With
    resume on and a non-empty array in apps.json, that array is returned as
    it is: one log line, no browser, the files as they were.  With resume
    on and an apps.json that cannot be read or parsed, the error goes to
    the caller and nothing else happens.  Otherwise a browser is launched
    and closing it is the last thing the run does, whether it returns or
    throws; in between it navigates to the category page only; when it
    returns, the value is the deduplicated cards of one page the remote
    served, and writing it to apps.json is the one write of the run; when
    it throws, nothing was written. *)
Theorem discoverApps_outcomes (options : Options) (w : World)
    (r : Outcome Error json) (w' : World) :
  discoverApps options w = (r, w') ->
  r <> OutOfFuel
  /\ ((exists item items,
         r = Ret (JArr (item :: items))
         /\ resume options <> Some false
         /\ disk w !! apps_path = Some (JsonFile (JArr (item :: items)))
         /\ disk w' = disk w
         /\ events w' = events w ++ [Log (LogResuming (length (item :: items)))])
      \/ (exists e,
            r = Throw e /\ w' = w /\ resume options <> Some false
            /\ exists f, disk w !! apps_path = Some f /\ forall doc, f <> JsonFile doc)
      \/ (exists mid,
            events w'
            = events w ++ Launch (default true (headless options)) :: mid ++ [BrowserClose]
            /\ Forall (fun e => e <> BrowserClose /\ forall h, e <> Launch h) mid
            /\ Forall (fun url => url = CategoryUrl) (navigations mid)
            /\ (forall v, r = Ret v ->
                  exists d,
                    Rendered d ∈ remote w
                    /\ v = JArr (json_of_app <$> unique_by_slug (fst (appCards d)))
                    /\ disk w' = <[apps_path := JsonFile v]> (disk w)
                    /\ writes mid = [(apps_path, v)])
            /\ (forall e, r = Throw e -> disk w' = disk w /\ writes mid = []))).
Proof.
  intros H. unfold discoverApps in H. unfold bind at 1 in H.
  assert (Hload : exists o,
            (if default true (resume options)
             then loadCheckpoint "apps.json" (JPrim PNull) else ret (JPrim PNull)) w = (o, w)
            /\ o <> OutOfFuel
            /\ (forall e, o = Throw e ->
                  resume options <> Some false
                  /\ exists f, disk w !! apps_path = Some f /\ forall doc, f <> JsonFile doc)
            /\ (forall item items, o = Ret (JArr (item :: items)) ->
                  resume options <> Some false
                  /\ disk w !! apps_path = Some (JsonFile (JArr (item :: items))))).
  { destruct (resume options) as [[]|] eqn:Hres; simpl.
    2:{ exists (Ret (JPrim PNull)). split; [reflexivity|]. split; [discriminate|].
        split; intros; discriminate. }
    all: rewrite loadCheckpoint_run; fold apps_path;
      destruct (disk w !! apps_path) as [[doc| |code]|] eqn:Hd;
      eexists; (split; [reflexivity|]); (split; [discriminate|]); split;
      intros; try discriminate; (split; [discriminate|]).
    all: try (eexists; split; [reflexivity|]; intros; discriminate).
    all: congruence. }
  destruct Hload as (o & El & Hnf & Hthrow & Hres).
  match type of H with
  | context [match ?x with _ => _ end] => replace x with (o, w) in H
  end.
  clear El.
  destruct o as [checkpoint|e|]; [| |congruence].
  2:{ inversion H; subst. split; [discriminate|]. right. left.
      exists e. destruct (Hthrow e eq_refl) as (Hr & Hf). auto. }
  clear Hthrow Hnf.
  destruct (nonempty_array checkpoint) eqn:Hne.
  { destruct checkpoint as [p|[|item items]|fields]; try discriminate.
    unfold bind, log, effect, ret in H. inversion H; subst.
    split; [discriminate|]. left. exists item, items.
    destruct (Hres item items eq_refl) as (Hr & Hd). auto. }
  clear Hres Hne checkpoint.
  match goal with
  | |- _ /\ (_ \/ _ \/ ?P) =>
      enough (Hb : r <> OutOfFuel /\ P)
        by (destruct Hb as [Hb1 Hb2]; split; [exact Hb1|right; right; exact Hb2])
  end.
  unfold bind at 1 in H. unfold launch, effect in H.
  set (h := default true (headless options)) in *.
  unfold finally in H.
  unfold bind at 1 in H. unfold newPage, effect in H.
  unfold bind at 1 in H. unfold log at 1, effect in H.
  unfold bind at 1 in H.
  match type of H with
  | context [retry_goto CategoryUrl ?w1] =>
      set (w0 := w1) in H;
      destruct (retry_goto CategoryUrl w0) as [rg wg] eqn:Hg;
      pose proof (total_retry_goto CategoryUrl w0) as Htg;
      pose proof (keeps_disk_retry_goto CategoryUrl _ _ _ Hg) as Hdg;
      destruct (emits_retry_goto
                  (fun e => (e <> BrowserClose /\ (forall h, e <> Launch h))
                            /\ writes [e] = []
                            /\ Forall (fun url => url = CategoryUrl) (navigations [e]))
                  CategoryUrl) with (w := w0) (r := rg) (w' := wg)
        as (evg & Eg & Fg)
  end.
  1-3: intros; (split; [split; [discriminate|intros; discriminate]|]);
    (split; [reflexivity|]); repeat constructor.
  { exact Hg. }
  apply calm_events in Fg as (Fb & Fw & Fn).
  rewrite Hg in Htg. simpl in Htg.
  assert (Ew0 : events w0 = events w ++ [Launch h; NewPage; Log (LogNavigating CategoryUrl)]).
  { unfold w0. simpl. rewrite <- !app_assoc. reflexivity. }
  assert (Hd0 : disk w0 = disk w) by reflexivity.
  destruct rg as [[]|e|]; [| |congruence].
  - apply retry_goto_shows in Hg as (Hshown & _).
    change (remote w0) with (remote w) in Hshown.
    unfold bind at 1 in H. unfold delay at 1, effect in H.
    unfold bind at 1 in H. unfold collectAllApps, collect_with in H. simpl search_budget in H.
    simpl search_pages in H.
    unfold bind, ret, log, effect, extractAppsFromPage, browser_close in H.
    cbn [length bool_decide decide_rel Datatypes.app fst snd emit events disk remote document] in H.
    change (bool_decide (0%nat = 0%nat)) with true in H. cbv beta iota in H.
    match type of H with
    | context [saveCheckpoint ?f ?d ?w0] =>
        destruct (saveCheckpoint_cases f d w0) as [(code & E)|E]; rewrite E in H; clear E
    end.
    + (* the checkpoint cannot be written *)
      inversion H; subst r w'. clear H.
      split; [discriminate|].
      exists ([NewPage; Log (LogNavigating CategoryUrl)] ++ evg
              ++ [Delay DELAY.minMs DELAY.maxMs; Log LogNoApps;
                  Log (LogDiscovered
                         (length (unique_by_slug (fst (appCards (document wg))))))]).
      split.
      { cbn [events emit]. rewrite Eg, Ew0. rewrite <- !app_assoc. reflexivity. }
      split.
      { apply Forall_app. split; [repeat constructor; intros; discriminate|].
        apply Forall_app. split; [exact Fb|]. repeat constructor; intros; discriminate. }
      split.
      { rewrite !navigations_app. apply Forall_app. split; [constructor|].
        apply Forall_app. split; [exact Fn|constructor]. }
      split; [intros v Hv; discriminate|].
      intros e' _. split; [cbn [disk emit]; rewrite Hdg, Hd0; reflexivity|].
      rewrite !writes_app, Fw. reflexivity.
    + unfold written in H. inversion H; subst r w'. clear H.
      split; [discriminate|].
      exists ([NewPage; Log (LogNavigating CategoryUrl)] ++ evg
              ++ [Delay DELAY.minMs DELAY.maxMs; Log LogNoApps;
                  Log (LogDiscovered (length (unique_by_slug (fst (appCards (document wg))))));
                  WriteFile apps_path
                    (JArr (json_of_app <$> unique_by_slug (fst (appCards (document wg)))))]).
      split.
      { cbn [events emit]. rewrite Eg, Ew0. rewrite <- !app_assoc. reflexivity. }
      split.
      { apply Forall_app. split; [repeat constructor; intros; discriminate|].
        apply Forall_app. split; [exact Fb|]. repeat constructor; intros; discriminate. }
      split.
      { rewrite !navigations_app. apply Forall_app. split; [constructor|].
        apply Forall_app. split; [exact Fn|constructor]. }
      split.
      * intros v Hv. inversion Hv; subst v. exists (document wg).
        split; [exact Hshown|]. split; [reflexivity|].
        split; [cbn [disk emit]; rewrite Hdg, Hd0; reflexivity|].
        rewrite !writes_app, Fw. reflexivity.
      * intros e He. discriminate.
  - unfold browser_close, effect in H. inversion H; subst r w'. clear H.
    split; [discriminate|].
    exists ([NewPage; Log (LogNavigating CategoryUrl)] ++ evg).
    split.
    { cbn [events emit]. rewrite Eg, Ew0. rewrite <- !app_assoc. reflexivity. }
    split.
    { apply Forall_app. split; [repeat constructor; intros; discriminate|exact Fb]. }
    split.
    { rewrite !navigations_app. apply Forall_app. split; [constructor|exact Fn]. }
    split; [intros v Hv; discriminate|].
    intros e' _. split; [cbn [disk emit]; rewrite Hdg, Hd0; reflexivity|].
    rewrite writes_app, Fw. reflexivity.
Qed.

Lemma discoverApps_outcomes_witness :
  exists r w',
    discoverApps no_options world_catalog = (r, w')
    /\ r <> OutOfFuel
    /\ exists d,
         Rendered d ∈ remote world_catalog
         /\ r = Ret (JArr (json_of_app <$> unique_by_slug (fst (appCards d))))
         /\ disk w' !! apps_path
            = Some (JsonFile (JArr (json_of_app <$> unique_by_slug (fst (appCards d))))).
Proof.
  destruct (discoverApps no_options world_catalog) as [r w'] eqn:E.
  exists r, w'. split; [reflexivity|].
  destruct (discoverApps_outcomes no_options world_catalog r w' E)
    as (Hnf & [Hres|[Hthrow|Hrun]]).
  - exfalso. destruct Hres as (item & items & _ & _ & Hd & _). vm_compute in Hd. discriminate.
  - exfalso. destruct Hthrow as (e & _ & _ & _ & f & Hf & _). vm_compute in Hf. discriminate.
  - split; [exact Hnf|].
    destruct Hrun as (mid & _ & _ & _ & Hret & _).
    apply (f_equal fst) in E. vm_compute in E. rename E into Hr.
    destruct (Hret _ (eq_sym Hr)) as (d & Hin & Hv & Hd & _).
    exists d. split; [exact Hin|]. rewrite <- Hv. split; [first [reflexivity|symmetry; exact Hr]|].
    rewrite Hd. apply lookup_insert_eq.
Defined.

(** ** Grouping the combined checkpoint *)

Lemma map_get_has {V} (k : Key) (m : list (Key * V)) :
  map_get k m = None <-> map_has k m = false.
Proof.
  induction m as [|[k0 v0] m IH]; simpl; [tauto|].
  destruct (decide (k0 = k)) as [->|Hne].
  - rewrite bool_decide_eq_true_2 by reflexivity. simpl. split; discriminate.
  - rewrite bool_decide_eq_false_2 by exact Hne. simpl. exact IH.
Qed.

Lemma map_get_map_push {V} (k k0 : Key) (r : V) (m : list (Key * list V)) :
  map_get k (map_push k0 r m)
  = if decide (k = k0) then (fun v => v ++ [r]) <$> map_get k m else map_get k m.
Proof.
  induction m as [|[k1 v1] m IH]; simpl; [destruct (decide (k = k0)); reflexivity|].
  destruct (decide (k1 = k0)) as [->|Hne]; simpl.
  - destruct (decide (k0 = k)) as [->|Hk].
    + rewrite decide_True by reflexivity. reflexivity.
    + rewrite decide_False by congruence. reflexivity.
  - destruct (decide (k1 = k)) as [->|Hk].
    + rewrite decide_False by congruence. reflexivity.
    + exact IH.
Qed.

Lemma map_get_map_set_fresh {V} (k k0 : Key) (v : V) (m : list (Key * V)) :
  map_has k0 m = false ->
  map_get k (map_set k0 v m) = if decide (k = k0) then Some v else map_get k m.
Proof.
  induction m as [|[k1 v1] m IH]; simpl; intros H.
  - destruct (decide (k0 = k)) as [->|Hk].
    + rewrite decide_True by reflexivity. reflexivity.
    + rewrite decide_False by congruence. reflexivity.
  - apply orb_false_iff in H as [H1 H2]. apply bool_decide_eq_false in H1.
    destruct (decide (k1 = k0)) as [->|Hne]; [contradiction|]. simpl.
    destruct (decide (k1 = k)) as [->|Hk].
    + rewrite decide_False by congruence. reflexivity.
    + apply IH. exact H2.
Qed.

Lemma keys_map_push {V} (k : Key) (r : V) (m : list (Key * list V)) :
  fst <$> map_push k r m = fst <$> m.
Proof.
  induction m as [|[k1 v1] m IH]; simpl; [reflexivity|].
  destruct (decide (k1 = k)); simpl; [reflexivity|f_equal; exact IH].
Qed.

Lemma keys_map_set_fresh {V} (k : Key) (v : V) (m : list (Key * V)) :
  map_has k m = false -> fst <$> map_set k v m = (fst <$> m) ++ [k].
Proof.
  induction m as [|[k1 v1] m IH]; simpl; intros H; [reflexivity|].
  apply orb_false_iff in H as [H1 H2]. apply bool_decide_eq_false in H1.
  destruct (decide (k1 = k)) as [->|Hne]; [contradiction|]. simpl.
  f_equal. apply IH. exact H2.
Qed.

Lemma map_has_keys {V} (k : Key) (m : list (Key * V)) :
  map_has k m = true <-> k ∈ fst <$> m.
Proof.
  induction m as [|[k1 v1] m IH]; simpl.
  - split; [discriminate|intros H; inversion H].
  - rewrite orb_true_iff, IH, bool_decide_eq_true, elem_of_cons. simpl.
    split; intros [H|H]; auto.
Qed.

Lemma flatten_map_push_perm (k : Key) (r : json) (m : list (Key * list json)) :
  map_has k m = true -> flatten (map_push k r m) ≡ₚ flatten m ++ [r].
Proof.
  induction m as [|[k0 v0] m IH]; intros H; [discriminate|].
  cbn [map_push]. destruct (decide (k0 = k)) as [->|Hne].
  - rewrite !flatten_cons. rewrite <- !app_assoc.
    apply Permutation_app_head. apply Permutation_app_comm.
  - simpl in H. apply orb_true_iff in H as [H|H];
      [apply bool_decide_eq_true in H; simpl in H; contradiction|].
    rewrite !flatten_cons, IH by exact H. rewrite app_assoc. reflexivity.
Qed.

Lemma app_slug_of_null position r :
  app_slug_of position r = None <-> r = JPrim PNull.
Proof.
  destruct r as [[]|xs|fields]; simpl; try (split; [discriminate|discriminate]).
  - tauto.
  - destruct (assoc "app_slug" fields) as [[p|xs|fs]|]; split; discriminate.
Qed.

(** The grouping loop from any position and any map built so far. *)
Lemma group_from_run records :
  forall position m,
    NoDup (fst <$> m) ->
    match group_from position records m with
    | Ret m' =>
        (JPrim PNull ∉ records)
        /\ NoDup (fst <$> m')
        /\ flatten m' ≡ₚ flatten m ++ records
        /\ forall k,
             map_get k m'
             = match map_get k m, records_with k position records with
               | None, [] => None
               | None, filed => Some filed
               | Some v, filed => Some (v ++ filed)
               end
    | Throw e => e = TypeError /\ JPrim PNull ∈ records
    | OutOfFuel => False
    end.
Proof.
  induction records as [|r records IH]; intros position m Hnd; cbn [group_from].
  - split; [intros H; inversion H|]. split; [exact Hnd|].
    split; [rewrite app_nil_r; reflexivity|].
    intros k. simpl. destruct (map_get k m); [rewrite app_nil_r|]; reflexivity.
  - destruct (app_slug_of position r) as [k0|] eqn:Hk0.
    2:{ apply app_slug_of_null in Hk0. subst r. split; [reflexivity|left]. }
    assert (Hr : r <> JPrim PNull).
    { intros E. apply (app_slug_of_null position) in E. congruence. }
    set (m0 := if negb (map_has k0 m) then map_set k0 [] m else m).
    assert (Hhas : map_has k0 m0 = true).
    { unfold m0. destruct (map_has k0 m) eqn:Hm; simpl; [exact Hm|].
      rewrite map_has_map_set, bool_decide_eq_true_2 by reflexivity.
      apply orb_true_r. }
    assert (Hnd0 : NoDup (fst <$> m0)).
    { unfold m0. destruct (map_has k0 m) eqn:Hm; simpl; [exact Hnd|].
      rewrite keys_map_set_fresh by exact Hm.
      apply NoDup_app. split; [exact Hnd|]. split; [|apply NoDup_singleton].
      intros k Hin Hk. apply list_elem_of_singleton in Hk. subst k.
      apply map_has_keys in Hin. congruence. }
    assert (Hflat0 : flatten m0 = flatten m).
    { unfold m0. destruct (map_has k0 m) eqn:Hm; simpl; [reflexivity|].
      rewrite flatten_map_set_fresh, app_nil_r by exact Hm. reflexivity. }
    assert (Hget0 : forall k, map_get k m0
                              = if decide (k = k0)
                                then Some (default [] (map_get k m)) else map_get k m).
    { intros k. unfold m0. destruct (map_has k0 m) eqn:Hm; simpl.
      - destruct (decide (k = k0)) as [->|]; [|reflexivity].
        destruct (map_get k0 m) eqn:Hg; [reflexivity|].
        apply map_get_has in Hg. congruence.
      - rewrite map_get_map_set_fresh by exact Hm.
        destruct (decide (k = k0)) as [->|]; [|reflexivity].
        apply map_get_has in Hm. rewrite Hm. reflexivity. }
    specialize (IH (Datatypes.S position) (map_push k0 r m0)).
    rewrite keys_map_push in IH. specialize (IH Hnd0).
    destruct (group_from (Datatypes.S position) records (map_push k0 r m0))
      as [m'|e|]; [| |exact IH].
    2:{ destruct IH as (-> & Hin). split; [reflexivity|right; exact Hin]. }
    destruct IH as (Hnull & Hnd' & Hperm & Hget).
    split; [intros Hin; apply elem_of_cons in Hin as [Hin|Hin]; [congruence|auto]|].
    split; [exact Hnd'|].
    split.
    { rewrite Hperm, (flatten_map_push_perm _ _ _ Hhas), Hflat0, <- app_assoc.
      reflexivity. }
    intros k. rewrite Hget, map_get_map_push, Hget0. cbn [records_with].
    destruct (decide (k = k0)) as [->|Hk].
    + rewrite decide_True by exact Hk0. simpl.
      destruct (map_get k0 m) as [v|]; simpl.
      * rewrite <- app_assoc. reflexivity.
      * reflexivity.
    + rewrite decide_False by congruence.
      reflexivity.
Qed.

(** X15. What [scrapeAllReviews] makes of the combined checkpoint before
    its loop.  The grouping throws a [TypeError] exactly when one of the
    records is [null]; otherwise no record is lost or invented (the
    groups, laid end to end, are a rearrangement of the checkpoint), no key
    has two groups, and the group of a key holds the records that have
    this key as their [app_slug], in the order of the checkpoint. *)
Theorem grouping_keeps_records (records : list json) :
  match group_from 0 records [] with
  | Ret bySlug =>
      (JPrim PNull ∉ records)
      /\ NoDup (fst <$> bySlug)
      /\ flatten bySlug ≡ₚ records
      /\ forall k,
           map_get k bySlug
           = match records_with k 0 records with
             | [] => None
             | filed => Some filed
             end
  | Throw e => e = TypeError /\ JPrim PNull ∈ records
  | OutOfFuel => False
  end.
Proof.
  pose proof (group_from_run records 0 [] NoDup_nil_2) as H.
  destruct (group_from 0 records []) as [bySlug|e|]; exact H.
Qed.

(** ** A run with resume off does not read the files *)

Lemma blind_ret {A} (a : A) : blind (ret a).
Proof. intros w1 w2 H. split; [reflexivity|exact H]. Qed.

Lemma blind_document {A} (f : Document -> A) : blind (fun w => (Ret (f (document w)), w)).
Proof.
  intros w1 w2 H. simpl. destruct H as (Hr & Hd & He & Hk). rewrite Hd.
  split; [reflexivity|]. repeat split; assumption.
Qed.

Lemma blind_page_has selector : blind (page_has selector).
Proof.
  intros w1 w2 H. unfold page_has. simpl. destruct H as (Hr & Hd & He & Hk). rewrite Hd.
  split; [reflexivity|]. repeat split; assumption.
Qed.

Lemma blind_bind {A B} (m : JS A) (k : A -> JS B) :
  blind m -> (forall a, blind (k a)) -> blind (bind m k).
Proof.
  intros Hm Hk w1 w2 H. unfold bind. destruct (Hm w1 w2 H) as (Hr & Hs).
  destruct (m w1) as [r1 s1], (m w2) as [r2 s2]. simpl in Hr, Hs. subst r2.
  destruct r1 as [a|e|]; [exact (Hk a s1 s2 Hs)| |]; split; [reflexivity|exact Hs|reflexivity|exact Hs].
Qed.

Lemma blind_finally {A B} (body : JS A) (cleanup : JS B) :
  blind body -> blind cleanup -> blind (finally body cleanup).
Proof.
  intros Hb Hc w1 w2 H. unfold finally. destruct (Hb w1 w2 H) as (Hr & Hs).
  destruct (body w1) as [r1 s1], (body w2) as [r2 s2]. simpl in Hr, Hs. subst r2.
  destruct (Hc s1 s2 Hs) as (Hrc & Hsc).
  destruct (cleanup s1) as [c1 t1], (cleanup s2) as [c2 t2]. simpl in Hrc, Hsc. subst c2.
  destruct r1 as [a|e|]; [| |split; [reflexivity|exact Hs]];
    destruct c1 as [b|e'|]; split; try reflexivity; exact Hsc.
Qed.

Lemma blind_emit (e : Event) : blind (effect (emit e)).
Proof.
  intros w1 w2 (Hr & Hd & He & Hk). split; [reflexivity|].
  unfold effect, emit. simpl. repeat split; simpl; try congruence; try exact Hk.
Qed.

Lemma blind_newPage : blind newPage.
Proof.
  intros w1 w2 (Hr & Hd & He & Hk). split; [reflexivity|].
  unfold newPage, effect, emit. simpl. repeat split; simpl; try congruence; try exact Hk.
Qed.

Lemma blind_goto url : blind (goto url).
Proof.
  intros w1 w2 (Hr & Hd & He & Hk). unfold goto, emit. simpl. rewrite <- Hr.
  destruct (remote w1) as [|[d|msg] rest] eqn:E; simpl; (split; [reflexivity|]);
    repeat split; simpl; try congruence; try exact Hk.
Qed.

(** Whether the directories can be made depends on where the files are. *)
Lemma mkdir_error_kinds (d1 d2 : gmap string File) (dirs : list string) :
  (forall path, kind_at d1 path = kind_at d2 path) ->
  mkdir_error d1 dirs = mkdir_error d2 dirs.
Proof.
  intros Hk. induction dirs as [|dir inner IH]; [reflexivity|].
  cbn [mkdir_error]. specialize (Hk dir). unfold kind_at in Hk.
  destruct (d1 !! dir) as [[doc1| |code1]|], (d2 !! dir) as [[doc2| |code2]|];
    try discriminate; try reflexivity; try exact IH.
  inversion Hk; subst. simpl. destruct (bool_decide _); [exact IH|reflexivity].
Qed.

Lemma blind_mkdirSync dir : blind (mkdirSync dir).
Proof.
  intros w1 w2 H. pose proof H as (Hr & Hd & He & Hk). unfold mkdirSync.
  rewrite (mkdir_error_kinds _ _ _ Hk).
  destruct (mkdir_error _ _); split; [reflexivity|exact H|reflexivity|exact H].
Qed.

Lemma blind_writeFileSync path data : blind (writeFileSync path data).
Proof.
  intros w1 w2 H. pose proof H as (Hr & Hd & He & Hk). unfold writeFileSync.
  destruct (names_directory path); [split; [reflexivity|exact H]|].
  pose proof (Hk path) as Hp. unfold kind_at in Hp.
  assert (Hafter : same_but_contents
                     (emit (WriteFile path data)
                        (mkWorld (<[path := JsonFile data]> (disk w1)) (remote w1)
                           (document w1) (events w1)))
                     (emit (WriteFile path data)
                        (mkWorld (<[path := JsonFile data]> (disk w2)) (remote w2)
                           (document w2) (events w2)))).
  { repeat split; simpl; try congruence.
    intros path'. unfold kind_at. destruct (decide (path' = path)) as [->|Hne].
    - rewrite !lookup_insert_eq. reflexivity.
    - rewrite !lookup_insert_ne by congruence. apply Hk. }
  destruct (disk w1 !! path) as [[doc1| |code1]|], (disk w2 !! path) as [[doc2| |code2]|];
    try discriminate; try (split; [reflexivity|exact Hafter]).
  inversion Hp; subst. split; [reflexivity|exact H].
Qed.

Lemma blind_saveCheckpoint filename data : blind (saveCheckpoint filename data).
Proof.
  unfold saveCheckpoint.
  apply blind_bind; [apply blind_mkdirSync|intros _; apply blind_writeFileSync].
Qed.

Lemma blind_saveAppReviews appSlug reviews : blind (saveAppReviews appSlug reviews).
Proof.
  unfold saveAppReviews.
  apply blind_bind; [apply blind_mkdirSync|intros _; apply blind_writeFileSync].
Qed.

Lemma blind_retry_from {A} (fn : JS A) maxRetries baseDelayMs fuel attempt :
  blind fn ->
  blind (retry_from readable
           (fun attempt maxRetries err waitMs =>
              emit (ConsoleWarn attempt maxRetries err waitMs))
           (fun waitMs => emit (Timeout waitMs))
           fn maxRetries baseDelayMs fuel attempt).
Proof.
  intros Hfn. revert attempt.
  induction fuel as [|fuel IH]; intros attempt w1 w2 H; simpl.
  - split; [reflexivity|exact H].
  - destruct (attempt <=? maxRetries); [|split; [reflexivity|exact H]].
    destruct (Hfn w1 w2 H) as (Hr & Hs).
    destruct (fn w1) as [r1 s1], (fn w2) as [r2 s2]. simpl in Hr, Hs. subst r2.
    destruct r1 as [a|err|]; [split; [reflexivity|exact Hs]| |split; [reflexivity|exact Hs]].
    destruct (attempt =? maxRetries); [split; [reflexivity|exact Hs]|].
    apply IH. destruct Hs as (Hr & Hd & He & Hk).
    unfold emit. simpl. repeat split; simpl; try congruence; try exact Hk.
Qed.

Lemma blind_retry_goto url : blind (retry_goto url).
Proof.
  unfold retry_goto, retry.
  apply blind_bind; [|intros; apply blind_ret].
  apply blind_retry_from. apply blind_goto.
Qed.

Lemma blind_review_pages appName appSlug delayMin delayMax totalPages maxPages fuel :
  forall pageNum allReviews,
    blind (review_pages appName appSlug delayMin delayMax totalPages maxPages
             fuel pageNum allReviews).
Proof.
  induction fuel as [|fuel IH]; intros pageNum allReviews.
  - intros w1 w2 H. split; [reflexivity|exact H].
  - unfold review_pages.
    fold (review_pages appName appSlug delayMin delayMax totalPages maxPages).
    destruct (num_le pageNum maxPages); [|apply blind_ret].
    apply blind_bind.
    { unfold enter_page. destruct (1 <? pageNum); [|apply blind_ret].
      apply blind_bind; [apply blind_retry_goto|intros; apply blind_emit]. }
    intros _. apply blind_bind;
      [apply (blind_document (fun d => review_of_block appName appSlug <$> reviewBlocks d))|].
    intros batch.
    apply blind_bind; [apply blind_emit|]. intros _.
    destruct (bool_decide _); [apply blind_ret|].
    destruct (match totalPages with Some tp => num_ge pageNum tp | None => false end);
      [apply blind_ret|].
    apply blind_bind; [apply blind_page_has|].
    intros nextLink. destruct (negb nextLink); [apply blind_ret|apply IH].
Qed.

Lemma blind_scrapeAppReviews app options : blind (scrapeAppReviews app options).
Proof.
  unfold scrapeAppReviews.
  apply blind_bind; [apply blind_newPage|]. intros _.
  apply blind_finally; [|apply blind_emit].
  apply blind_bind; [apply blind_emit|]. intros _.
  apply blind_bind; [apply blind_retry_goto|]. intros _.
  apply blind_bind; [apply blind_emit|]. intros _.
  apply blind_bind; [apply (blind_document count_hint)|]. intros totalCount.
  apply blind_bind.
  { destruct totalCount; [apply blind_emit|apply blind_ret]. }
  intros _. apply blind_review_pages.
Qed.

Lemma blind_scrape_each options total rest :
  forall i scrapedSet bySlug, blind (scrape_each options total i rest scrapedSet bySlug).
Proof.
  induction rest as [|app rest IH]; intros i scrapedSet bySlug; cbn [scrape_each].
  - apply blind_ret.
  - apply blind_bind; [apply blind_emit|]. intros _.
    apply blind_bind; [apply blind_scrapeAppReviews|]. intros reviews.
    apply blind_bind; [apply blind_saveCheckpoint|]. intros _.
    apply blind_bind; [apply blind_saveAppReviews|]. intros _.
    apply blind_bind; [apply blind_saveCheckpoint|]. intros _.
    apply IH.
Qed.

Lemma blind_bind_ret {A B} (a : A) (k : A -> JS B) : blind (k a) -> blind (bind (ret a) k).
Proof. intros Hk w1 w2 H. exact (Hk w1 w2 H). Qed.

(** With nothing marked, every app is to be processed. *)
Lemma toProcess_of_nothing_marked startFromSlug apps :
  toProcess_of startFromSlug (new_Set []) apps = apps.
Proof.
  unfold toProcess_of.
  destruct (truthy startFromSlug); induction apps as [|a apps IH]; simpl;
    rewrite ?orb_true_r; f_equal; auto.
Qed.

(** X16. With [resume: false], [scrapeAllReviews] does not read the files
    it finds: two runs on the same apps, against the same remote, from
    states that have files at the same places and differ only in what the
    files hold (records or none, text that parses or not), end in the same
    way (the same value returned or the same error thrown) and do the same
    things in the same order, the writes among them. *)
Theorem resume_off_ignores_files (apps : list App) (options : Options)
    (w1 w2 : World) :
  resume options = Some false ->
  remote w1 = remote w2 -> document w1 = document w2 -> events w1 = events w2 ->
  (forall path, kind_at (disk w1) path = kind_at (disk w2) path) ->
  fst (scrapeAllReviews apps options w1) = fst (scrapeAllReviews apps options w2)
  /\ events (snd (scrapeAllReviews apps options w1))
     = events (snd (scrapeAllReviews apps options w2))
  /\ remote (snd (scrapeAllReviews apps options w1))
     = remote (snd (scrapeAllReviews apps options w2)).
Proof.
  intros Hres Hr Hd He Hk.
  enough (Hb : blind (scrapeAllReviews apps options)).
  { destruct (Hb w1 w2) as (H1 & H2 & _ & H3 & _); [repeat split; assumption|]. auto. }
  unfold scrapeAllReviews. rewrite Hres. cbn [default].
  apply blind_bind_ret. rewrite toProcess_of_nothing_marked.
  assert (Hc : bool_decide (length apps = 0%nat) && bool_decide (0 < length apps)%nat = false)
    by (destruct apps; reflexivity).
  rewrite Hc. clear Hc.
  apply blind_bind; [apply blind_emit|]. intros _.
  apply blind_bind_ret.
  unfold group_by_slug. apply blind_bind_ret.
  apply blind_finally; [|apply blind_emit].
  apply blind_bind; [apply blind_scrape_each|]. intros bySlug. apply blind_ret.
Qed.

Lemma resume_off_ignores_files_witness :
  fst (scrapeAllReviews [printful] fresh_start world_preexisting)
  = fst (scrapeAllReviews [printful] fresh_start world_preexisting_cut)
  /\ events (snd (scrapeAllReviews [printful] fresh_start world_preexisting))
     = events (snd (scrapeAllReviews [printful] fresh_start world_preexisting_cut))
  /\ remote (snd (scrapeAllReviews [printful] fresh_start world_preexisting))
     = remote (snd (scrapeAllReviews [printful] fresh_start world_preexisting_cut)).
Proof.
  apply (resume_off_ignores_files [printful] fresh_start world_preexisting
           world_preexisting_cut); try reflexivity.
  intros path. unfold kind_at, world_preexisting, world_preexisting_cut. simpl.
  destruct (decide (path = path_join DATA_DIR "all_reviews.json")) as [->|Hne].
  - rewrite !lookup_singleton_eq. reflexivity.
  - rewrite !lookup_singleton_ne by congruence. reflexivity.
Defined.

Lemma unique_by_slug_fixpoint_witness :
  unique_by_slug [app_a; app_b; app_c] = [app_a; app_b; app_c].
Proof.
  apply (proj1 (unique_by_slug_fixpoint [app_a; app_b; app_c])).
  apply (bool_decide_unpack _). vm_compute. exact I.
Defined.
